(** * lex-flow: an incremental JSON tokenizer and the [results] extraction
      state machine, embedded from the TypeScript sources.

    - [Lexer]                 src/lexer.ts
    - [Parser]                src/parser.ts (the one-shot parser)
    - [StreamingJSONParser]   src/streaming-results-json-parser.ts

    JavaScript strings are sequences of UTF-16 code units; a code unit is a
    number in [N].  The lexer reads its buffer by index, so the model keeps
    the buffer as a list and the cursor as a natural number.

    The [while] loops of the lexer are recursive functions over a step
    budget, the number of code units left in the buffer; each iteration
    moves the cursor forward, so the budget never ends a loop early
    ([skipWhitespaceLoop_fuel], [readStringLoop_fuel],
    [readNumberLoop_fuel]).  The recursive descents and the loop of
    [parseChunk] have budgets as well, and a computation that exhausts its
    budget has no result; none ever does ([descent_runs],
    [Parser_descent_runs], [drain_runs]).

    The file has the definitions first (the sources, then the notions the
    statements use), then concrete runs, then the properties. *)

From Stdlib Require Import String Ascii.
From Stdlib Require Import List NArith ZArith Bool Arith Lia.
Import ListNotations.

Set Implicit Arguments.
Set Warnings "-register-all".

(* ================================================================== *)
(** * JavaScript strings *)
(* ================================================================== *)

Definition char := N.
Definition jsstring := list char.

(** The code units of an ASCII literal. *)
Definition js (s : string) : jsstring :=
  map N_of_ascii (list_ascii_of_string s).

Definition c_quote : char := 34%N.
Definition c_backslash : char := 92%N.
Definition c_apostrophe : char := 39%N.

(** JSON text written with an apostrophe wherever the document has a
    double quote: [json "{'id':1}"] is the text [{"id":1}]. *)
Definition json (s : string) : jsstring :=
  map (fun c => if N.eqb c c_apostrophe then c_quote else c) (js s).

(** The code unit of an ASCII character. *)
Definition ch (a : ascii) : char := N_of_ascii a.

Fixpoint jsstring_eqb (a b : jsstring) : bool :=
  match a, b with
  | [], [] => true
  | x :: a', y :: b' => N.eqb x y && jsstring_eqb a' b'
  | _, _ => false
  end.

(** [s.slice(from, to)] for [0 <= from]; indices beyond the length are
    clamped, [to <= from] gives the empty string. *)
Definition slice (s : jsstring) (from to : nat) : jsstring :=
  firstn (to - from) (skipn from s).

(** [/\s/.test(c)]: the ECMAScript WhiteSpace and LineTerminator code
    units. *)
Definition isSpace (c : char) : bool :=
  ((9 <=? c) && (c <=? 13))%N
  || N.eqb c 32 || N.eqb c 160 || N.eqb c 5760
  || ((8192 <=? c) && (c <=? 8202))%N
  || N.eqb c 8232 || N.eqb c 8233 || N.eqb c 8239 || N.eqb c 8287
  || N.eqb c 12288 || N.eqb c 65279.

(** [c >= '0' && c <= '9'] *)
Definition isDigit (c : char) : bool := ((48 <=? c) && (c <=? 57))%N.

(** [[0-9a-fA-F]] *)
Definition isHexDigit (c : char) : bool :=
  isDigit c || ((97 <=? c) && (c <=? 102))%N || ((65 <=? c) && (c <=? 70))%N.

Definition hexValue (c : char) : N :=
  if isDigit c then (c - 48)%N
  else if ((97 <=? c) && (c <=? 102))%N then (c - 87)%N
  else (c - 55)%N.

(** [/^[0-9a-fA-F]{4}$/.test(hex)] *)
Definition isHex4 (hex : jsstring) : bool :=
  Nat.eqb (length hex) 4 && forallb isHexDigit hex.

(** [parseInt(hex, 16)] on a string of hexadecimal digits. *)
Definition parseHex (hex : jsstring) : N :=
  fold_left (fun acc c => (16 * acc + hexValue c)%N) hex 0%N.

(* ================================================================== *)
(** * JavaScript numbers *)
(* ================================================================== *)

(** A number is kept as the exact decimal its literal denotes,
    [mantissa * 10 ^ exponent], with no trailing zero in the mantissa and
    zero as [0 * 10 ^ 0].  JavaScript rounds this value to the nearest
    binary64; the rounding (and the sign of zero) is not modelled. *)
Record JSNumber := mkNumber { mantissa : Z; exponent : Z }.

Fixpoint takeDigits (s : jsstring) : jsstring * jsstring :=
  match s with
  | c :: s' =>
      if isDigit c then let '(ds, rest) := takeDigits s' in (c :: ds, rest)
      else ([], s)
  | [] => ([], [])
  end.

Definition digitsValue (ds : jsstring) : Z :=
  fold_left (fun acc c => (10 * acc + Z.of_N (c - 48))%Z) ds 0%Z.

Fixpoint stripZeros (fuel : nat) (m e : Z) : JSNumber :=
  match fuel with
  | O => mkNumber m e
  | S fuel =>
      if (m =? 0)%Z then mkNumber 0 0
      else if (m mod 10 =? 0)%Z then stripZeros fuel (m / 10)%Z (e + 1)%Z
      else mkNumber m e
  end.

Definition takeSign (s : jsstring) : Z * jsstring :=
  match s with
  | c :: s' =>
      if N.eqb c (ch "-") then ((-1)%Z, s')
      else if N.eqb c (ch "+") then (1%Z, s')
      else (1%Z, s)
  | [] => (1%Z, [])
  end.

(** The exponent part of a decimal literal with [digits] digits that
    denote [m * 10 ^ e] before it. *)
Definition exponentPart (digits : nat) (m e : Z) (s : jsstring)
    : option JSNumber :=
  match s with
  | [] => Some (stripZeros digits m e)
  | c :: s' =>
      if N.eqb c (ch "e") || N.eqb c (ch "E") then
        let '(esign, s'') := takeSign s' in
        match takeDigits s'' with
        | ((_ :: _) as ds, []) =>
            Some (stripZeros digits m (e + esign * digitsValue ds)%Z)
        | _ => None
        end
      else None
  end.

(** [Number(s)] for a string over digits, [.], [e], [E], [+] and [-], the
    only strings the lexer passes to it: zero for the empty string, else
    the value of a StrDecimalLiteral, [None] for NaN. *)
Definition Number (s : jsstring) : option JSNumber :=
  match s with
  | [] => Some (mkNumber 0 0)
  | _ :: _ =>
      let '(sign, s1) := takeSign s in
      let '(ip, s2) := takeDigits s1 in
      let '(fp, s3) :=
        match s2 with
        | c :: s2' => if N.eqb c (ch ".") then takeDigits s2' else ([], s2)
        | [] => ([], [])
        end in
      match ip ++ fp with
      | [] => None
      | _ :: _ =>
          exponentPart (length (ip ++ fp)) (sign * digitsValue (ip ++ fp))%Z
                       (- Z.of_nat (length fp))%Z s3
      end
  end.

(** The number written by an integer, for expected values. *)
Definition numberOfZ (z : Z) : JSNumber :=
  stripZeros (S (Z.to_nat (Z.abs z))) z 0.

(* ================================================================== *)
(** * JSON values and tokens (types.ts) *)
(* ================================================================== *)

(** [JSONValue = string | number | boolean | null | JSONObject | JSONArray].
    An object is the list of its own properties in insertion order. *)
Inductive JSONValue :=
| JNull
| JBool (b : bool)
| JNumber (n : JSNumber)
| JString (s : jsstring)
| JArray (elements : list JSONValue)
| JObject (properties : list (jsstring * JSONValue)).

(** [obj[key] = value]: the property keeps its place when it exists and
    goes last when it does not.  (JavaScript lists integer-like keys first
    and treats the key [__proto__] apart; neither is modelled.) *)
Fixpoint setProperty (obj : list (jsstring * JSONValue)) (key : jsstring)
    (value : JSONValue) : list (jsstring * JSONValue) :=
  match obj with
  | [] => [(key, value)]
  | (k, x) :: obj' =>
      if jsstring_eqb k key then (k, value) :: obj'
      else (k, x) :: setProperty obj' key value
  end.

(** The payload of a [ValueToken] is [boolean | null]; [None] is [null]. *)
Inductive Token :=
| begin_object
| end_object
| begin_array
| end_array
| name_separator
| value_separator
| string_token (value : jsstring)
| number_token (value : JSNumber)
| value_token (value : option bool).

(** [Token['type']] *)
Inductive TokenType :=
| ty_begin_object | ty_end_object | ty_begin_array | ty_end_array
| ty_name_separator | ty_value_separator | ty_string | ty_number | ty_value.

Definition type_of (t : Token) : TokenType :=
  match t with
  | begin_object => ty_begin_object
  | end_object => ty_end_object
  | begin_array => ty_begin_array
  | end_array => ty_end_array
  | name_separator => ty_name_separator
  | value_separator => ty_value_separator
  | string_token _ => ty_string
  | number_token _ => ty_number
  | value_token _ => ty_value
  end.

Definition TokenType_eqb (a b : TokenType) : bool :=
  match a, b with
  | ty_begin_object, ty_begin_object | ty_end_object, ty_end_object
  | ty_begin_array, ty_begin_array | ty_end_array, ty_end_array
  | ty_name_separator, ty_name_separator
  | ty_value_separator, ty_value_separator
  | ty_string, ty_string | ty_number, ty_number | ty_value, ty_value => true
  | _, _ => false
  end.

(* ================================================================== *)
(** * The incremental tokenizer (lexer.ts) *)
(* ================================================================== *)

Record Lexer := mkLexer { buffer : jsstring; position : nat }.

Definition newLexer : Lexer := mkLexer [] 0.

Definition addChunk (l : Lexer) (chunk : jsstring) : Lexer :=
  mkLexer (buffer l ++ chunk) (position l).

Definition getPosition (l : Lexer) : nat := position l.

Definition setPosition (l : Lexer) (pos : nat) : Lexer :=
  mkLexer (buffer l) pos.

Definition getBuffer (l : Lexer) : jsstring := buffer l.

(** The number of code units from the cursor to the end of the buffer. *)
Definition remaining (l : Lexer) : nat := length (buffer l) - position l.

(** [while (position < buffer.length && /\s/.test(buffer[position]))
      position++] *)
Fixpoint skipWhitespaceLoop (fuel : nat) (buf : jsstring) (pos : nat) : nat :=
  match fuel with
  | O => pos
  | S fuel =>
      match nth_error buf pos with
      | Some c => if isSpace c then skipWhitespaceLoop fuel buf (pos + 1) else pos
      | None => pos
      end
  end.

Definition skipWhitespace (l : Lexer) : Lexer :=
  setPosition l (skipWhitespaceLoop (remaining l) (buffer l) (position l)).

(** [buffer.slice(position, position + s.length) === s] *)
Definition startsWith (l : Lexer) (s : jsstring) : bool :=
  jsstring_eqb (slice (buffer l) (position l) (position l + length s)) s.

(** The loop of [readString], from the code unit after the opening quote:
    [Some (result, position)] when the closing quote is found, [None] on
    each path that restores the start position and returns [null]. *)
Fixpoint readStringLoop (fuel : nat) (buf : jsstring) (pos : nat)
    (result : jsstring) : option (jsstring * nat) :=
  match fuel with
  | O => None
  | S fuel =>
      match nth_error buf pos with
      | None => None
      | Some c =>
          if N.eqb c c_backslash then
            match nth_error buf (pos + 1) with
            | None => None
            | Some esc =>
                if N.eqb esc (ch "n") then
                  readStringLoop fuel buf (pos + 2) (result ++ [10%N])
                else if N.eqb esc c_quote then
                  readStringLoop fuel buf (pos + 2) (result ++ [c_quote])
                else if N.eqb esc c_backslash then
                  readStringLoop fuel buf (pos + 2) (result ++ [c_backslash])
                else if N.eqb esc (ch "b") then
                  readStringLoop fuel buf (pos + 2) (result ++ [8%N])
                else if N.eqb esc (ch "f") then
                  readStringLoop fuel buf (pos + 2) (result ++ [12%N])
                else if N.eqb esc (ch "r") then
                  readStringLoop fuel buf (pos + 2) (result ++ [13%N])
                else if N.eqb esc (ch "t") then
                  readStringLoop fuel buf (pos + 2) (result ++ [9%N])
                else if N.eqb esc (ch "u") then
                  if length buf <=? pos + 5 then None
                  else
                    let hex := slice buf (pos + 2) (pos + 6) in
                    if isHex4 hex then
                      readStringLoop fuel buf (pos + 5 + 2)
                        (result ++ [parseHex hex])
                    else None
                else
                  readStringLoop fuel buf (pos + 2) (result ++ [esc])
            end
          else if N.eqb c c_quote then Some (result, pos + 1)
          else readStringLoop fuel buf (pos + 1) (result ++ [c])
      end
  end.

Definition readString (l : Lexer) : option Token * Lexer :=
  let startPosition := position l in
  match readStringLoop (remaining l) (buffer l) (startPosition + 1) [] with
  | Some (result, pos) => (Some (string_token result), setPosition l pos)
  | None => (None, setPosition l startPosition)
  end.

(** The loop of [readNumber]: the cursor and [hasDigit] when it ends. *)
Fixpoint readNumberLoop (fuel : nat) (buf : jsstring) (pos : nat)
    (hasDigit hasDecimal hasExponent : bool) : nat * bool :=
  match fuel with
  | O => (pos, hasDigit)
  | S fuel =>
      match nth_error buf pos with
      | None => (pos, hasDigit)
      | Some c =>
          if isDigit c then
            readNumberLoop fuel buf (pos + 1) true hasDecimal hasExponent
          else if N.eqb c (ch ".") && negb hasDecimal && negb hasExponent then
            readNumberLoop fuel buf (pos + 1) hasDigit true hasExponent
          else if (N.eqb c (ch "e") || N.eqb c (ch "E"))
                  && negb hasExponent && hasDigit then
            let pos1 := pos + 1 in
            let pos2 :=
              match nth_error buf pos1 with
              | Some s =>
                  if N.eqb s (ch "+") || N.eqb s (ch "-") then pos1 + 1
                  else pos1
              | None => pos1
              end in
            readNumberLoop fuel buf pos2 false hasDecimal true
          else (pos, hasDigit)
      end
  end.

Definition readNumber (l : Lexer) : option Token * Lexer :=
  let start := position l in
  let '(pos, hasDigit) :=
    readNumberLoop (remaining l) (buffer l) start false false false in
  if pos =? length (buffer l) then (None, setPosition l start)
  else if negb hasDigit then (None, setPosition l start)
  else
    let numStr := slice (buffer l) start pos in
    match Number numStr with
    | None => (None, setPosition l start)
    | Some num => (Some (number_token num), setPosition l pos)
    end.

Definition nextToken (l0 : Lexer) : option Token * Lexer :=
  let l := skipWhitespace l0 in
  match nth_error (buffer l) (position l) with
  | None => (None, l)
  | Some c =>
      if N.eqb c (ch "{") then (Some begin_object, setPosition l (position l + 1))
      else if N.eqb c (ch "}") then (Some end_object, setPosition l (position l + 1))
      else if N.eqb c (ch "[") then (Some begin_array, setPosition l (position l + 1))
      else if N.eqb c (ch "]") then (Some end_array, setPosition l (position l + 1))
      else if N.eqb c (ch ":") then (Some name_separator, setPosition l (position l + 1))
      else if N.eqb c (ch ",") then (Some value_separator, setPosition l (position l + 1))
      else if N.eqb c c_quote then readString l
      else if N.eqb c (ch "-") || isDigit c then readNumber l
      else if startsWith l (js "true") then
        (Some (value_token (Some true)), setPosition l (position l + 4))
      else if startsWith l (js "false") then
        (Some (value_token (Some false)), setPosition l (position l + 5))
      else if startsWith l (js "null") then
        (Some (value_token None), setPosition l (position l + 4))
      else (None, l)
  end.

(** The tokens read from a text until the first [null], for the examples. *)
Fixpoint tokens (fuel : nat) (l : Lexer) : list Token :=
  match fuel with
  | O => []
  | S fuel =>
      match nextToken l with
      | (Some t, l') => t :: tokens fuel l'
      | (None, _) => []
      end
  end.

Definition tokensOf (text : jsstring) : list Token :=
  tokens (S (length text)) (addChunk newLexer text).

(* ================================================================== *)
(** * Stateful computations *)
(* ================================================================== *)

(** A computation on a state [S] returning an [A].  [None] is only ever
    the end of a recursion budget (the source recursion is unbounded);
    JavaScript's [null] and [undefined] are ordinary results. *)
Definition M (S A : Type) : Type := S -> option (A * S).

Definition ret {S A : Type} (a : A) : M S A := fun s => Some (a, s).

Definition bind {S A B : Type} (m : M S A) (k : A -> M S B) : M S B :=
  fun s => match m s with
           | Some (a, s') => k a s'
           | None => None
           end.

Definition outOfFuel {S A : Type} : M S A := fun _ => None.

Declare Scope monad_scope.
Delimit Scope monad_scope with monad.
Notation "x <- m ;; k" := (bind m (fun x => k))
  (at level 61, m at next level, right associativity) : monad_scope.
Notation "m ;; k" := (bind m (fun _ => k))
  (at level 61, right associativity) : monad_scope.
Local Open Scope monad_scope.

Definition isSome {A : Type} (o : option A) : bool :=
  match o with Some _ => true | None => false end.

(** The budget of one recursive descent from the cursor [l]: every call
    of the [parseValue] family consumes a token before it recurses. *)
Definition descentFuel (l : Lexer) : nat := 3 * remaining l + 1.

(* ================================================================== *)
(** * The one-shot parser (parser.ts) *)
(* ================================================================== *)

Module Parser.

(** [nextSignificantToken(peek)]: a peek steps the cursor back by one. *)
Definition nextSignificantToken (peek : bool) : M Lexer (option Token) :=
  fun l =>
    let '(token, l') := nextToken l in
    Some (token,
          if peek && isSome token then setPosition l' (getPosition l' - 1)
          else l').

Fixpoint parseValue (fuel : nat) : M Lexer (option JSONValue) :=
  match fuel with
  | O => outOfFuel
  | S fuel =>
      token <- nextSignificantToken false ;;
      match token with
      | None => ret None
      | Some (string_token value) => ret (Some (JString value))
      | Some (number_token value) => ret (Some (JNumber value))
      | Some (value_token (Some b)) => ret (Some (JBool b))
      | Some (value_token None) => ret (Some JNull)
      | Some begin_object => parseObject fuel
      | Some begin_array => parseArray fuel
      | Some _ => ret None
      end
  end
with parseObject (fuel : nat) : M Lexer (option JSONValue) :=
  match fuel with
  | O => outOfFuel
  | S fuel =>
      nextToken <- nextSignificantToken true ;;
      match nextToken with
      | Some end_object =>
          nextSignificantToken false ;;
          ret (Some (JObject []))
      | _ => parseObjectLoop fuel []
      end
  end
with parseObjectLoop (fuel : nat) (obj : list (jsstring * JSONValue))
    : M Lexer (option JSONValue) :=
  match fuel with
  | O => outOfFuel
  | S fuel =>
      keyToken <- nextSignificantToken false ;;
      match keyToken with
      | Some (string_token key) =>
          colonToken <- nextSignificantToken false ;;
          match colonToken with
          | Some name_separator =>
              value <- parseValue fuel ;;
              match value with
              | None => ret None
              | Some v =>
                  let obj := setProperty obj key v in
                  separatorToken <- nextSignificantToken false ;;
                  match separatorToken with
                  | None => ret None
                  | Some end_object => ret (Some (JObject obj))
                  | Some value_separator => parseObjectLoop fuel obj
                  | Some _ => ret None
                  end
              end
          | _ => ret None
          end
      | _ => ret None
      end
  end
with parseArray (fuel : nat) : M Lexer (option JSONValue) :=
  match fuel with
  | O => outOfFuel
  | S fuel =>
      nextToken <- nextSignificantToken true ;;
      match nextToken with
      | Some end_array =>
          nextSignificantToken false ;;
          ret (Some (JArray []))
      | _ => parseArrayLoop fuel []
      end
  end
with parseArrayLoop (fuel : nat) (arr : list JSONValue)
    : M Lexer (option JSONValue) :=
  match fuel with
  | O => outOfFuel
  | S fuel =>
      value <- parseValue fuel ;;
      match value with
      | None => ret None
      | Some v =>
          let arr := arr ++ [v] in
          separatorToken <- nextSignificantToken false ;;
          match separatorToken with
          | None => ret None
          | Some end_array => ret (Some (JArray arr))
          | Some value_separator => parseArrayLoop fuel arr
          | Some _ => ret None
          end
      end
  end.

(** What a call of [parse] does: return a value or throw an [Error]. *)
Inductive Outcome :=
| Returns (value : JSONValue)
| Throws (message : jsstring).

Definition parse (input : jsstring) : M Lexer Outcome :=
  fun l0 =>
    let l := addChunk l0 input in
    (value <- parseValue (descentFuel l) ;;
     match value with
     | None => ret (Throws (js "Invalid JSON"))
     | Some v => ret (Returns v)
     end) l.

(** [new Parser().parse(input)] *)
Definition parseFresh (input : jsstring) : option Outcome :=
  option_map fst (parse input newLexer).

End Parser.

(* ================================================================== *)
(** * [JSON.parse] *)
(* ================================================================== *)

(** [JSON.parse] is a built-in of the JavaScript runtime, not code of the
    repository.  The state machine below takes it as a parameter; the
    function [JSON_parse] of this module follows the JSON grammar of
    ECMA-404 and is what the concrete runs use.  [None] is a thrown
    [SyntaxError]. *)
Module JSON.

Definition isWhitespace (c : char) : bool :=
  N.eqb c 9 || N.eqb c 10 || N.eqb c 13 || N.eqb c 32.

Fixpoint skipWS (s : jsstring) : jsstring :=
  match s with
  | c :: s' => if isWhitespace c then skipWS s' else s
  | [] => []
  end.

Definition escapeValue (e : char) : option char :=
  if N.eqb e c_quote then Some c_quote
  else if N.eqb e c_backslash then Some c_backslash
  else if N.eqb e (ch "/") then Some (ch "/")
  else if N.eqb e (ch "b") then Some 8%N
  else if N.eqb e (ch "f") then Some 12%N
  else if N.eqb e (ch "n") then Some 10%N
  else if N.eqb e (ch "r") then Some 13%N
  else if N.eqb e (ch "t") then Some 9%N
  else None.

(** The characters of a string after its opening quote. *)
Fixpoint stringBody (s acc : jsstring) : option (jsstring * jsstring) :=
  match s with
  | [] => None
  | c :: s' =>
      if N.eqb c c_quote then Some (acc, s')
      else if N.eqb c c_backslash then
        match s' with
        | e :: s'' =>
            if N.eqb e (ch "u") then
              match s'' with
              | h1 :: h2 :: h3 :: h4 :: s3 =>
                  if forallb isHexDigit [h1; h2; h3; h4]
                  then stringBody s3 (acc ++ [parseHex [h1; h2; h3; h4]])
                  else None
              | _ => None
              end
            else
              match escapeValue e with
              | Some d => stringBody s'' (acc ++ [d])
              | None => None
              end
        | [] => None
        end
      else if (c <? 32)%N then None
      else stringBody s' (acc ++ [c])
  end.

(** [digits+] after a marker, or nothing when the marker is absent. *)
Definition digitsAfter (marker : list char) (s : jsstring)
    : option (jsstring * jsstring) :=
  match marker with
  | [] => Some ([], s)
  | _ :: _ =>
      match takeDigits s with
      | ([], _) => None
      | (ds, rest) => Some (marker ++ ds, rest)
      end
  end.

(** The longest number literal at the front of [s]: an optional minus,
    an integer part (a single zero, or digits that do not start with
    zero), an optional fraction (a point and at least one digit) and an
    optional exponent (e or E, an optional sign, at least one digit). *)
Definition numberLexeme (s : jsstring) : option (jsstring * jsstring) :=
  let '(minus, s1) :=
    match s with
    | c :: s' => if N.eqb c (ch "-") then ([c], s') else ([], s)
    | [] => ([], [])
    end in
  match s1 with
  | c :: s2 =>
      if isDigit c then
        let '(ip, s3) := if N.eqb c (ch "0") then ([c], s2) else takeDigits s1 in
        let '(dot, s4) :=
          match s3 with
          | d :: s3' => if N.eqb d (ch ".") then ([d], s3') else ([], s3)
          | [] => ([], [])
          end in
        match digitsAfter dot s4 with
        | None => None
        | Some (frac, s5) =>
            let '(e, s6) :=
              match s5 with
              | d :: s5' =>
                  if N.eqb d (ch "e") || N.eqb d (ch "E") then
                    match s5' with
                    | g :: s5'' =>
                        if N.eqb g (ch "+") || N.eqb g (ch "-")
                        then ([d; g], s5'') else ([d], s5')
                    | [] => ([d], [])
                    end
                  else ([], s5)
              | [] => ([], [])
              end in
            match digitsAfter e s6 with
            | None => None
            | Some (ex, s7) => Some (minus ++ ip ++ frac ++ ex, s7)
            end
        end
      else None
  | [] => None
  end.

Definition literal (word : jsstring) (v : JSONValue) (s : jsstring)
    : option (JSONValue * jsstring) :=
  if jsstring_eqb (firstn (length word) s) word
  then Some (v, skipn (length word) s) else None.

Fixpoint value (fuel : nat) (s : jsstring) : option (JSONValue * jsstring) :=
  match fuel with
  | O => None
  | S fuel =>
      match skipWS s with
      | [] => None
      | c :: s' =>
          if N.eqb c (ch "{") then
            match skipWS s' with
            | d :: s'' =>
                if N.eqb d (ch "}") then Some (JObject [], s'')
                else members fuel s' []
            | [] => None
            end
          else if N.eqb c (ch "[") then
            match skipWS s' with
            | d :: s'' =>
                if N.eqb d (ch "]") then Some (JArray [], s'')
                else elements fuel s' []
            | [] => None
            end
          else if N.eqb c c_quote then
            match stringBody s' [] with
            | Some (str, rest) => Some (JString str, rest)
            | None => None
            end
          else if N.eqb c (ch "-") || isDigit c then
            match numberLexeme (c :: s') with
            | Some (lexeme, rest) =>
                match Number lexeme with
                | Some n => Some (JNumber n, rest)
                | None => None
                end
            | None => None
            end
          else if N.eqb c (ch "t") then literal (js "true") (JBool true) (c :: s')
          else if N.eqb c (ch "f") then literal (js "false") (JBool false) (c :: s')
          else if N.eqb c (ch "n") then literal (js "null") JNull (c :: s')
          else None
      end
  end
with members (fuel : nat) (s : jsstring) (obj : list (jsstring * JSONValue))
    : option (JSONValue * jsstring) :=
  match fuel with
  | O => None
  | S fuel =>
      match skipWS s with
      | c :: s1 =>
          if N.eqb c c_quote then
            match stringBody s1 [] with
            | Some (key, s2) =>
                match skipWS s2 with
                | d :: s3 =>
                    if N.eqb d (ch ":") then
                      match value fuel s3 with
                      | Some (v, s4) =>
                          let obj := setProperty obj key v in
                          match skipWS s4 with
                          | e :: s5 =>
                              if N.eqb e (ch ",") then members fuel s5 obj
                              else if N.eqb e (ch "}") then Some (JObject obj, s5)
                              else None
                          | [] => None
                          end
                      | None => None
                      end
                    else None
                | [] => None
                end
            | None => None
            end
          else None
      | [] => None
      end
  end
with elements (fuel : nat) (s : jsstring) (arr : list JSONValue)
    : option (JSONValue * jsstring) :=
  match fuel with
  | O => None
  | S fuel =>
      match value fuel s with
      | Some (v, s1) =>
          let arr := arr ++ [v] in
          match skipWS s1 with
          | e :: s2 =>
              if N.eqb e (ch ",") then elements fuel s2 arr
              else if N.eqb e (ch "]") then Some (JArray arr, s2)
              else None
          | [] => None
          end
      | None => None
      end
  end.

(** [JSON.parse(text)]: one value, then only whitespace. *)
Definition JSON_parse (text : jsstring) : option JSONValue :=
  match value (S (length text)) text with
  | Some (v, rest) =>
      match skipWS rest with
      | [] => Some v
      | _ :: _ => None
      end
  | None => None
  end.

End JSON.

(* ================================================================== *)
(** * The extraction state machine (streaming-results-json-parser.ts) *)
(* ================================================================== *)

Inductive ParserState :=
| EXPECT_OBJECT_START
| SCANNING_FOR_RESULTS
| EXPECT_COLON_AFTER_RESULTS
| EXPECT_ARRAY_START
| PARSING_RESULTS_ARRAY
| PARSING_ARRAY_ENTRY (bracketCount : Z) (startPosition : nat)
| DONE.

(** What the machine does to the outside: a call of the consumer's
    [onNewEntry] (taken to return normally), or a call of
    [console.error] after a failed decode. *)
Inductive Event :=
| onNewEntry (entry : JSONValue)
| console_error.

(** The fields of the class, and the events so far, oldest first. *)
Record StreamingJSONParser := mkParser {
  lexer : Lexer;
  state : ParserState;
  events : list Event
}.

Definition newParser : StreamingJSONParser :=
  mkParser newLexer EXPECT_OBJECT_START [].

(** The entries handed to the consumer, in order. *)
Definition entries (p : StreamingJSONParser) : list JSONValue :=
  flat_map (fun e => match e with onNewEntry v => [v] | console_error => [] end)
           (events p).

Module Streaming.

Definition liftLexer {A : Type} (m : M Lexer A) : M StreamingJSONParser A :=
  fun p => match m (lexer p) with
           | Some (a, l') => Some (a, mkParser l' (state p) (events p))
           | None => None
           end.

Definition getLexer : M StreamingJSONParser Lexer :=
  fun p => Some (lexer p, p).

Definition getState : M StreamingJSONParser ParserState :=
  fun p => Some (state p, p).

Definition setState (st : ParserState) : M StreamingJSONParser unit :=
  fun p => Some (tt, mkParser (lexer p) st (events p)).

Definition emit (e : Event) : M StreamingJSONParser unit :=
  fun p => Some (tt, mkParser (lexer p) (state p) (events p ++ [e])).

(** [nextSignificantToken(peek)]: a peek that finds a token puts the
    cursor back where it was; one that finds none leaves it. *)
Definition nextSignificantToken (peek : bool) : M Lexer (option Token) :=
  fun l =>
    let oldPos := getPosition l in
    let '(token, l') := nextToken l in
    Some (token, if peek && isSome token then setPosition l' oldPos else l').

Definition expectToken (type : TokenType) : M Lexer bool :=
  token <- nextSignificantToken false ;;
  match token with
  | None => ret false
  | Some t => ret (TokenType_eqb (type_of t) type)
  end.

Fixpoint parseValue (fuel : nat) (discard : bool) : M Lexer (option JSONValue) :=
  match fuel with
  | O => outOfFuel
  | S fuel =>
      token <- nextSignificantToken false ;;
      match token with
      | None => ret None
      | Some (string_token value) =>
          ret (Some (if discard then JObject [] else JString value))
      | Some (number_token value) =>
          ret (Some (if discard then JObject [] else JNumber value))
      | Some (value_token value) =>
          ret (Some (if discard then JObject [] else
                       match value with Some b => JBool b | None => JNull end))
      | Some begin_object => parseObject fuel discard
      | Some begin_array => parseArray fuel discard
      | Some _ => ret None
      end
  end
with parseObject (fuel : nat) (discard : bool) : M Lexer (option JSONValue) :=
  match fuel with
  | O => outOfFuel
  | S fuel =>
      nextToken <- nextSignificantToken true ;;
      match nextToken with
      | None => ret None
      | Some end_object =>
          nextSignificantToken false ;;
          ret (Some (JObject []))
      | Some _ => parseObjectLoop fuel discard []
      end
  end
with parseObjectLoop (fuel : nat) (discard : bool)
    (obj : list (jsstring * JSONValue)) : M Lexer (option JSONValue) :=
  match fuel with
  | O => outOfFuel
  | S fuel =>
      keyToken <- nextSignificantToken false ;;
      match keyToken with
      | Some (string_token key) =>
          colon <- expectToken ty_name_separator ;;
          if negb colon then ret None else
          value <- parseValue fuel discard ;;
          match value with
          | None => ret None
          | Some v =>
              let obj := if discard then obj else setProperty obj key v in
              separator <- nextSignificantToken false ;;
              match separator with
              | None => ret None
              | Some end_object =>
                  ret (Some (JObject (if discard then [] else obj)))
              | Some value_separator => parseObjectLoop fuel discard obj
              | Some _ => ret None
              end
          end
      | _ => ret None
      end
  end
with parseArray (fuel : nat) (discard : bool) : M Lexer (option JSONValue) :=
  match fuel with
  | O => outOfFuel
  | S fuel =>
      nextToken <- nextSignificantToken true ;;
      match nextToken with
      | None => ret None
      | Some end_array =>
          nextSignificantToken false ;;
          ret (Some (JArray []))
      | Some _ => parseArrayLoop fuel discard []
      end
  end
with parseArrayLoop (fuel : nat) (discard : bool) (arr : list JSONValue)
    : M Lexer (option JSONValue) :=
  match fuel with
  | O => outOfFuel
  | S fuel =>
      value <- parseValue fuel discard ;;
      match value with
      | None => ret None
      | Some v =>
          let arr := if discard then arr else arr ++ [v] in
          separator <- nextSignificantToken false ;;
          match separator with
          | None => ret None
          | Some end_array =>
              ret (Some (JArray (if discard then [] else arr)))
          | Some value_separator => parseArrayLoop fuel discard arr
          | Some _ => ret None
          end
      end
  end.

Definition skipValue : M Lexer bool :=
  fun l => (value <- parseValue (descentFuel l) true ;; ret (isSome value)) l.

Definition handleExpectObjectStart (token : Token) : M StreamingJSONParser bool :=
  match token with
  | begin_object =>
      liftLexer (nextSignificantToken false) ;;
      setState SCANNING_FOR_RESULTS ;;
      ret true
  | _ => ret false
  end.

Definition isResultsKey (token : Token) : bool :=
  match token with
  | string_token value => jsstring_eqb value (js "results")
  | _ => false
  end.

Definition handleScanningForResults (token : Token) : M StreamingJSONParser bool :=
  liftLexer (nextSignificantToken false) ;;
  if isResultsKey token then
    setState EXPECT_COLON_AFTER_RESULTS ;;
    ret true
  else
    colon <- liftLexer (expectToken ty_name_separator) ;;
    if negb colon then ret false else
    skipped <- liftLexer skipValue ;;
    if negb skipped then ret false else
    sep <- liftLexer (nextSignificantToken false) ;;
    match sep with
    | None => ret false
    | Some end_object => setState DONE ;; ret true
    | Some value_separator => ret true
    | Some _ => ret false
    end.

Definition handleExpectColon (token : Token) : M StreamingJSONParser bool :=
  match token with
  | name_separator =>
      liftLexer (nextSignificantToken false) ;;
      setState EXPECT_ARRAY_START ;;
      ret true
  | _ => ret false
  end.

Definition handleExpectArrayStart (token : Token) : M StreamingJSONParser bool :=
  match token with
  | begin_array =>
      liftLexer (nextSignificantToken false) ;;
      setState PARSING_RESULTS_ARRAY ;;
      ret true
  | _ => ret false
  end.

Definition handleParsingResultsArray (token : Token) : M StreamingJSONParser bool :=
  match token with
  | end_array =>
      liftLexer (nextSignificantToken false) ;;
      setState DONE ;;
      ret true
  | value_separator =>
      liftLexer (nextSignificantToken false) ;;
      ret true
  | begin_object =>
      l <- getLexer ;;
      setState (PARSING_ARRAY_ENTRY 1 (getPosition l)) ;;
      liftLexer (nextSignificantToken false) ;;
      ret true
  | _ => ret false
  end.

Section Decode.

(** The runtime's [JSON.parse]; [None] when it throws. *)
Variable JSON_parse : jsstring -> option JSONValue.

Definition handleParsingArrayEntry : M StreamingJSONParser bool :=
  st <- getState ;;
  match st with
  | PARSING_ARRAY_ENTRY bracketCount startPosition =>
      token <- liftLexer (nextSignificantToken false) ;;
      match token with
      | None => ret false
      | Some begin_object =>
          setState (PARSING_ARRAY_ENTRY (bracketCount + 1) startPosition) ;;
          ret true
      | Some end_object =>
          setState (PARSING_ARRAY_ENTRY (bracketCount - 1) startPosition) ;;
          if (bracketCount - 1 =? 0)%Z then
            l <- getLexer ;;
            let objectStr := slice (getBuffer l) startPosition (getPosition l) in
            match JSON_parse objectStr with
            | Some parsedObject =>
                emit (onNewEntry parsedObject) ;;
                setState PARSING_RESULTS_ARRAY ;;
                ret true
            | None =>
                emit console_error ;;
                ret false
            end
          else ret true
      | Some _ => ret true
      end
  | _ => ret false
  end.

Definition processNextStep : M StreamingJSONParser bool :=
  token <- liftLexer (nextSignificantToken true) ;;
  match token with
  | None => ret false
  | Some token =>
      st <- getState ;;
      match st with
      | EXPECT_OBJECT_START => handleExpectObjectStart token
      | SCANNING_FOR_RESULTS => handleScanningForResults token
      | EXPECT_COLON_AFTER_RESULTS => handleExpectColon token
      | EXPECT_ARRAY_START => handleExpectArrayStart token
      | PARSING_RESULTS_ARRAY => handleParsingResultsArray token
      | PARSING_ARRAY_ENTRY _ _ => handleParsingArrayEntry
      | DONE => ret false
      end
  end.

(** The loop of [parseChunk]: step while a step reports progress and
    has moved the cursor. *)
Fixpoint drain (fuel : nat) : M StreamingJSONParser unit :=
  match fuel with
  | O => outOfFuel
  | S fuel =>
      l <- getLexer ;;
      let oldPosition := getPosition l in
      madeProgress <- processNextStep ;;
      l' <- getLexer ;;
      if madeProgress && negb (getPosition l' =? oldPosition)
      then drain fuel
      else ret tt
  end.

Definition parseChunk (chunk : jsstring) : M StreamingJSONParser unit :=
  fun p =>
    let p' := mkParser (addChunk (lexer p) chunk) (state p) (events p) in
    drain (S (remaining (lexer p'))) p'.

(** [parseStream] on a stream that delivers [chunks] and closes; an
    empty chunk is falsy and is not passed to [parseChunk]. *)
Fixpoint parseStream (chunks : list jsstring) : M StreamingJSONParser unit :=
  match chunks with
  | [] => ret tt
  | value :: rest =>
      match value with
      | [] => parseStream rest
      | _ :: _ => parseChunk value ;; parseStream rest
      end
  end.

(** A fresh parser fed [chunks]. *)
Definition run (chunks : list jsstring) : option StreamingJSONParser :=
  option_map snd (parseStream chunks newParser).

End Decode.

End Streaming.

(** [text] cut into fragments of [n] code units ([0 < n]), as the test
    suite does with [slice(i, i + chunkSize)]. *)
Fixpoint chunksOf (fuel n : nat) (text : jsstring) : list jsstring :=
  match fuel, text with
  | S fuel, _ :: _ => firstn n text :: chunksOf fuel n (skipn n text)
  | _, _ => []
  end.

Definition fragments (n : nat) (text : jsstring) : list jsstring :=
  chunksOf (length text) n text.

Definition runModel (chunks : list jsstring) : option StreamingJSONParser :=
  Streaming.run JSON.JSON_parse chunks.

Definition alice : JSONValue :=
  JObject [(js "id", JNumber (numberOfZ 1)); (js "name", JString (js "Alice"))].
Definition bob : JSONValue :=
  JObject [(js "id", JNumber (numberOfZ 2)); (js "name", JString (js "Bob"))].
Definition two_results : jsstring :=
  json "{'results':[{'id':1,'name':'Alice'},{'id':2,'name':'Bob'}]}".

(* ================================================================== *)
(** * Notions used by the statements *)
(* ================================================================== *)

(** [follows l l']: same buffer, and the cursor of [l'] is the cursor of
    [l] or lies further on, inside the buffer. *)
Definition follows (l l' : Lexer) : Prop :=
  buffer l' = buffer l /\
  (position l' = position l \/
   (position l < position l' /\ position l' <= length (buffer l))).

(** [advances l l']: same buffer, cursor strictly further, inside the buffer. *)
Definition advances (l l' : Lexer) : Prop :=
  buffer l' = buffer l /\
  position l < position l' /\ position l' <= length (buffer l).

(** What the [switch] of [readString] appends for the escape character
    [esc], when [esc] is not [u]. *)
Definition escapeOf (esc : char) : char :=
  if N.eqb esc (ch "n") then 10%N
  else if N.eqb esc c_quote then c_quote
  else if N.eqb esc c_backslash then c_backslash
  else if N.eqb esc (ch "b") then 8%N
  else if N.eqb esc (ch "f") then 12%N
  else if N.eqb esc (ch "r") then 13%N
  else if N.eqb esc (ch "t") then 9%N
  else esc.

(** How many code units the loop of [readNumber] takes from the text [s]
    at the cursor, and [hasDigit] when it stops. *)
Fixpoint numberRun (s : jsstring) (hd dec ex : bool) : nat * bool :=
  match s with
  | [] => (0, hd)
  | c :: s' =>
      if isDigit c then
        let '(n, h) := numberRun s' true dec ex in (S n, h)
      else if N.eqb c (ch ".") && negb dec && negb ex then
        let '(n, h) := numberRun s' hd true ex in (S n, h)
      else if (N.eqb c (ch "e") || N.eqb c (ch "E")) && negb ex && hd then
        match s' with
        | g :: s'' =>
            if N.eqb g (ch "+") || N.eqb g (ch "-") then
              let '(n, h) := numberRun s'' false dec true in (S (S n), h)
            else
              let '(n, h) := numberRun s' false dec true in (S n, h)
        | [] => (1, false)
        end
      else (0, hd)
  end.

(** ** Number literals *)

Definition isDigits (ds : jsstring) : Prop :=
  ds <> [] /\ Forall (fun c => isDigit c = true) ds.

(** A fraction: nothing, or a point and digits. *)
Definition isFraction (frac : jsstring) : Prop :=
  frac = [] \/ (exists ds, isDigits ds /\ frac = ch "." :: ds).

(** An exponent: nothing, or e or E, an optional sign and digits. *)
Definition isExponent (exp : jsstring) : Prop :=
  exp = [] \/
  (exists e sign ds,
     (e = ch "e" \/ e = ch "E") /\
     (sign = [] \/ sign = [ch "+"] \/ sign = [ch "-"]) /\
     isDigits ds /\ exp = e :: sign ++ ds).

(** The number literals of JSON: an optional minus, an integer part
    without a superfluous leading zero, an optional fraction and an
    optional exponent. *)
Inductive NumberLiteral : jsstring -> Prop :=
| number_literal (minus int frac exp : jsstring) :
    minus = [] \/ minus = [ch "-"] ->
    isDigits int ->
    int = [ch "0"] \/ nth_error int 0 <> Some (ch "0") ->
    isFraction frac ->
    isExponent exp ->
    NumberLiteral (minus ++ int ++ frac ++ exp).

(** A code unit at which the loop of [readNumber] stops wherever it is. *)
Definition endsNumber (c : char) : Prop :=
  isDigit c = false /\ c <> ch "." /\ c <> ch "e" /\ c <> ch "E".

(** [runs m l]: the computation [m] started on [l] is within its budget,
    and ends on the same buffer with the cursor where it was or further. *)
Definition runs {A : Type} (m : M Lexer A) (l : Lexer) : Prop :=
  exists a l', m l = Some (a, l') /\ follows l l'.

(** What one step does, state by state.  [l1] is the lexer after the
    peeked token has been consumed. *)
Definition stepOutcome (JSON_parse : jsstring -> option JSONValue)
    (p : StreamingJSONParser) (token : Token) (l1 : Lexer)
    (progress : bool) (p' : StreamingJSONParser) : Prop :=
  match state p with
  | EXPECT_OBJECT_START =>
      match token with
      | begin_object =>
          progress = true /\ p' = mkParser l1 SCANNING_FOR_RESULTS (events p)
      | _ => progress = false /\ p' = p
      end
  | SCANNING_FOR_RESULTS =>
      advances (lexer p) (lexer p') /\ events p' = events p /\
      (state p' = SCANNING_FOR_RESULTS \/
       state p' = EXPECT_COLON_AFTER_RESULTS \/ state p' = DONE)
  | EXPECT_COLON_AFTER_RESULTS =>
      match token with
      | name_separator =>
          progress = true /\ p' = mkParser l1 EXPECT_ARRAY_START (events p)
      | _ => progress = false /\ p' = p
      end
  | EXPECT_ARRAY_START =>
      match token with
      | begin_array =>
          progress = true /\ p' = mkParser l1 PARSING_RESULTS_ARRAY (events p)
      | _ => progress = false /\ p' = p
      end
  | PARSING_RESULTS_ARRAY =>
      match token with
      | end_array => progress = true /\ p' = mkParser l1 DONE (events p)
      | value_separator =>
          progress = true /\ p' = mkParser l1 PARSING_RESULTS_ARRAY (events p)
      | begin_object =>
          progress = true /\
          p' = mkParser l1 (PARSING_ARRAY_ENTRY 1 (position (lexer p))) (events p)
      | _ => progress = false /\ p' = p
      end
  | PARSING_ARRAY_ENTRY bracketCount startPosition =>
      match token with
      | begin_object =>
          progress = true /\
          p' = mkParser l1 (PARSING_ARRAY_ENTRY (bracketCount + 1) startPosition)
                        (events p)
      | end_object =>
          if (bracketCount - 1 =? 0)%Z then
            match JSON_parse (slice (buffer l1) startPosition (position l1)) with
            | Some parsedObject =>
                progress = true /\
                p' = mkParser l1 PARSING_RESULTS_ARRAY
                              (events p ++ [onNewEntry parsedObject])
            | None =>
                progress = false /\
                p' = mkParser l1 (PARSING_ARRAY_ENTRY (bracketCount - 1) startPosition)
                              (events p ++ [console_error])
            end
          else
            progress = true /\
            p' = mkParser l1 (PARSING_ARRAY_ENTRY (bracketCount - 1) startPosition)
                          (events p)
      | _ => progress = true /\ p' = mkParser l1 (state p) (events p)
      end
  | DONE => progress = false /\ p' = p
  end.

(** The states a parser goes through: a new parser, a parser that has
    been given a chunk, a parser that has taken a step. *)
Inductive reachable (JSON_parse : jsstring -> option JSONValue)
    : StreamingJSONParser -> Prop :=
| reachable_new : reachable JSON_parse newParser
| reachable_chunk p chunk :
    reachable JSON_parse p ->
    reachable JSON_parse (mkParser (addChunk (lexer p) chunk) (state p) (events p))
| reachable_step p progress p' :
    reachable JSON_parse p ->
    Streaming.processNextStep JSON_parse p = Some (progress, p') ->
    reachable JSON_parse p'.

Definition depthAtLeastOne (st : ParserState) : Prop :=
  match st with
  | PARSING_ARRAY_ENTRY bracketCount _ => (1 <= bracketCount)%Z
  | _ => True
  end.

(** A [JSON.parse] given by a table from texts to values, and failing
    on every other text. *)
Definition decodeTable (table : list (jsstring * JSONValue)) (x : jsstring)
    : option JSONValue :=
  match find (fun kv => jsstring_eqb (fst kv) x) table with
  | Some kv => Some (snd kv)
  | None => None
  end.

(** ** Notions used by the further properties *)

(** The lexer [l] with the text [front] put before its buffer. *)
Definition shiftLexer (front : jsstring) (l : Lexer) : Lexer :=
  mkLexer (front ++ buffer l) (length front + position l).

(** A result of a loop that was run on the text from the cursor on, seen
    from a buffer with [n] more code units in front. *)
Definition past (n : nat) (r : option (jsstring * nat)) : option (jsstring * nat) :=
  match r with
  | Some (value, p) => Some (value, n + p)
  | None => None
  end.

(** What the loop of [readString] does on the text [s] that follows the
    opening quote: the value and the number of code units taken, closing
    quote included, or nothing when the loop gives up. *)
Fixpoint stringRun (s result : jsstring) : option (jsstring * nat) :=
  match s with
  | [] => None
  | c :: s1 =>
      if N.eqb c c_backslash then
        match s1 with
        | [] => None
        | esc :: s2 =>
            if N.eqb esc (ch "u") then
              match s2 with
              | h1 :: h2 :: h3 :: h4 :: s3 =>
                  if isHex4 [h1; h2; h3; h4] then
                    match s3 with
                    | _ :: s4 =>
                        past 7 (stringRun s4 (result ++ [parseHex [h1; h2; h3; h4]]))
                    | [] => None
                    end
                  else None
              | _ => None
              end
            else past 2 (stringRun s2 (result ++ [escapeOf esc]))
        end
      else if N.eqb c c_quote then Some (result, 1)
      else past 1 (stringRun s1 (result ++ [c]))
  end.

Definition allDigits (ds : jsstring) : Prop :=
  Forall (fun c => isDigit c = true) ds.

(** The literal names of [nextToken] and the payload of their tokens. *)
Definition literals : list (jsstring * option bool) :=
  [(js "true", Some true); (js "false", Some false); (js "null", None)].

(** The code units on which [nextToken] starts a token. *)
Definition startsToken (c : char) : bool :=
  existsb (N.eqb c)
    [ch "{"; ch "}"; ch "["; ch "]"; ch ":"; ch ","; c_quote; ch "-";
     ch "t"; ch "f"; ch "n"]
  || isDigit c.

(** The value [parseValue] returns for a token that is a value by
    itself ([return token.value]). *)
Definition scalarValue (t : Token) : option JSONValue :=
  match t with
  | string_token value => Some (JString value)
  | number_token value => Some (JNumber value)
  | value_token (Some b) => Some (JBool b)
  | value_token None => Some JNull
  | _ => None
  end.

(** The tokens a state accepts at the cursor: the cases of its handler
    that do not return [false] at once. *)
Definition expects (st : ParserState) (t : Token) : bool :=
  match st, t with
  | EXPECT_OBJECT_START, begin_object => true
  | EXPECT_COLON_AFTER_RESULTS, name_separator => true
  | EXPECT_ARRAY_START, begin_array => true
  | PARSING_RESULTS_ARRAY, (end_array | value_separator | begin_object) => true
  | (SCANNING_FOR_RESULTS | PARSING_ARRAY_ENTRY _ _), _ => true
  | _, _ => false
  end.

(** The parser after [lexer.addChunk(chunk)]. *)
Definition grow (p : StreamingJSONParser) (chunk : jsstring) : StreamingJSONParser :=
  mkParser (addChunk (lexer p) chunk) (state p) (events p).

(** How far a state is along the document: the order in which the
    states follow each other. *)
Definition stateRank (st : ParserState) : nat :=
  match st with
  | EXPECT_OBJECT_START => 0
  | SCANNING_FOR_RESULTS => 1
  | EXPECT_COLON_AFTER_RESULTS => 2
  | EXPECT_ARRAY_START => 3
  | PARSING_RESULTS_ARRAY => 4
  | PARSING_ARRAY_ENTRY _ _ => 4
  | DONE => 5
  end.

(** Two states that differ at most in the recorded start of the element,
    and there only by whitespace that [nextToken] skips. *)
Definition sameState (buf : jsstring) (st1 st2 : ParserState) : Prop :=
  match st1, st2 with
  | PARSING_ARRAY_ENTRY b1 s1, PARSING_ARRAY_ENTRY b2 s2 =>
      b1 = b2 /\ skipWhitespace (mkLexer buf s1) = skipWhitespace (mkLexer buf s2)
  | PARSING_ARRAY_ENTRY _ _, _ => False
  | _, PARSING_ARRAY_ENTRY _ _ => False
  | _, _ => st1 = st2
  end.

(** Two parsers with the same events and the same buffer, whose cursors
    and recorded starts differ at most by whitespace that [nextToken]
    skips. *)
Definition alike (p q : StreamingJSONParser) : Prop :=
  events p = events q /\
  skipWhitespace (lexer p) = skipWhitespace (lexer q) /\
  sameState (buffer (lexer p)) (state p) (state q).

(** The loop of [parseChunk] as a relation: steps that report progress,
    then one that does not. *)
Inductive drains (JSON_parse : jsstring -> option JSONValue)
    : StreamingJSONParser -> StreamingJSONParser -> Prop :=
| drains_stop p p' :
    Streaming.processNextStep JSON_parse p = Some (false, p') ->
    drains JSON_parse p p'
| drains_step p p1 p' :
    Streaming.processNextStep JSON_parse p = Some (true, p1) ->
    drains JSON_parse p1 p' ->
    drains JSON_parse p p'.

(** [JSON_parse] gives the same result on two slices of [buf] that end
    at the same place and start in the same run of whitespace. *)
Definition decodesAlike (JSON_parse : jsstring -> option JSONValue)
    (buf : jsstring) : Prop :=
  forall s1 s2 pos,
    skipWhitespace (mkLexer buf s1) = skipWhitespace (mkLexer buf s2) ->
    position (skipWhitespace (mkLexer buf s1)) <= pos ->
    JSON_parse (slice buf s1 pos) = JSON_parse (slice buf s2 pos).

(** The document with Alice and Bob cut inside a key, inside an element
    and inside a number. *)
Definition three_cuts : list jsstring :=
  [json "{'results':[{'id':1,'na"; json "me':'Alice'},{'id"; json "':2,'name':'Bob'}]}"].

(** While an element is being collected, the text at the recorded start
    begins (after whitespace) with the opening brace of the element, and
    the cursor is past that brace. *)
Definition startsAtBrace (p : StreamingJSONParser) : Prop :=
  match state p with
  | PARSING_ARRAY_ENTRY _ startPosition =>
      exists l1,
        nextToken (mkLexer (buffer (lexer p)) startPosition)
        = (Some begin_object, l1) /\
        position l1 <= position (lexer p)
  | _ => True
  end.

(* ================================================================== *)
(** * Concrete runs of the definitions *)
(* ================================================================== *)

Example tokens_braces : tokensOf (js "{}") = [begin_object; end_object].
Proof. reflexivity. Qed.

Example tokens_number : tokensOf (js "123,") = [number_token (numberOfZ 123); value_separator].
Proof. vm_compute. reflexivity. Qed.

Example tokens_string_escape :
  tokensOf (json "'hello\nworld' ") = [string_token (js "hello" ++ [10%N] ++ js "world")].
Proof. vm_compute. reflexivity. Qed.

Example tokens_partial_number : tokensOf (js "12") = [].
Proof. vm_compute. reflexivity. Qed.

Example tokens_minus : tokensOf (js "-5,") = [].
Proof. vm_compute. reflexivity. Qed.

Example tokens_unicode : tokensOf (json "'\u0041'B'") = [string_token (js "AB")].
Proof. vm_compute. reflexivity. Qed.

Example parser_array :
  Parser.parseFresh (js "[1,2]")
  = Some (Parser.Returns (JArray [JNumber (numberOfZ 1); JNumber (numberOfZ 2)])).
Proof. vm_compute. reflexivity. Qed.

Example parser_bare_number :
  Parser.parseFresh (js "123") = Some (Parser.Throws (js "Invalid JSON")).
Proof. vm_compute. reflexivity. Qed.

Example parser_object :
  Parser.parseFresh (json "{'a':1}") = Some (Parser.Throws (js "Invalid JSON")).
Proof. vm_compute. reflexivity. Qed.

Example JSON_parse_nested :
  JSON.JSON_parse (json " {'a' : [1, -2.50e1, true, null], 'b':{'c':'x\nyA'}} ")
  = Some (JObject [(js "a", JArray [JNumber (numberOfZ 1); JNumber (numberOfZ (-25));
                                    JBool true; JNull]);
                   (js "b", JObject [(js "c", JString (js "x" ++ [10%N] ++ js "yA"))])]).
Proof. vm_compute. reflexivity. Qed.

Example JSON_parse_rejects :
  map JSON.JSON_parse
    [json "{]}"; json "'\x'"; js "01"; js "1."; js "[1,]"; json "{'a':1,}";
     js "1 2"; js ""; json "{'a' 1}"; js "tru"; json "'\u00g0'"]
  = repeat None 11.
Proof. vm_compute. reflexivity. Qed.

Example Number_examples :
  map Number [js "123"; js "1e2"; js "2.50"; js "5e-3"; js "007"; js "1."; js "1.e2";
              js ""; js "-"; js "1e"; js "1e+"; js "."; js "1.2.3"]
  = [Some (mkNumber 123 0); Some (mkNumber 1 2); Some (mkNumber 25 (-1));
     Some (mkNumber 5 (-3)); Some (mkNumber 7 0); Some (mkNumber 1 0);
     Some (mkNumber 1 2); Some (mkNumber 0 0); None; None; None; None; None].
Proof. vm_compute. reflexivity. Qed.

Example run_two_results :
  option_map (fun p => (state p, events p)) (runModel [two_results])
  = Some (DONE, [onNewEntry alice; onNewEntry bob]).
Proof. vm_compute. reflexivity. Qed.

Example run_two_results_3 :
  option_map (fun p => (state p, events p)) (runModel (fragments 3 two_results))
  = Some (DONE, [onNewEntry alice; onNewEntry bob]).
Proof. vm_compute. reflexivity. Qed.

(* ================================================================== *)
(** * Properties of the tokenizer *)
(* ================================================================== *)

Lemma follows_refl l : follows l l.
Proof. split; auto. Qed.

Lemma follows_trans l1 l2 l3 : follows l1 l2 -> follows l2 l3 -> follows l1 l3.
Proof.
  intros [B1 P1] [B2 P2]. split; [congruence|].
  rewrite B1 in P2. lia.
Qed.

Lemma advances_follows l l' : advances l l' -> follows l l'.
Proof. intros (B & P). split; auto. Qed.

Lemma follows_advances l1 l2 l3 : follows l1 l2 -> advances l2 l3 -> advances l1 l3.
Proof.
  intros [B1 P1] (B2 & P2). split; [congruence|].
  rewrite B1 in P2. lia.
Qed.

Lemma advances_then_follows l1 l2 l3 : advances l1 l2 -> follows l2 l3 -> advances l1 l3.
Proof.
  intros (B1 & P1) [B2 P2]. split; [congruence|].
  rewrite B1 in P2. lia.
Qed.

Lemma follows_remaining l l' : follows l l' -> remaining l' <= remaining l.
Proof. intros [B P]. unfold remaining. rewrite B. lia. Qed.

Lemma advances_remaining l l' : advances l l' -> remaining l' < remaining l.
Proof. intros (B & P). unfold remaining. rewrite B. lia. Qed.

Lemma setPosition_same l : setPosition l (position l) = l.
Proof. destruct l; reflexivity. Qed.

Lemma nth_error_past (buf : jsstring) pos :
  length buf - pos = 0 -> nth_error buf pos = None.
Proof. intros H. apply nth_error_None. lia. Qed.

Lemma nth_error_within (buf : jsstring) pos c :
  nth_error buf pos = Some c -> pos < length buf.
Proof. intros H. apply nth_error_Some. congruence. Qed.

(** ** The step budgets do not cut the loops short *)

Lemma skipWhitespaceLoop_fuel buf : forall f1 f2 pos,
  length buf - pos <= f1 -> length buf - pos <= f2 ->
  skipWhitespaceLoop f1 buf pos = skipWhitespaceLoop f2 buf pos.
Proof.
  induction f1 as [|f1 IH]; intros f2 pos H1 H2.
  - destruct f2; simpl; [reflexivity|].
    rewrite nth_error_past by lia. reflexivity.
  - destruct f2; simpl.
    + rewrite nth_error_past by lia. reflexivity.
    + destruct (nth_error buf pos) eqn:E; [|reflexivity].
      destruct (isSpace c); [|reflexivity].
      apply IH; lia.
Qed.

Lemma readStringLoop_fuel buf : forall f1 f2 pos result,
  length buf - pos <= f1 -> length buf - pos <= f2 ->
  readStringLoop f1 buf pos result = readStringLoop f2 buf pos result.
Proof.
  induction f1 as [|f1 IH]; intros f2 pos result H1 H2.
  - destruct f2; simpl; [reflexivity|].
    rewrite nth_error_past by lia. reflexivity.
  - destruct f2; simpl.
    + rewrite nth_error_past by lia. reflexivity.
    + destruct (nth_error buf pos) eqn:E; [|reflexivity].
      repeat match goal with
             | |- context [match nth_error ?b ?p with _ => _ end] =>
                 destruct (nth_error b p)
             | |- context [if ?b then _ else _] => destruct b
             end; try reflexivity; apply IH; lia.
Qed.

Lemma readNumberLoop_fuel buf : forall f1 f2 pos hd dec ex,
  length buf - pos <= f1 -> length buf - pos <= f2 ->
  readNumberLoop f1 buf pos hd dec ex = readNumberLoop f2 buf pos hd dec ex.
Proof.
  induction f1 as [|f1 IH]; intros f2 pos hd dec ex H1 H2.
  - destruct f2; simpl; [reflexivity|].
    rewrite nth_error_past by lia. reflexivity.
  - destruct f2; simpl.
    + rewrite nth_error_past by lia. reflexivity.
    + destruct (nth_error buf pos) eqn:E; [|reflexivity].
      repeat match goal with
             | |- context [match nth_error ?b ?p with _ => _ end] =>
                 destruct (nth_error b p)
             | |- context [if ?b then _ else _] => destruct b
             end; try reflexivity; apply IH; lia.
Qed.

(** ** Where the loops leave the cursor *)

Lemma skipWhitespaceLoop_bounds buf : forall fuel pos,
  let r := skipWhitespaceLoop fuel buf pos in
  r = pos \/ (pos < r /\ r <= length buf).
Proof.
  induction fuel as [|fuel IH]; intros pos; simpl; [auto|].
  destruct (nth_error buf pos) eqn:E; [|auto].
  destruct (isSpace c); [|auto].
  apply nth_error_within in E.
  specialize (IH (pos + 1)). simpl in IH. lia.
Qed.

Lemma skipWhitespaceLoop_run buf : forall fuel pos i,
  pos <= i < skipWhitespaceLoop fuel buf pos ->
  exists c, nth_error buf i = Some c /\ isSpace c = true.
Proof.
  induction fuel as [|fuel IH]; intros pos i; simpl; [lia|].
  destruct (nth_error buf pos) eqn:E; [|lia].
  destruct (isSpace c) eqn:Sp; [|lia].
  intros H. destruct (Nat.eq_dec i pos) as [->|Hne].
  - exists c. auto.
  - apply (IH (pos + 1)). lia.
Qed.

Lemma skipWhitespace_follows l : follows l (skipWhitespace l).
Proof.
  split; [reflexivity|]. simpl.
  apply skipWhitespaceLoop_bounds.
Qed.

Lemma readStringLoop_bounds buf : forall fuel pos result r p,
  readStringLoop fuel buf pos result = Some (r, p) ->
  pos < p /\ p <= length buf.
Proof.
  induction fuel as [|fuel IH]; intros pos result r p; simpl; [discriminate|].
  destruct (nth_error buf pos) eqn:E; [|discriminate].
  apply nth_error_within in E.
  repeat match goal with
         | |- context [match nth_error ?b ?q with _ => _ end] =>
             destruct (nth_error b q)
         | |- context [if ?b then _ else _] => destruct b
         end; try discriminate;
    try (intros H; apply IH in H; lia).
  all: intros [= <- <-]; lia.
Qed.

Lemma readNumberLoop_bounds buf : forall fuel pos hd dec ex p hd',
  readNumberLoop fuel buf pos hd dec ex = (p, hd') ->
  (p = pos /\ hd' = hd) \/ (pos < p /\ p <= length buf).
Proof.
  induction fuel as [|fuel IH]; intros pos hd dec ex p hd'; simpl.
  - intros [= <- <-]. auto.
  - destruct (nth_error buf pos) eqn:E; [|intros [= <- <-]; auto].
    apply nth_error_within in E.
    destruct (nth_error buf (pos + 1)) eqn:E1;
      [apply nth_error_within in E1|];
      repeat match goal with
             | |- context [if ?b then _ else _] => destruct b
             end;
      try (intros [= <- <-]; auto);
      intros H; apply IH in H; lia.
Qed.

Lemma jsstring_eqb_eq a : forall b, jsstring_eqb a b = true -> a = b.
Proof.
  induction a as [|x a IH]; intros [|y b]; simpl; try discriminate; [reflexivity|].
  intros H. apply andb_true_iff in H as [H1 H2].
  apply N.eqb_eq in H1. f_equal; auto.
Qed.

Lemma startsWith_bounds l s :
  s <> [] -> startsWith l s = true ->
  position l + length s <= length (buffer l).
Proof.
  unfold startsWith, slice. intros Hs H.
  apply jsstring_eqb_eq in H.
  apply (f_equal (@length _)) in H.
  rewrite length_firstn, length_skipn in H.
  destruct s; [congruence|]. simpl in *. lia.
Qed.

(** ** One call of [nextToken] *)

Lemma readString_success l t l' :
  readString l = (Some t, l') -> advances l l'.
Proof.
  unfold readString.
  destruct (readStringLoop _ _ _ _) as [[r p]|] eqn:E; [|discriminate].
  intros [= <- <-]. apply readStringLoop_bounds in E.
  split; [reflexivity|]. simpl. lia.
Qed.

Lemma readString_failure l l' :
  readString l = (None, l') -> l' = l.
Proof.
  unfold readString.
  destruct (readStringLoop _ _ _ _) as [[r p]|] eqn:E; [discriminate|].
  intros [= <-]. apply setPosition_same.
Qed.

Lemma readNumber_success l t l' :
  readNumber l = (Some t, l') -> advances l l'.
Proof.
  unfold readNumber.
  destruct (readNumberLoop _ _ _ _ _ _) as [p hd] eqn:E.
  apply readNumberLoop_bounds in E.
  destruct (p =? length (buffer l)); [discriminate|].
  destruct hd; simpl; [|discriminate].
  destruct (Number _); [|discriminate].
  intros [= <- <-]. split; [reflexivity|]. simpl.
  destruct E as [[_ E]|E]; [discriminate|lia].
Qed.

Lemma readNumber_failure l l' :
  readNumber l = (None, l') -> l' = l.
Proof.
  unfold readNumber.
  destruct (readNumberLoop _ _ _ _ _ _) as [p hd] eqn:E.
  destruct (p =? length (buffer l)); [intros [= <-]; apply setPosition_same|].
  destruct hd; simpl; [|intros [= <-]; apply setPosition_same].
  destruct (Number _); [discriminate|].
  intros [= <-]. apply setPosition_same.
Qed.

Ltac nextToken_cases l1 E :=
  unfold nextToken; cbv zeta;
  match goal with
  | |- context [skipWhitespace ?l] =>
      remember (skipWhitespace l) as l1 eqn:Hl1
  end;
  destruct (nth_error (buffer l1) (position l1)) eqn:E;
  repeat match goal with
         | |- context [if N.eqb ?c ?d then _ else _] =>
             destruct (N.eqb c d) eqn:?
         | |- context [if ?b then _ else _] => destruct b eqn:?
         end.

Lemma nextToken_failure l l' :
  nextToken l = (None, l') -> l' = skipWhitespace l.
Proof.
  nextToken_cases l1 E; try discriminate;
    try (intros [= <-]; reflexivity);
    intros H; first [apply readString_failure in H | apply readNumber_failure in H];
    assumption.
Qed.

Lemma nextToken_success l t l' :
  nextToken l = (Some t, l') -> advances l l'.
Proof.
  pose proof (skipWhitespace_follows l) as F.
  nextToken_cases l1 E; try discriminate;
    try (intros H;
         first [apply readString_success in H | apply readNumber_success in H];
         eapply follows_advances; eassumption);
    intros [= <- <-]; eapply follows_advances; try eassumption;
    (split; [reflexivity|]; simpl);
    try (apply nth_error_within in E; lia).
  all: match goal with
       | H : startsWith _ _ = true |- _ =>
           apply startsWith_bounds in H; [simpl in H; lia|discriminate]
       end.
Qed.

Lemma nextToken_follows l o l' :
  nextToken l = (o, l') -> follows l l'.
Proof.
  destruct o; intros H.
  - apply advances_follows. eapply nextToken_success; eassumption.
  - apply nextToken_failure in H. subst. apply skipWhitespace_follows.
Qed.

Lemma nth_error_middle (a : jsstring) x b :
  nth_error (a ++ x :: b) (length a) = Some x.
Proof. rewrite nth_error_app2, Nat.sub_diag by lia. reflexivity. Qed.

Lemma skipWhitespace_stays l :
  (forall c, nth_error (buffer l) (position l) = Some c -> isSpace c = false) ->
  skipWhitespace l = l.
Proof.
  intros H. unfold skipWhitespace.
  transitivity (setPosition l (position l)); [f_equal|apply setPosition_same].
  destruct (remaining l); simpl; [reflexivity|].
  destruct (nth_error (buffer l) (position l)) eqn:E; [|reflexivity].
  rewrite (H c eq_refl). reflexivity.
Qed.

(** C4 (amended).  When [nextToken] produces no token, the buffer is
    untouched and the cursor is left where the attempt began, which is
    the position reached by skipping the whitespace that leads from the
    cursor at the start of the call: every code unit the call has passed
    is whitespace, and a call that starts on a code unit that is not
    whitespace (or at the end of the buffer) leaves the cursor exactly
    where it was. *)
Theorem C4_failed_attempt_keeps_cursor_after_whitespace l l' :
  nextToken l = (None, l') ->
  l' = skipWhitespace l /\
  buffer l' = buffer l /\
  position l <= position l' /\
  (forall i, position l <= i < position l' ->
     exists c, nth_error (buffer l) i = Some c /\ isSpace c = true) /\
  ((forall c, nth_error (buffer l) (position l) = Some c -> isSpace c = false) ->
     position l' = position l).
Proof.
  intros H. apply nextToken_failure in H. subst l'.
  split; [reflexivity|]. split; [reflexivity|].
  pose proof (skipWhitespace_follows l) as [_ F].
  split; [lia|]. split.
  - intros i Hi. eapply skipWhitespaceLoop_run. exact Hi.
  - intros Hc. rewrite skipWhitespace_stays by assumption. reflexivity.
Qed.

Lemma C4_witness :
  let l := mkLexer (json "  'abc") 0 in
  let l' := mkLexer (json "  'abc") 2 in
  nextToken l = (None, l') /\
  l' = skipWhitespace l /\
  buffer l' = buffer l /\
  position l <= position l' /\
  (forall i, position l <= i < position l' ->
     exists c, nth_error (buffer l) i = Some c /\ isSpace c = true) /\
  ((forall c, nth_error (buffer l) (position l) = Some c -> isSpace c = false) ->
     position l' = position l).
Proof.
  intros l l'.
  assert (H : nextToken l = (None, l')) by (vm_compute; reflexivity).
  split; [exact H|].
  exact (C4_failed_attempt_keeps_cursor_after_whitespace l H).
Defined.

(** C4, as stated, fails: on a buffer of two spaces and an unterminated
    string, with the cursor at 0, [nextToken] returns no token and leaves
    the cursor at 2. *)
Lemma C4_counterexample :
  nextToken (mkLexer (json "  'abc") 0) = (None, mkLexer (json "  'abc") 2)
  /\ position (mkLexer (json "  'abc") 2) <> position (mkLexer (json "  'abc") 0).
Proof. split; [vm_compute; reflexivity|simpl; lia]. Qed.

Lemma nextToken_minus l :
  nth_error (buffer l) (position l) = Some (ch "-") ->
  nextToken l = (None, l).
Proof.
  intros E.
  unfold nextToken. cbv zeta.
  rewrite skipWhitespace_stays
    by (intros c Hc; rewrite E in Hc; injection Hc as <-; reflexivity).
  rewrite E.
  change (N.eqb (ch "-") (ch "{")) with false.
  change (N.eqb (ch "-") (ch "}")) with false.
  change (N.eqb (ch "-") (ch "[")) with false.
  change (N.eqb (ch "-") (ch "]")) with false.
  change (N.eqb (ch "-") (ch ":")) with false.
  change (N.eqb (ch "-") (ch ",")) with false.
  change (N.eqb (ch "-") c_quote) with false.
  change (N.eqb (ch "-") (ch "-")) with true.
  cbv iota. rewrite orb_true_l.
  unfold readNumber.
  pose proof (nth_error_within _ _ E) as W.
  destruct (remaining l) as [|k] eqn:R; [unfold remaining in R; lia|].
  unfold readNumberLoop. rewrite E.
  change (isDigit (ch "-")) with false.
  change (N.eqb (ch "-") (ch ".")) with false.
  change (N.eqb (ch "-") (ch "e")) with false.
  change (N.eqb (ch "-") (ch "E")) with false.
  cbn [andb orb negb].
  replace (position l =? length (buffer l)) with false
    by (symmetry; apply Nat.eqb_neq; lia).
  rewrite setPosition_same. reflexivity.
Qed.

(** C7.  A numeric run with a leading minus never yields a number token:
    whatever follows the minus sign (so also a complete number and its
    terminator, as in the three code units of minus five and a comma),
    [nextToken] returns no token and leaves the cursor on the minus sign.
    [readNumber] is entered on a minus sign but its loop has no case for
    it. *)
Theorem C7_leading_minus_yields_no_token (front rest : jsstring) :
  nextToken (mkLexer (front ++ ch "-" :: rest) (length front))
  = (None, mkLexer (front ++ ch "-" :: rest) (length front)).
Proof. apply nextToken_minus. apply nth_error_middle. Qed.

(** ** The loop of [readString], one code unit at a time *)

Lemma readStringLoop_plain buf pos c fuel result :
  nth_error buf pos = Some c ->
  c <> c_quote -> c <> c_backslash ->
  length buf - pos <= fuel ->
  readStringLoop fuel buf pos result
  = readStringLoop (length buf - (pos + 1)) buf (pos + 1) (result ++ [c]).
Proof.
  intros E Hq Hb Hf.
  pose proof (nth_error_within _ _ E) as W.
  destruct fuel as [|fuel]; [lia|].
  simpl. rewrite E.
  apply N.eqb_neq in Hq, Hb. rewrite Hq, Hb.
  apply readStringLoop_fuel; lia.
Qed.

Lemma readStringLoop_quote buf pos fuel result :
  nth_error buf pos = Some c_quote ->
  length buf - pos <= fuel ->
  readStringLoop fuel buf pos result = Some (result, pos + 1).
Proof.
  intros E Hf.
  pose proof (nth_error_within _ _ E) as W.
  destruct fuel as [|fuel]; [lia|].
  simpl. rewrite E. reflexivity.
Qed.

Lemma readStringLoop_escape buf pos c fuel result :
  nth_error buf pos = Some c_backslash ->
  nth_error buf (pos + 1) = Some c ->
  c <> ch "u" ->
  length buf - pos <= fuel ->
  readStringLoop fuel buf pos result
  = readStringLoop (length buf - (pos + 2)) buf (pos + 2) (result ++ [escapeOf c]).
Proof.
  intros E E1 Hc Hf.
  pose proof (nth_error_within _ _ E) as W.
  destruct fuel as [|fuel]; [lia|].
  cbn [readStringLoop]. rewrite E, E1.
  change (N.eqb c_backslash c_backslash) with true. cbv iota.
  apply N.eqb_neq in Hc. unfold escapeOf.
  repeat match goal with
         | |- context [N.eqb c ?d] => destruct (N.eqb c d) eqn:?
         end;
    try discriminate; apply readStringLoop_fuel; lia.
Qed.

Lemma escapeOf_other c :
  ~ In c [ch "n"; c_quote; c_backslash; ch "b"; ch "f"; ch "r"; ch "t"; ch "u"] ->
  escapeOf c = c /\ c <> ch "u".
Proof.
  intros Hc. split.
  - unfold escapeOf.
    repeat match goal with
           | |- context [N.eqb c ?d] =>
               let H := fresh in
               destruct (N.eqb c d) eqn:H;
               [apply N.eqb_eq in H; exfalso; apply Hc; rewrite H; simpl; tauto|]
           end.
    reflexivity.
  - intros ->. apply Hc. simpl. tauto.
Qed.

Lemma readStringLoop_plain_run : forall pre a b fuel result,
  Forall (fun x => x <> c_quote /\ x <> c_backslash) pre ->
  length (pre ++ b) <= fuel ->
  readStringLoop fuel (a ++ pre ++ b) (length a) result
  = readStringLoop (length b) (a ++ pre ++ b) (length a + length pre)
      (result ++ pre).
Proof.
  induction pre as [|x pre IH]; intros a b fuel result Hp Hf.
  - simpl in *. rewrite Nat.add_0_r, app_nil_r.
    apply readStringLoop_fuel; rewrite length_app; lia.
  - inversion Hp as [|? ? [Hq Hb] Hp']; subst.
    rewrite (@readStringLoop_plain _ _ x);
      [|apply nth_error_middle|assumption|assumption
       |rewrite !length_app in *; simpl in *; lia].
    replace (a ++ (x :: pre) ++ b) with ((a ++ [x]) ++ pre ++ b)
      by (rewrite <- app_assoc; reflexivity).
    replace (length a + 1) with (length (a ++ [x]))
      by (rewrite length_app; reflexivity).
    rewrite IH; [|assumption|rewrite !length_app in *; simpl in *; lia].
    rewrite <- (app_assoc result [x] pre). simpl.
    f_equal. rewrite length_app. simpl. lia.
Qed.

Lemma nextToken_quote l :
  nth_error (buffer l) (position l) = Some c_quote ->
  nextToken l = readString l.
Proof.
  intros E. unfold nextToken. cbv zeta.
  rewrite skipWhitespace_stays
    by (intros c Hc; rewrite E in Hc; injection Hc as <-; reflexivity).
  rewrite E. reflexivity.
Qed.

Ltac list_length :=
  repeat first [rewrite length_app | progress cbn [length]]; try lia.

(** A string that holds an escape other than u among plain characters is
    one string token, with the escape replaced by what the [switch] appends
    for it. *)
Lemma nextToken_string_with_escape (front pre post rest : jsstring) (c : char) :
  c <> ch "u" ->
  Forall (fun x => x <> c_quote /\ x <> c_backslash) pre ->
  Forall (fun x => x <> c_quote /\ x <> c_backslash) post ->
  let buf := front ++ c_quote :: pre ++ c_backslash :: c :: post ++ c_quote :: rest in
  nextToken (mkLexer buf (length front))
  = (Some (string_token (pre ++ escapeOf c :: post)),
     mkLexer buf (length front + length pre + length post + 4)).
Proof.
  intros Hc Hpre Hpost buf.
  rewrite nextToken_quote by apply nth_error_middle.
  unfold readString, remaining. cbn [buffer position].
  assert (Hlen : length buf
                 = length front + length pre + length post + length rest + 4)
    by (unfold buf; list_length).
  (* the plain characters before the escape *)
  assert (B1 : buf = (front ++ [c_quote]) ++ pre
                     ++ (c_backslash :: c :: post ++ c_quote :: rest)).
  { unfold buf. repeat rewrite <- app_assoc. reflexivity. }
  replace (length front + 1) with (length (front ++ [c_quote])) by list_length.
  rewrite B1 at 2.
  rewrite readStringLoop_plain_run; [|assumption|rewrite Hlen; list_length].
  rewrite <- B1.
  (* the escape *)
  assert (B2 : buf = (front ++ c_quote :: pre) ++ c_backslash :: c
                     :: post ++ c_quote :: rest).
  { unfold buf. repeat rewrite <- app_assoc. reflexivity. }
  assert (B2' : buf = ((front ++ c_quote :: pre) ++ [c_backslash]) ++ c
                      :: post ++ c_quote :: rest).
  { unfold buf. repeat rewrite <- app_assoc. reflexivity. }
  replace (length (front ++ [c_quote]) + length pre)
    with (length (front ++ c_quote :: pre)) by list_length.
  rewrite (@readStringLoop_escape _ _ c);
    [|rewrite B2 at 1; apply nth_error_middle
     |replace (length (front ++ c_quote :: pre) + 1)
        with (length ((front ++ c_quote :: pre) ++ [c_backslash])) by list_length;
      rewrite B2' at 1; apply nth_error_middle
     |assumption
     |rewrite Hlen; list_length].
  (* the plain characters after it *)
  assert (B3 : buf = (front ++ c_quote :: pre ++ [c_backslash; c]) ++ post
                     ++ (c_quote :: rest)).
  { unfold buf. repeat rewrite <- app_assoc. simpl. repeat rewrite <- app_assoc. reflexivity. }
  replace (length (front ++ c_quote :: pre) + 2)
    with (length (front ++ c_quote :: pre ++ [c_backslash; c])) by list_length.
  rewrite B3 at 2.
  rewrite readStringLoop_plain_run; [|assumption|list_length].
  rewrite <- B3.
  (* the closing quote *)
  assert (B4 : buf = (front ++ c_quote :: pre ++ c_backslash :: c :: post)
                     ++ c_quote :: rest).
  { unfold buf. repeat rewrite <- app_assoc. simpl. repeat rewrite <- app_assoc. reflexivity. }
  replace (length (front ++ c_quote :: pre ++ [c_backslash; c]) + length post)
    with (length (front ++ c_quote :: pre ++ c_backslash :: c :: post))
    by list_length.
  rewrite readStringLoop_quote;
    [|rewrite B4 at 1; apply nth_error_middle|list_length].
  unfold setPosition. cbn [buffer]. f_equal; [|f_equal].
  - simpl. rewrite <- app_assoc. reflexivity.
  - list_length.
Qed.

(** ** The loop of [readNumber] seen from the text at the cursor *)

Lemma readNumberLoop_numberRun : forall fuel s a hd dec ex,
  length s <= fuel ->
  readNumberLoop fuel (a ++ s) (length a) hd dec ex
  = (length a + fst (numberRun s hd dec ex), snd (numberRun s hd dec ex)).
Proof.
  induction fuel as [|fuel IH]; intros s a hd dec ex Hf.
  - destruct s; [|simpl in Hf; lia]. simpl. rewrite Nat.add_0_r. reflexivity.
  - destruct s as [|c s'].
    + simpl. rewrite nth_error_past by (rewrite app_nil_r; lia).
      rewrite Nat.add_0_r. reflexivity.
    + assert (A1 : a ++ c :: s' = (a ++ [c]) ++ s')
        by (rewrite <- app_assoc; reflexivity).
      assert (L1 : length a + 1 = length (a ++ [c])) by list_length.
      cbn [readNumberLoop numberRun]. rewrite nth_error_middle.
      destruct (isDigit c).
      { rewrite A1, L1, IH by (simpl in *; lia).
        destruct (numberRun s' true dec ex). simpl. f_equal. list_length. }
      destruct (N.eqb c (ch ".") && negb dec && negb ex).
      { rewrite A1, L1, IH by (simpl in *; lia).
        destruct (numberRun s' hd true ex). simpl. f_equal. list_length. }
      destruct ((N.eqb c (ch "e") || N.eqb c (ch "E")) && negb ex && hd);
        [|simpl; rewrite Nat.add_0_r; reflexivity].
      destruct s' as [|g s''].
      { rewrite nth_error_past by (list_length).
        rewrite A1, L1, IH by (simpl; lia). simpl. f_equal. list_length. }
      assert (G : nth_error (a ++ c :: g :: s'') (length a + 1) = Some g).
      { rewrite A1, L1. apply nth_error_middle. }
      rewrite G.
      destruct (N.eqb g (ch "+") || N.eqb g (ch "-")).
      * replace (a ++ c :: g :: s'') with ((a ++ [c; g]) ++ s'')
          by (rewrite <- app_assoc; reflexivity).
        replace (length a + 1 + 1) with (length (a ++ [c; g])) by list_length.
        rewrite IH by (simpl in *; lia).
        destruct (numberRun s'' false dec true). simpl. f_equal. list_length.
      * rewrite A1, L1, IH by (simpl in *; lia).
        destruct (numberRun (g :: s'') false dec true). simpl. f_equal. list_length.
Qed.

Lemma numberRun_digits : forall ds r hd dec ex,
  Forall (fun c => isDigit c = true) ds ->
  numberRun (ds ++ r) hd dec ex
  = (length ds + fst (numberRun r (match ds with [] => hd | _ => true end) dec ex),
     snd (numberRun r (match ds with [] => hd | _ => true end) dec ex)).
Proof.
  induction ds as [|d ds IH]; intros r hd dec ex Hd.
  - simpl. destruct (numberRun r hd dec ex); reflexivity.
  - inversion Hd as [|? ? Hd1 Hd2]; subst.
    cbn [app numberRun]. rewrite Hd1, IH by assumption.
    destruct ds; reflexivity.
Qed.

Lemma slice_middle (a s : jsstring) n :
  slice (a ++ s) (length a) (length a + n) = firstn n s.
Proof.
  unfold slice. replace (length a + n - length a) with n by lia.
  rewrite skipn_app, Nat.sub_diag, skipn_all. reflexivity.
Qed.

(** [readNumber] in terms of the text at the cursor. *)
Lemma readNumber_numberRun (a s : jsstring) :
  let l := mkLexer (a ++ s) (length a) in
  readNumber l
  = let '(n, h) := numberRun s false false false in
    if n =? length s then (None, l)
    else if negb h then (None, l)
    else match Number (firstn n s) with
         | None => (None, l)
         | Some num => (Some (number_token num), mkLexer (a ++ s) (length a + n))
         end.
Proof.
  intros l. unfold readNumber, remaining, setPosition. cbn [buffer position l].
  rewrite readNumberLoop_numberRun by list_length.
  destruct (numberRun s false false false) as [n h]. cbn [fst snd].
  rewrite slice_middle.
  replace (length a + n =? length (a ++ s)) with (n =? length s); [reflexivity|].
  rewrite length_app.
  destruct (Nat.eqb_spec n (length s)), (Nat.eqb_spec (length a + n) (length a + length s));
    try reflexivity; lia.
Qed.

Lemma skipWhitespaceLoop_spaces : forall ws a b fuel,
  Forall (fun c => isSpace c = true) ws ->
  (forall c, nth_error b 0 = Some c -> isSpace c = false) ->
  length ws <= fuel ->
  skipWhitespaceLoop fuel (a ++ ws ++ b) (length a) = length a + length ws.
Proof.
  induction ws as [|w ws IH]; intros a b fuel Hws Hb Hf.
  - simpl. rewrite Nat.add_0_r. destruct fuel; simpl; [reflexivity|].
    rewrite nth_error_app2, Nat.sub_diag by lia.
    destruct (nth_error b 0) eqn:E; [|reflexivity].
    rewrite (Hb c eq_refl). reflexivity.
  - inversion Hws as [|? ? Hw Hws']; subst.
    destruct fuel as [|fuel]; [simpl in Hf; lia|].
    cbn [skipWhitespaceLoop app]. rewrite nth_error_middle, Hw.
    replace (a ++ w :: ws ++ b) with ((a ++ [w]) ++ ws ++ b)
      by (rewrite <- app_assoc; reflexivity).
    replace (length a + 1) with (length (a ++ [w])) by list_length.
    rewrite IH; [list_length|assumption|assumption|simpl in Hf; lia].
Qed.

Lemma nextToken_after_spaces (ws s : jsstring) :
  Forall (fun c => isSpace c = true) ws ->
  (forall c, nth_error s 0 = Some c -> isSpace c = false) ->
  nextToken (mkLexer (ws ++ s) 0) = nextToken (mkLexer (ws ++ s) (length ws)).
Proof.
  intros Hws Hs.
  assert (S1 : skipWhitespace (mkLexer (ws ++ s) 0) = mkLexer (ws ++ s) (length ws)).
  { unfold skipWhitespace, setPosition, remaining. cbn [buffer position]. f_equal.
    apply (@skipWhitespaceLoop_spaces ws [] s); [assumption|assumption|list_length]. }
  assert (S2 : skipWhitespace (mkLexer (ws ++ s) (length ws))
               = mkLexer (ws ++ s) (length ws)).
  { apply skipWhitespace_stays. cbn [buffer position].
    rewrite nth_error_app2, Nat.sub_diag by lia. assumption. }
  unfold nextToken. cbv zeta. rewrite S1, S2. reflexivity.
Qed.

Lemma isDigit_not (c d : char) :
  isDigit c = true -> isDigit d = false -> N.eqb c d = false.
Proof.
  intros Hc Hd. destruct (N.eqb_spec c d); [congruence|reflexivity].
Qed.

Lemma isDigit_not_space c : isDigit c = true -> isSpace c = false.
Proof.
  unfold isDigit, isSpace. intros H.
  apply andb_true_iff in H as [H1 H2].
  apply N.leb_le in H1, H2.
  assert (E1 : (c <=? 13)%N = false) by (apply N.leb_gt; lia).
  assert (E2 : (8192 <=? c)%N = false) by (apply N.leb_gt; lia).
  rewrite E1, E2, andb_false_r. cbn [andb orb].
  repeat match goal with
         | |- context [N.eqb c ?k] =>
             replace (N.eqb c k) with false by (symmetry; apply N.eqb_neq; lia)
         end.
  reflexivity.
Qed.

Lemma nextToken_digit l c :
  nth_error (buffer l) (position l) = Some c ->
  isDigit c = true ->
  nextToken l = readNumber l.
Proof.
  intros E Hd. unfold nextToken. cbv zeta.
  rewrite skipWhitespace_stays
    by (intros c' Hc; rewrite E in Hc; injection Hc as <-;
        apply isDigit_not_space; assumption).
  rewrite E, Hd.
  rewrite !(@isDigit_not c) by (assumption || reflexivity).
  rewrite orb_true_r. reflexivity.
Qed.

(** ** Number literals *)

Lemma numberRun_stop c rest hd dec ex :
  endsNumber c -> numberRun (c :: rest) hd dec ex = (0, hd).
Proof.
  intros (Hd & Hp & He & HE). cbn [numberRun]. rewrite Hd.
  apply N.eqb_neq in Hp, He, HE. rewrite Hp, He, HE. reflexivity.
Qed.

Lemma numberRun_digits_end ds r dec ex hd :
  isDigits ds ->
  (forall h d e, numberRun r h d e = (0, h)) ->
  numberRun (ds ++ r) hd dec ex = (length ds, true).
Proof.
  intros [Hne Hd] Hr.
  rewrite numberRun_digits by assumption.
  destruct ds; [congruence|]. rewrite Hr. cbn [fst snd].
  rewrite Nat.add_0_r. reflexivity.
Qed.

Lemma numberRun_exponent_step e s' dec :
  e = ch "e" \/ e = ch "E" ->
  numberRun (e :: s') true dec false
  = match s' with
    | g :: s'' =>
        if N.eqb g (ch "+") || N.eqb g (ch "-") then
          let '(n, h) := numberRun s'' false dec true in (S (S n), h)
        else
          let '(n, h) := numberRun s' false dec true in (S n, h)
    | [] => (1, false)
    end.
Proof. intros [->| ->]; destruct dec; reflexivity. Qed.

Lemma numberRun_exponent exp r dec :
  isExponent exp ->
  (forall h d e, numberRun r h d e = (0, h)) ->
  numberRun (exp ++ r) true dec false = (length exp, true).
Proof.
  intros [->|(e & sign & ds & He & Hs & Hd & ->)] Hr; [apply Hr|].
  assert (R : forall hd, numberRun (ds ++ r) hd dec true = (length ds, true))
    by (intros; apply numberRun_digits_end; assumption).
  cbn [app]. rewrite numberRun_exponent_step by assumption.
  destruct Hs as [->|[->| ->]].
  - destruct Hd as [Hne Hd]. destruct ds as [|d ds]; [congruence|].
    inversion Hd as [|? ? Hd1 _]; subst.
    cbn [app] in *.
    rewrite !(@isDigit_not d) by (assumption || reflexivity).
    cbn [orb]. rewrite R. reflexivity.
  - cbn [app]. change (N.eqb (ch "+") (ch "+")) with true. cbn [orb].
    rewrite R. reflexivity.
  - cbn [app]. change (N.eqb (ch "-") (ch "-")) with true.
    rewrite orb_true_r. rewrite R. reflexivity.
Qed.

Lemma numberRun_unsigned_literal int frac exp r :
  isDigits int -> isFraction frac -> isExponent exp ->
  (forall h d e, numberRun r h d e = (0, h)) ->
  numberRun ((int ++ frac ++ exp) ++ r) false false false
  = (length (int ++ frac ++ exp), true).
Proof.
  intros [Hne Hi] Hf He Hr.
  rewrite <- !app_assoc.
  rewrite numberRun_digits by assumption.
  destruct int as [|i int]; [congruence|].
  destruct Hf as [->|(ds & [Hdne Hd] & ->)].
  - cbn [app]. rewrite numberRun_exponent by assumption.
    cbn [fst snd]. f_equal. list_length.
  - cbn [app numberRun]. change (isDigit (ch ".")) with false. cbv iota.
    rewrite N.eqb_refl. cbn [andb negb].
    rewrite numberRun_digits by assumption.
    destruct ds as [|d ds]; [congruence|].
    rewrite numberRun_exponent by assumption.
    cbn [fst snd]. f_equal. list_length.
Qed.

Lemma nextToken_number_at_end (ws num : jsstring) :
  Forall (fun c => isSpace c = true) ws ->
  NumberLiteral num ->
  nextToken (mkLexer (ws ++ num) 0) = (None, mkLexer (ws ++ num) (length ws)).
Proof.
  intros Hws Hnum.
  destruct Hnum as [minus int frac exp Hm Hi Hz Hf He].
  pose proof Hi as [Hne Hi']. destruct int as [|i int]; [congruence|].
  inversion Hi' as [|? ? Hi1 Hi2]; subst.
  destruct Hm as [->| ->].
  - rewrite nextToken_after_spaces;
      [|assumption
       |simpl; intros c [= <-]; apply isDigit_not_space; assumption].
    rewrite (@nextToken_digit _ i);
      [|simpl; apply nth_error_middle|assumption].
    cbn [app]. change (i :: int ++ frac ++ exp) with ((i :: int) ++ frac ++ exp).
    rewrite readNumber_numberRun.
    rewrite <- (app_nil_r ((i :: int) ++ frac ++ exp)) at 1.
    rewrite numberRun_unsigned_literal by (assumption || reflexivity).
    rewrite Nat.eqb_refl. reflexivity.
  - rewrite nextToken_after_spaces;
      [|assumption|simpl; intros c [= <-]; reflexivity].
    apply nextToken_minus. simpl. apply nth_error_middle.
Qed.

(** ** A number that is followed by another character *)

Lemma takeDigits_app ds r :
  Forall (fun c => isDigit c = true) ds ->
  (forall c, nth_error r 0 = Some c -> isDigit c = false) ->
  takeDigits (ds ++ r) = (ds, r).
Proof.
  intros Hd Hr. induction Hd as [|d ds Hd1 _ IH].
  - destruct r as [|c r]; [reflexivity|].
    cbn [app takeDigits]. rewrite (Hr c eq_refl). reflexivity.
  - cbn [app takeDigits]. rewrite Hd1, IH. reflexivity.
Qed.

Lemma exponent_head exp c :
  isExponent exp -> nth_error exp 0 = Some c -> isDigit c = false.
Proof.
  intros [->|(e & sign & ds & [->| ->] & _ & _ & ->)]; simpl;
    intros [= <-]; reflexivity.
Qed.

Lemma fraction_head frac exp c :
  isFraction frac -> isExponent exp ->
  nth_error (frac ++ exp) 0 = Some c -> isDigit c = false.
Proof.
  intros [->|(ds & _ & ->)] He.
  - apply exponent_head. exact He.
  - simpl. intros [= <-]. reflexivity.
Qed.

Lemma exponentPart_defined digits m e exp :
  isExponent exp -> exists value, exponentPart digits m e exp = Some value.
Proof.
  intros [->|(e0 & sign & ds & He0 & Hs & [Hdne Hd] & ->)]; [simpl; eauto|].
  assert (T : takeDigits ds = (ds, [])).
  { rewrite <- (app_nil_r ds) at 1. apply takeDigits_app; [assumption|].
    intros c; discriminate. }
  unfold exponentPart.
  replace (N.eqb e0 (ch "e") || N.eqb e0 (ch "E")) with true
    by (destruct He0 as [->| ->]; reflexivity).
  destruct ds as [|d ds]; [congruence|].
  inversion Hd as [|? ? Hd1 _]; subst.
  destruct Hs as [->|[->| ->]]; unfold takeSign; cbn [app].
  - rewrite !(@isDigit_not d) by (assumption || reflexivity).
    rewrite T. eauto.
  - change (N.eqb (ch "+") (ch "-")) with false.
    change (N.eqb (ch "+") (ch "+")) with true. cbv iota.
    rewrite T. eauto.
  - change (N.eqb (ch "-") (ch "-")) with true. cbv iota.
    rewrite T. eauto.
Qed.

(** [Number] is defined on every unsigned number literal: the [isNaN]
    branch of [readNumber] is dead. *)
Lemma Number_unsigned_literal int frac exp :
  isDigits int -> isFraction frac -> isExponent exp ->
  exists value, Number (int ++ frac ++ exp) = Some value.
Proof.
  intros [Hne Hi] Hf He.
  destruct int as [|i int]; [congruence|].
  inversion Hi as [|? ? Hi1 _]; subst.
  unfold Number, takeSign. cbn [app].
  rewrite !(@isDigit_not i) by (assumption || reflexivity).
  change (i :: int ++ frac ++ exp) with ((i :: int) ++ frac ++ exp).
  rewrite (takeDigits_app _ Hi (fun c => @fraction_head frac exp c Hf He)).
  destruct Hf as [->|(ds & [Hdne Hd] & ->)].
  - cbn [app]. destruct exp as [|c exp'].
    + cbn [app]. apply exponentPart_defined. left. reflexivity.
    + replace (N.eqb c (ch ".")) with false.
      * cbn [app]. apply exponentPart_defined. exact He.
      * symmetry. apply N.eqb_neq. intros ->.
        destruct He as [[=]|(e0 & sign & ds' & [->| ->] & _ & _ & [=])].
  - cbn [app]. rewrite N.eqb_refl.
    rewrite (takeDigits_app _ Hd (fun c => @exponent_head exp c He)).
    cbn [app]. apply exponentPart_defined. exact He.
Qed.

(** An unsigned number literal at the cursor, followed by a code unit
    that ends it, is read as one number token whose value is [Number] of
    the literal; with the cursor after the literal. *)
Lemma nextToken_unsigned_number (front int frac exp rest : jsstring) (c : char) :
  isDigits int -> isFraction frac -> isExponent exp -> endsNumber c ->
  exists value,
    Number (int ++ frac ++ exp) = Some value /\
    nextToken (mkLexer (front ++ (int ++ frac ++ exp) ++ c :: rest) (length front))
    = (Some (number_token value),
       mkLexer (front ++ (int ++ frac ++ exp) ++ c :: rest)
               (length front + length (int ++ frac ++ exp))).
Proof.
  intros Hi Hf He Hc.
  destruct (Number_unsigned_literal Hi Hf He) as [value Hv].
  exists value. split; [exact Hv|].
  pose proof Hi as [Hne Hi']. destruct int as [|i int]; [congruence|].
  inversion Hi' as [|? ? Hi1 _]; subst.
  rewrite (@nextToken_digit _ i);
    [|cbn [buffer position app]; apply nth_error_middle|assumption].
  rewrite readNumber_numberRun.
  rewrite numberRun_unsigned_literal;
    [|assumption..|intros; apply numberRun_stop; assumption].
  replace (length ((i :: int) ++ frac ++ exp)
           =? length (((i :: int) ++ frac ++ exp) ++ c :: rest)) with false
    by (symmetry; apply Nat.eqb_neq; rewrite (length_app _ (c :: rest)); simpl; lia).
  cbn [negb].
  rewrite firstn_app, Nat.sub_diag, firstn_all, firstn_O, app_nil_r, Hv.
  reflexivity.
Qed.

Lemma descentFuel_S l : descentFuel l = S (3 * remaining l).
Proof. unfold descentFuel. lia. Qed.

Lemma Parser_parse_no_token input l' :
  nextToken (mkLexer input 0) = (None, l') ->
  Parser.parseFresh input = Some (Parser.Throws (js "Invalid JSON")).
Proof.
  intros H. unfold Parser.parseFresh, Parser.parse, addChunk, newLexer.
  cbn [buffer position app]. rewrite descentFuel_S.
  cbn [Parser.parseValue]. unfold bind, Parser.nextSignificantToken.
  rewrite H. reflexivity.
Qed.

Lemma readString_token l t l' :
  readString l = (Some t, l') -> exists value, t = string_token value.
Proof.
  unfold readString.
  destruct (readStringLoop _ _ _ _) as [[r p]|]; [|discriminate].
  intros [= <- _]. eauto.
Qed.

Lemma readNumber_token_inside l t l' :
  readNumber l = (Some t, l') -> position l' < length (buffer l).
Proof.
  unfold readNumber.
  destruct (readNumberLoop _ _ _ _ _ _) as [p hd] eqn:E.
  apply readNumberLoop_bounds in E.
  destruct (Nat.eqb_spec p (length (buffer l))); [discriminate|].
  destruct hd; cbn [negb]; [|discriminate].
  destruct (Number _); [|discriminate].
  intros [= _ <-]. cbn [position setPosition].
  destruct E as [[_ E]|E]; [discriminate|lia].
Qed.

(** A number token never ends where the buffer ends. *)
Lemma nextToken_number_inside l value l' :
  nextToken l = (Some (number_token value), l') ->
  position l' < length (buffer l).
Proof.
  nextToken_cases l1 E; try discriminate.
  - intros H. apply readString_token in H as [s H]. discriminate H.
  - intros H. apply readNumber_token_inside in H.
    rewrite Hl1 in H. exact H.
Qed.

(** C9.  A fresh one-shot parser given a number literal of JSON, with or
    without whitespace before it, throws the error Invalid JSON instead of
    returning the number: the literal ends where the buffer ends, so the
    lexer returns no token for it and leaves the cursor at its start, as it
    does for every number: no number token ends where the buffer ends.  (A
    valid document whose last character belongs to a number is such a bare
    number.) *)
Theorem C9_bare_number_is_rejected (ws num : jsstring) :
  Forall (fun c => isSpace c = true) ws ->
  NumberLiteral num ->
  Parser.parseFresh (ws ++ num) = Some (Parser.Throws (js "Invalid JSON"))
  /\ nextToken (mkLexer (ws ++ num) 0) = (None, mkLexer (ws ++ num) (length ws))
  /\ (forall l value l',
        nextToken l = (Some (number_token value), l') ->
        position l' < length (buffer l)).
Proof.
  intros Hws Hnum.
  pose proof (nextToken_number_at_end Hws Hnum) as H.
  split; [|split].
  - eapply Parser_parse_no_token. exact H.
  - exact H.
  - apply nextToken_number_inside.
Qed.

Lemma digits_12 : isDigits (js "12").
Proof. split; [discriminate|repeat constructor]. Qed.

Lemma digits_5 : isDigits (js "5").
Proof. split; [discriminate|repeat constructor]. Qed.

Lemma digits_3 : isDigits (js "3").
Proof. split; [discriminate|repeat constructor]. Qed.

Lemma literal_12_5e3 : NumberLiteral (js "12.5e+3").
Proof.
  apply (number_literal (minus := []) (int := js "12") (frac := js ".5")
           (exp := js "e+3")).
  - left. reflexivity.
  - exact digits_12.
  - right. discriminate.
  - right. exists (js "5"). split; [exact digits_5|reflexivity].
  - right. exists (ch "e"), (js "+"), (js "3").
    split; [left; reflexivity|]. split; [right; left; reflexivity|].
    split; [exact digits_3|reflexivity].
Qed.

Lemma C9_witness :
  Parser.parseFresh (js "  12.5e+3") = Some (Parser.Throws (js "Invalid JSON"))
  /\ nextToken (mkLexer (js "  12.5e+3") 0) = (None, mkLexer (js "  12.5e+3") 2)
  /\ (forall l value l',
        nextToken l = (Some (number_token value), l') ->
        position l' < length (buffer l)).
Proof.
  apply (@C9_bare_number_is_rejected (js "  ") (js "12.5e+3")).
  - repeat constructor.
  - exact literal_12_5e3.
Defined.

(* ================================================================== *)
(** * Properties of the recursive descent of the state machine *)
(* ================================================================== *)

Lemma runs_ret {A : Type} (a : A) l : runs (ret a) l.
Proof. exists a, l. split; [reflexivity|apply follows_refl]. Qed.

Lemma runs_bind {A B : Type} (m : M Lexer A) (k : A -> M Lexer B) l :
  runs m l ->
  (forall a l', m l = Some (a, l') -> follows l l' -> runs (k a) l') ->
  runs (bind m k) l.
Proof.
  intros (a & l1 & E & F) K.
  destruct (K a l1 E F) as (b & l2 & E2 & F2).
  exists b, l2. unfold bind. rewrite E. split; [assumption|].
  eapply follows_trans; eassumption.
Qed.

Lemma follows_same_position l l' :
  follows l l' -> setPosition l' (position l) = l.
Proof.
  intros [B _]. unfold setPosition. rewrite B. destruct l; reflexivity.
Qed.

Lemma nextSignificantToken_consume l :
  Streaming.nextSignificantToken false l = Some (nextToken l).
Proof.
  unfold Streaming.nextSignificantToken.
  destruct (nextToken l) as [o l']. reflexivity.
Qed.

Lemma nextSignificantToken_peek l :
  Streaming.nextSignificantToken true l
  = Some (fst (nextToken l),
          match fst (nextToken l) with
          | Some _ => l
          | None => skipWhitespace l
          end).
Proof.
  unfold Streaming.nextSignificantToken, getPosition.
  destruct (nextToken l) as [[t|] l'] eqn:E; cbn [fst isSome andb].
  - apply nextToken_follows in E. rewrite (follows_same_position E). reflexivity.
  - apply nextToken_failure in E. subst. reflexivity.
Qed.

Lemma nextSignificantToken_runs peek l :
  runs (Streaming.nextSignificantToken peek) l.
Proof.
  destruct peek.
  - unfold runs.
    rewrite nextSignificantToken_peek. do 2 eexists. split; [reflexivity|].
    destruct (fst (nextToken l)); [apply follows_refl|apply skipWhitespace_follows].
  - unfold runs. rewrite nextSignificantToken_consume.
    destruct (nextToken l) as [o l'] eqn:E.
    exists o, l'. split; [reflexivity|]. eapply nextToken_follows; eassumption.
Qed.

Lemma nextSignificantToken_token l t l' :
  Streaming.nextSignificantToken false l = Some (Some t, l') -> advances l l'.
Proof.
  rewrite nextSignificantToken_consume. intros [= E].
  eapply nextToken_success; eassumption.
Qed.

Lemma nextSignificantToken_peeked l t l' :
  Streaming.nextSignificantToken true l = Some (Some t, l') ->
  l' = l /\ fst (nextToken l) = Some t.
Proof.
  rewrite nextSignificantToken_peek.
  destruct (fst (nextToken l)); intros [= <- <-]; auto.
Qed.

Lemma expectToken_runs type l : runs (Streaming.expectToken type) l.
Proof.
  unfold Streaming.expectToken.
  apply runs_bind; [apply nextSignificantToken_runs|].
  intros [t|] l' _ _; apply runs_ret.
Qed.

Lemma expectToken_true type l l' :
  Streaming.expectToken type l = Some (true, l') -> advances l l'.
Proof.
  unfold Streaming.expectToken, bind.
  destruct (Streaming.nextSignificantToken false l) as [[[t|] l1]|] eqn:E;
    try discriminate.
  unfold ret. intros [= _ <-].
  eapply nextSignificantToken_token; eassumption.
Qed.

(** The budget [descentFuel] is enough for the whole descent. *)
Lemma descent_runs : forall fuel,
  (forall discard l, 3 * remaining l + 1 <= fuel ->
     runs (Streaming.parseValue fuel discard) l) /\
  (forall discard l, 3 * remaining l + 3 <= fuel ->
     runs (Streaming.parseObject fuel discard) l) /\
  (forall discard obj l, 3 * remaining l + 2 <= fuel ->
     runs (Streaming.parseObjectLoop fuel discard obj) l) /\
  (forall discard l, 3 * remaining l + 3 <= fuel ->
     runs (Streaming.parseArray fuel discard) l) /\
  (forall discard arr l, 3 * remaining l + 2 <= fuel ->
     runs (Streaming.parseArrayLoop fuel discard arr) l).
Proof.
  induction fuel as [|fuel (IHv & IHo & IHol & IHa & IHal)].
  { repeat split; intros; lia. }
  repeat split.
  - (* parseValue *)
    intros discard l Hf. cbn [Streaming.parseValue].
    apply runs_bind; [apply nextSignificantToken_runs|].
    intros [t|] l1 E _; [|apply runs_ret].
    apply nextSignificantToken_token, advances_remaining in E.
    destruct t; try apply runs_ret; [apply IHo|apply IHa]; lia.
  - (* parseObject *)
    intros discard l Hf. cbn [Streaming.parseObject].
    apply runs_bind; [apply nextSignificantToken_runs|].
    intros [t|] l1 E _; [|apply runs_ret].
    apply nextSignificantToken_peeked in E as [-> _].
    destruct t; try (apply IHol; lia).
    apply runs_bind; [apply nextSignificantToken_runs|].
    intros; apply runs_ret.
  - (* parseObjectLoop *)
    intros discard obj l Hf. cbn [Streaming.parseObjectLoop].
    apply runs_bind; [apply nextSignificantToken_runs|].
    intros [t|] l1 E1 _; [|apply runs_ret].
    apply nextSignificantToken_token, advances_remaining in E1.
    destruct t; try apply runs_ret.
    apply runs_bind; [apply expectToken_runs|].
    intros [|] l2 E2 F2; [|apply runs_ret]. cbn [negb].
    apply follows_remaining in F2.
    apply runs_bind; [apply IHv; lia|].
    intros [v|] l3 _ F3; [|apply runs_ret].
    apply follows_remaining in F3.
    apply runs_bind; [apply nextSignificantToken_runs|].
    intros [t|] l4 E4 _; [|apply runs_ret].
    apply nextSignificantToken_token, advances_remaining in E4.
    destruct t; try apply runs_ret. apply IHol. lia.
  - (* parseArray *)
    intros discard l Hf. cbn [Streaming.parseArray].
    apply runs_bind; [apply nextSignificantToken_runs|].
    intros [t|] l1 E _; [|apply runs_ret].
    apply nextSignificantToken_peeked in E as [-> _].
    destruct t; try (apply IHal; lia).
    apply runs_bind; [apply nextSignificantToken_runs|].
    intros; apply runs_ret.
  - (* parseArrayLoop *)
    intros discard arr l Hf. cbn [Streaming.parseArrayLoop].
    apply runs_bind; [apply IHv; lia|].
    intros [v|] l3 _ F3; [|apply runs_ret].
    apply follows_remaining in F3.
    apply runs_bind; [apply nextSignificantToken_runs|].
    intros [t|] l4 E4 _; [|apply runs_ret].
    apply nextSignificantToken_token, advances_remaining in E4.
    destruct t; try apply runs_ret. apply IHal. lia.
Qed.

Lemma skipValue_runs l : runs Streaming.skipValue l.
Proof.
  unfold Streaming.skipValue.
  change (runs (bind (Streaming.parseValue (descentFuel l) true)
                     (fun value => ret (isSome value))) l).
  apply runs_bind.
  - apply (proj1 (descent_runs (descentFuel l))). unfold descentFuel. lia.
  - intros; apply runs_ret.
Qed.

(** ** The one-shot parser is within its budget too *)

Lemma Parser_nextSignificantToken_runs peek l :
  runs (Parser.nextSignificantToken peek) l.
Proof.
  unfold runs, Parser.nextSignificantToken, getPosition.
  destruct (nextToken l) as [[t|] l'] eqn:E.
  - apply nextToken_success in E. destruct E as (B & P1 & P2).
    do 2 eexists. split; [reflexivity|].
    destruct peek; cbn [andb isSome]; split; cbn [buffer position setPosition];
      try assumption; lia.
  - apply nextToken_follows in E.
    do 2 eexists. split; [reflexivity|].
    rewrite andb_false_r. exact E.
Qed.

Lemma Parser_nextSignificantToken_token l t l' :
  Parser.nextSignificantToken false l = Some (Some t, l') -> advances l l'.
Proof.
  unfold Parser.nextSignificantToken.
  destruct (nextToken l) as [o l1] eqn:E. cbn [andb].
  intros [= -> <-]. eapply nextToken_success; eassumption.
Qed.

Lemma Parser_descent_runs : forall fuel,
  (forall l, 3 * remaining l + 1 <= fuel -> runs (Parser.parseValue fuel) l) /\
  (forall l, 3 * remaining l + 3 <= fuel -> runs (Parser.parseObject fuel) l) /\
  (forall obj l, 3 * remaining l + 2 <= fuel ->
     runs (Parser.parseObjectLoop fuel obj) l) /\
  (forall l, 3 * remaining l + 3 <= fuel -> runs (Parser.parseArray fuel) l) /\
  (forall arr l, 3 * remaining l + 2 <= fuel ->
     runs (Parser.parseArrayLoop fuel arr) l).
Proof.
  induction fuel as [|fuel (IHv & IHo & IHol & IHa & IHal)].
  { repeat split; intros; lia. }
  repeat split.
  - intros l Hf. cbn [Parser.parseValue].
    apply runs_bind; [apply Parser_nextSignificantToken_runs|].
    intros [t|] l1 E _; [|apply runs_ret].
    apply Parser_nextSignificantToken_token, advances_remaining in E.
    destruct t as [| | | | | | | |[b|]]; try apply runs_ret;
      [apply IHo|apply IHa]; lia.
  - intros l Hf. cbn [Parser.parseObject].
    apply runs_bind; [apply Parser_nextSignificantToken_runs|].
    intros o l1 _ F. apply follows_remaining in F.
    destruct o as [[]|]; try (apply IHol; lia).
    apply runs_bind; [apply Parser_nextSignificantToken_runs|].
    intros; apply runs_ret.
  - intros obj l Hf. cbn [Parser.parseObjectLoop].
    apply runs_bind; [apply Parser_nextSignificantToken_runs|].
    intros [t|] l1 E1 _; [|apply runs_ret].
    apply Parser_nextSignificantToken_token, advances_remaining in E1.
    destruct t; try apply runs_ret.
    apply runs_bind; [apply Parser_nextSignificantToken_runs|].
    intros [t|] l2 E2 _; [|apply runs_ret].
    apply Parser_nextSignificantToken_token, advances_remaining in E2.
    destruct t; try apply runs_ret.
    apply runs_bind; [apply IHv; lia|].
    intros [v|] l3 _ F3; [|apply runs_ret].
    apply follows_remaining in F3.
    apply runs_bind; [apply Parser_nextSignificantToken_runs|].
    intros [t|] l4 E4 _; [|apply runs_ret].
    apply Parser_nextSignificantToken_token, advances_remaining in E4.
    destruct t; try apply runs_ret. apply IHol. lia.
  - intros l Hf. cbn [Parser.parseArray].
    apply runs_bind; [apply Parser_nextSignificantToken_runs|].
    intros o l1 _ F. apply follows_remaining in F.
    destruct o as [[]|]; try (apply IHal; lia).
    apply runs_bind; [apply Parser_nextSignificantToken_runs|].
    intros; apply runs_ret.
  - intros arr l Hf. cbn [Parser.parseArrayLoop].
    apply runs_bind; [apply IHv; lia|].
    intros [v|] l3 _ F3; [|apply runs_ret].
    apply follows_remaining in F3.
    apply runs_bind; [apply Parser_nextSignificantToken_runs|].
    intros [t|] l4 E4 _; [|apply runs_ret].
    apply Parser_nextSignificantToken_token, advances_remaining in E4.
    destruct t; try apply runs_ret. apply IHal. lia.
Qed.

(** [parse] always returns or throws. *)
Lemma Parser_parse_total input :
  exists outcome, Parser.parseFresh input = Some outcome.
Proof.
  unfold Parser.parseFresh, Parser.parse, bind.
  set (l := addChunk newLexer input).
  destruct (proj1 (Parser_descent_runs (descentFuel l)) l) as (v & l' & E & _);
    [unfold descentFuel; lia|].
  rewrite E. destruct v; eexists; reflexivity.
Qed.

(* ================================================================== *)
(** * Properties of the state machine *)
(* ================================================================== *)

Ltac follows_chain :=
  repeat match goal with
         | H : advances _ _ |- _ => apply advances_follows in H
         end;
  repeat first [ apply follows_refl
               | eassumption
               | eapply follows_trans; [eassumption|] ].

Ltac machine_simpl :=
  repeat (cbv beta iota; cbn [lexer state events negb fst snd isSome andb]).

(** A step in the scanning state, once the peek has found a token: it is
    within its budget, consumes at least the peeked token, emits nothing
    and leaves the state as it is or moves to the colon or to the end. *)
Lemma handleScanningForResults_spec token p t l1 :
  nextToken (lexer p) = (Some t, l1) ->
  exists b p',
    Streaming.handleScanningForResults token p = Some (b, p') /\
    advances (lexer p) (lexer p') /\
    events p' = events p /\
    (state p' = state p \/ state p' = EXPECT_COLON_AFTER_RESULTS \/ state p' = DONE).
Proof.
  intros E. pose proof E as A1. apply nextToken_success in A1.
  unfold Streaming.handleScanningForResults, bind, Streaming.liftLexer,
    Streaming.setState, ret.
  rewrite nextSignificantToken_consume, E. machine_simpl.
  destruct (Streaming.isResultsKey token); machine_simpl.
  { do 2 eexists. split; [reflexivity|]. cbn. auto. }
  destruct (expectToken_runs ty_name_separator l1) as (c & l2 & E2 & F2).
  rewrite E2. machine_simpl. destruct c; machine_simpl;
    [|do 2 eexists; split; [reflexivity|]; cbn;
      split; [eapply advances_then_follows; eassumption|auto]].
  destruct (skipValue_runs l2) as (s & l3 & E3 & F3).
  rewrite E3. machine_simpl. destruct s; machine_simpl;
    [|do 2 eexists; split; [reflexivity|]; cbn;
      split; [eapply advances_then_follows; [eassumption|follows_chain]|auto]].
  destruct (nextSignificantToken_runs false l3) as (o & l4 & E4 & F4).
  rewrite E4. machine_simpl.
  destruct o as [[]|]; do 2 eexists; (split; [reflexivity|]); cbn;
    (split; [eapply advances_then_follows; [eassumption|follows_chain]|auto]).
Qed.

Section Machine.

Variable JSON_parse : jsstring -> option JSONValue.

(** Every step is within its budget.  With no token at the cursor it
    reports no progress and only skips whitespace; with a token it does
    what [stepOutcome] says. *)
Lemma processNextStep_spec p :
  exists progress p',
    Streaming.processNextStep JSON_parse p = Some (progress, p') /\
    match nextToken (lexer p) with
    | (None, _) =>
        progress = false /\
        p' = mkParser (skipWhitespace (lexer p)) (state p) (events p)
    | (Some token, l1) => stepOutcome JSON_parse p token l1 progress p'
    end.
Proof.
  unfold Streaming.processNextStep, bind, Streaming.liftLexer.
  rewrite nextSignificantToken_peek.
  destruct (nextToken (lexer p)) as [[token|] l1] eqn:E; machine_simpl;
    [|do 2 eexists; repeat split].
  unfold Streaming.getState, stepOutcome. machine_simpl.
  destruct p as [l st ev]. cbn [lexer state events] in *.
  destruct st.
  - (* EXPECT_OBJECT_START *)
    destruct token; cbn [Streaming.handleExpectObjectStart];
      unfold bind, Streaming.liftLexer, Streaming.setState, ret;
      machine_simpl; rewrite ?nextSignificantToken_consume, ?E; machine_simpl;
      do 2 eexists; split; try reflexivity; auto.
  - (* SCANNING_FOR_RESULTS *)
    destruct (@handleScanningForResults_spec token (mkParser l SCANNING_FOR_RESULTS ev)
                token l1 E) as (b & p' & H & A & Ev & St).
    exists b, p'. split; [exact H|]. auto.
  - (* EXPECT_COLON_AFTER_RESULTS *)
    destruct token; cbn [Streaming.handleExpectColon];
      unfold bind, Streaming.liftLexer, Streaming.setState, ret;
      machine_simpl; rewrite ?nextSignificantToken_consume, ?E; machine_simpl;
      do 2 eexists; split; try reflexivity; auto.
  - (* EXPECT_ARRAY_START *)
    destruct token; cbn [Streaming.handleExpectArrayStart];
      unfold bind, Streaming.liftLexer, Streaming.setState, ret;
      machine_simpl; rewrite ?nextSignificantToken_consume, ?E; machine_simpl;
      do 2 eexists; split; try reflexivity; auto.
  - (* PARSING_RESULTS_ARRAY *)
    destruct token; cbn [Streaming.handleParsingResultsArray];
      unfold bind, Streaming.liftLexer, Streaming.setState, Streaming.getLexer,
        ret, getPosition;
      machine_simpl; rewrite ?nextSignificantToken_consume, ?E; machine_simpl;
      do 2 eexists; split; try reflexivity; auto.
  - (* PARSING_ARRAY_ENTRY *)
    unfold Streaming.handleParsingArrayEntry, bind, Streaming.getState,
      Streaming.liftLexer, Streaming.setState, Streaming.getLexer,
      Streaming.emit, ret, getPosition, getBuffer.
    machine_simpl. rewrite nextSignificantToken_consume, E. machine_simpl.
    destruct token; machine_simpl;
      try (do 2 eexists; split; [reflexivity|]; auto; fail).
    destruct (bracketCount - 1 =? 0)%Z; machine_simpl;
      [|do 2 eexists; split; [reflexivity|]; auto].
    destruct (JSON_parse (slice (buffer l1) startPosition (position l1)));
      machine_simpl; do 2 eexists; split; try reflexivity; auto.
  - (* DONE *)
    do 2 eexists; split; [reflexivity|]; auto.
Qed.

Lemma processNextStep_follows p progress p' :
  Streaming.processNextStep JSON_parse p = Some (progress, p') ->
  follows (lexer p) (lexer p').
Proof.
  intros H. destruct (processNextStep_spec p) as (b & q & H' & Spec).
  rewrite H in H'. injection H' as <- <-.
  destruct (nextToken (lexer p)) as [[token|] l1] eqn:E.
  - apply nextToken_success, advances_follows in E.
    unfold stepOutcome in Spec.
    destruct (state p); try destruct token;
      repeat match goal with
             | H : context [if ?c then _ else _] |- _ => destruct c
             | H : context [match JSON_parse ?x with _ => _ end] |- _ =>
                 destruct (JSON_parse x)
             end;
      try (destruct Spec as [_ ->]; first [apply follows_refl | exact E]);
      destruct Spec as (A & _); apply advances_follows; exact A.
  - destruct Spec as [_ ->]. apply skipWhitespace_follows.
Qed.

Lemma drain_runs : forall fuel p,
  remaining (lexer p) < fuel ->
  exists p', Streaming.drain JSON_parse fuel p = Some (tt, p')
             /\ follows (lexer p) (lexer p').
Proof.
  induction fuel as [|fuel IH]; intros p Hf; [lia|].
  cbn [Streaming.drain]. unfold bind, Streaming.getLexer, getPosition.
  destruct (processNextStep_spec p) as (b & p1 & H & _).
  rewrite H.
  pose proof H as F. apply processNextStep_follows in F.
  destruct (b && negb (position (lexer p1) =? position (lexer p))) eqn:C.
  - apply andb_true_iff in C as [_ C].
    apply negb_true_iff, Nat.eqb_neq in C.
    destruct (IH p1) as (p' & D & F').
    { pose proof F as [B P]. unfold remaining in *. rewrite B. lia. }
    exists p'. split; [exact D|]. eapply follows_trans; eassumption.
  - exists p1. split; [reflexivity|assumption].
Qed.

Lemma drain_more_fuel : forall fuel extra p r,
  Streaming.drain JSON_parse fuel p = Some r ->
  Streaming.drain JSON_parse (fuel + extra) p = Some r.
Proof.
  induction fuel as [|fuel IH]; intros extra p r; [discriminate|].
  cbn [Streaming.drain Nat.add]. unfold bind, Streaming.getLexer.
  destruct (Streaming.processNextStep JSON_parse p) as [[b p1]|]; [|discriminate].
  destruct (b && negb (getPosition (lexer p1) =? getPosition (lexer p)));
    [apply IH|trivial].
Qed.

Lemma parseChunk_runs chunk p :
  exists p',
    Streaming.parseChunk JSON_parse chunk p = Some (tt, p') /\
    buffer (lexer p') = buffer (lexer p) ++ chunk.
Proof.
  unfold Streaming.parseChunk.
  set (q := mkParser (addChunk (lexer p) chunk) (state p) (events p)).
  destruct (@drain_runs (S (remaining (lexer q))) q) as (p' & D & B & _); [lia|].
  exists p'. split; [exact D|]. rewrite B. reflexivity.
Qed.

Lemma parseStream_runs : forall chunks p,
  exists p', Streaming.parseStream JSON_parse chunks p = Some (tt, p').
Proof.
  induction chunks as [|chunk chunks IH]; intros p.
  - exists p. reflexivity.
  - cbn [Streaming.parseStream]. destruct chunk as [|c chunk].
    + apply IH.
    + unfold bind. destruct (parseChunk_runs (c :: chunk) p) as (p1 & H & _).
      rewrite H. apply IH.
Qed.

(** C8.  Every call of [parseChunk] terminates, for every chunk and from
    every state of the parser, and so does [parseStream] on every list of
    chunks.  Each step of the loop is itself within its budget and leaves
    the buffer as it is and the cursor where it was or further on, inside
    the buffer; the loop goes on only after a step that has moved the
    cursor, so it takes at most one step more than there are code units
    after the cursor, and a larger budget changes nothing. *)
Theorem C8_parseChunk_terminates :
  (forall p, exists progress p',
      Streaming.processNextStep JSON_parse p = Some (progress, p') /\
      follows (lexer p) (lexer p')) /\
  (forall chunk p, exists p',
      Streaming.parseChunk JSON_parse chunk p = Some (tt, p') /\
      forall extra,
        let q := mkParser (addChunk (lexer p) chunk) (state p) (events p) in
        Streaming.drain JSON_parse (S (remaining (lexer q)) + extra) q
        = Some (tt, p')) /\
  (forall chunks p, exists p', Streaming.parseStream JSON_parse chunks p = Some (tt, p')).
Proof.
  split; [|split].
  - intros p. destruct (processNextStep_spec p) as (b & p' & H & _).
    exists b, p'. split; [exact H|]. eapply processNextStep_follows; exact H.
  - intros chunk p. destruct (parseChunk_runs chunk p) as (p' & H & _).
    exists p'. split; [exact H|]. intros extra q.
    apply drain_more_fuel. exact H.
  - apply parseStream_runs.
Qed.

Lemma events_grow (ev : list Event) e : ev ++ [e] <> ev.
Proof.
  intros H. apply (f_equal (@length _)) in H.
  rewrite length_app in H. simpl in H. lia.
Qed.

(** ** A step taken while the keys are scanned *)

Lemma processNextStep_scanning p t l1 :
  state p = SCANNING_FOR_RESULTS ->
  nextToken (lexer p) = (Some t, l1) ->
  Streaming.processNextStep JSON_parse p = Streaming.handleScanningForResults t p.
Proof.
  intros St E. destruct p as [l st ev]. cbn [lexer state] in *. subst st.
  unfold Streaming.processNextStep, bind, Streaming.liftLexer.
  machine_simpl. rewrite nextSignificantToken_peek, E. reflexivity.
Qed.

Lemma handleScanningForResults_declines token p p' :
  Streaming.handleScanningForResults token p = Some (false, p') ->
  state p' = state p.
Proof.
  unfold Streaming.handleScanningForResults, bind, Streaming.liftLexer,
    Streaming.setState, ret.
  destruct (Streaming.nextSignificantToken false (lexer p)) as [[o l1]|];
    machine_simpl; [|discriminate].
  destruct (Streaming.isResultsKey token); machine_simpl; [discriminate|].
  destruct (Streaming.expectToken ty_name_separator l1) as [[[|] l2]|];
    machine_simpl; try discriminate; [|intros [= <-]; reflexivity].
  destruct (Streaming.skipValue l2) as [[[|] l3]|];
    machine_simpl; try discriminate; [|intros [= <-]; reflexivity].
  destruct (Streaming.nextSignificantToken false l3) as [[[s|] l4]|];
    machine_simpl; try discriminate; [|intros [= <-]; reflexivity].
  destruct s; machine_simpl; try discriminate; intros [= <-]; reflexivity.
Qed.

Lemma mkParser_eta p : mkParser (lexer p) (state p) (events p) = p.
Proof. destruct p; reflexivity. Qed.


(** ** The depth of the element being collected *)

Lemma processNextStep_events p progress p' :
  Streaming.processNextStep JSON_parse p = Some (progress, p') ->
  events p' = events p \/
  (exists v, events p' = events p ++ [onNewEntry v]) \/
  events p' = events p ++ [console_error].
Proof.
  intros H. destruct (processNextStep_spec p) as (b & q & H' & Spec).
  rewrite H in H'. injection H' as <- <-.
  destruct (nextToken (lexer p)) as [[token|] l1] eqn:E;
    [|destruct Spec as [_ ->]; auto].
  unfold stepOutcome in Spec.
  destruct (state p); try destruct token;
    repeat match goal with
           | H : context [if ?c then _ else _] |- _ => destruct c
           | H : context [match JSON_parse ?x with _ => _ end] |- _ =>
               destruct (JSON_parse x)
           end;
    try (destruct Spec as [_ ->]; cbn [events]; eauto; fail).
  all: destruct Spec as (_ & -> & _); auto.
Qed.

Lemma depth_step p progress p' :
  depthAtLeastOne (state p) ->
  Streaming.processNextStep JSON_parse p = Some (progress, p') ->
  (events p' = events p ++ [console_error] \/ depthAtLeastOne (state p')) /\
  (forall v, events p' = events p ++ [onNewEntry v] ->
     exists startPosition,
       state p = PARSING_ARRAY_ENTRY 1 startPosition /\
       state p' = PARSING_RESULTS_ARRAY).
Proof.
  intros Inv H. destruct (processNextStep_spec p) as (b & q & H' & Spec).
  rewrite H in H'. injection H' as <- <-.
  destruct (nextToken (lexer p)) as [[token|] l1] eqn:E.
  2:{ destruct Spec as [_ ->]. cbn [state events]. split; [auto|].
      intros v Hv. symmetry in Hv. apply events_grow in Hv. contradiction. }
  unfold stepOutcome in Spec.
  destruct (state p) eqn:St; try destruct token;
    repeat match goal with
           | H : context [if ?c then _ else _] |- _ => destruct c eqn:?
           | H : context [match JSON_parse ?x with _ => _ end] |- _ =>
               destruct (JSON_parse x)
           end;
    repeat match goal with
           | H : (_ =? _)%Z = true |- _ => apply Z.eqb_eq in H
           | H : (_ =? _)%Z = false |- _ => apply Z.eqb_neq in H
           end;
    try (destruct Spec as [_ ->]; rewrite ?St;
         cbn [state events depthAtLeastOne] in *;
         (split;
          [first [right; exact I | right; lia | right; assumption
                 | left; reflexivity]|]);
         intros v Hv;
         first [ symmetry in Hv; apply events_grow in Hv; contradiction
               | apply app_inj_tail in Hv as [_ Hv]; discriminate Hv
               | exists startPosition; split; [f_equal; lia|reflexivity] ]).
  all: destruct Spec as (_ & Ev & St'); split;
    [right; destruct St' as [->|[->| ->]]; exact I
    |intros v Hv; rewrite Ev in Hv; symmetry in Hv;
     apply events_grow in Hv; contradiction].
Qed.

(** C5 (amended).  In every state a parser goes through before a decode
    failure has been logged, the depth recorded while an element is being
    collected is at least 1.  The step that hands an element to the
    consumer is the one that takes the depth from 1 to 0, and it leaves
    the collecting state for the state between elements; after any step
    that logs no decode failure the depth is again at least 1. *)
Theorem C5_depth_at_least_one_while_collecting p :
  reachable JSON_parse p ->
  ~ In console_error (events p) ->
  depthAtLeastOne (state p) /\
  (forall progress p' v,
     Streaming.processNextStep JSON_parse p = Some (progress, p') ->
     events p' = events p ++ [onNewEntry v] ->
     exists startPosition,
       state p = PARSING_ARRAY_ENTRY 1 startPosition /\
       state p' = PARSING_RESULTS_ARRAY) /\
  (forall progress p',
     Streaming.processNextStep JSON_parse p = Some (progress, p') ->
     ~ In console_error (events p') ->
     depthAtLeastOne (state p')).
Proof.
  intros R Hev.
  assert (Inv : depthAtLeastOne (state p)).
  { induction R as [|p chunk R IH|p progress p' R IH H].
    - exact I.
    - apply IH. exact Hev.
    - assert (Hp : ~ In console_error (events p)).
      { intros Hin. apply Hev.
        destruct (processNextStep_events _ H) as [->|[[v ->]| ->]];
          [assumption|apply in_or_app; auto..]. }
      destruct (depth_step _ (IH Hp) H) as [[Err|D] _]; [|exact D].
      exfalso. apply Hev. rewrite Err. apply in_or_app. right. left. reflexivity. }
  split; [exact Inv|]. split.
  - intros progress p' v H Hv. exact (proj2 (depth_step _ Inv H) v Hv).
  - intros progress p' H Hev'.
    destruct (depth_step _ Inv H) as [[Err|D] _]; [|exact D].
    exfalso. apply Hev'. rewrite Err. apply in_or_app. right. left. reflexivity.
Qed.

(** The loop of [parseChunk] and [parseStream] only go through such
    states. *)
Lemma drain_reachable : forall fuel p p',
  reachable JSON_parse p ->
  Streaming.drain JSON_parse fuel p = Some (tt, p') ->
  reachable JSON_parse p'.
Proof.
  induction fuel as [|fuel IH]; intros p p' R; [discriminate|].
  cbn [Streaming.drain]. unfold bind, Streaming.getLexer.
  destruct (Streaming.processNextStep JSON_parse p) as [[b p1]|] eqn:H;
    [|discriminate].
  assert (R1 : reachable JSON_parse p1) by (eapply reachable_step; eassumption).
  destruct (b && negb (getPosition (lexer p1) =? getPosition (lexer p))).
  - apply IH. exact R1.
  - intros [= <-]. exact R1.
Qed.

Lemma parseStream_reachable : forall chunks p p',
  reachable JSON_parse p ->
  Streaming.parseStream JSON_parse chunks p = Some (tt, p') ->
  reachable JSON_parse p'.
Proof.
  induction chunks as [|chunk chunks IH]; intros p p' R.
  - intros [= <-]. exact R.
  - cbn [Streaming.parseStream]. destruct chunk as [|c chunk]; [apply IH; exact R|].
    unfold bind.
    destruct (Streaming.parseChunk JSON_parse (c :: chunk) p) as [[[] p1]|] eqn:H;
      [|discriminate].
    apply IH. unfold Streaming.parseChunk in H.
    eapply drain_reachable; [|exact H]. apply reachable_chunk. exact R.
Qed.

Lemma run_reachable chunks p :
  Streaming.run JSON_parse chunks = Some p -> reachable JSON_parse p.
Proof.
  unfold Streaming.run.
  destruct (Streaming.parseStream JSON_parse chunks newParser) as [[[] q]|] eqn:H;
    [|discriminate].
  intros [= <-]. eapply parseStream_reachable; [apply reachable_new|exact H].
Qed.

End Machine.

(* ================================================================== *)
(** * Runs on concrete documents *)
(* ================================================================== *)



(** The same step in the scanning state consumes a key and then finds
    that its colon has not arrived: it reports no progress with the cursor
    after the key. *)
Example scanning_step_consumes_then_declines :
  Streaming.processNextStep JSON.JSON_parse
    (mkParser (mkLexer (json "{'a'") 1) SCANNING_FOR_RESULTS [])
  = Some (false, mkParser (mkLexer (json "{'a'") 4) SCANNING_FOR_RESULTS []).
Proof. vm_compute. reflexivity. Qed.

Lemma C5_witness :
  let p := mkParser (mkLexer (json "{'results':[{'a':{") 18)
                    (PARSING_ARRAY_ENTRY 2 12) [] in
  depthAtLeastOne (state p) /\
  (forall progress p' v,
     Streaming.processNextStep JSON.JSON_parse p = Some (progress, p') ->
     events p' = events p ++ [onNewEntry v] ->
     exists startPosition,
       state p = PARSING_ARRAY_ENTRY 1 startPosition /\
       state p' = PARSING_RESULTS_ARRAY) /\
  (forall progress p',
     Streaming.processNextStep JSON.JSON_parse p = Some (progress, p') ->
     ~ In console_error (events p') ->
     depthAtLeastOne (state p')).
Proof.
  intros p.
  apply (@C5_depth_at_least_one_while_collecting JSON.JSON_parse p).
  - apply (@run_reachable JSON.JSON_parse [json "{'results':[{'a':{"]).
    vm_compute. reflexivity.
  - simpl. tauto.
Defined.

(** C5, as stated, fails: on the document whose only element is an
    opening brace, a closing bracket and a closing brace, the decode of the
    delimited text fails and the machine stays in the collecting state with
    depth 0. *)
Lemma C5_counterexample :
  option_map (fun p => (state p, events p)) (runModel [json "{'results':[{]}"])
  = Some (PARSING_ARRAY_ENTRY 0 12, [console_error]).
Proof. vm_compute. reflexivity. Qed.

(** C1.  The emitted elements depend on where the text is cut.  The
    document with a key [a] before [results] and one element, fed whole,
    hands that element to the consumer; the same text cut after the key
    [a] hands nothing: the scanning step consumes the key, finds no colon
    yet and gives up with the key consumed, so the next chunk is read from
    the colon as if it were a key. *)
Theorem C1_emitted_elements_depend_on_the_split :
  json "{'a'" ++ json ":1,'results':[{'x':1}]}" = json "{'a':1,'results':[{'x':1}]}"
  /\ option_map entries (runModel [json "{'a':1,'results':[{'x':1}]}"])
     = Some [JObject [(js "x", JNumber (numberOfZ 1))]]
  /\ option_map entries (runModel [json "{'a'"; json ":1,'results':[{'x':1}]}"])
     = Some [].
Proof. repeat split; vm_compute; reflexivity. Qed.

(** ** Runs that log no decode failure are fixed by the decodes they made *)

Lemma liftLexer_events {A : Type} (m : M Lexer A) p a p' :
  Streaming.liftLexer m p = Some (a, p') -> events p' = events p.
Proof.
  unfold Streaming.liftLexer. destruct (m (lexer p)) as [[x l']|]; [|discriminate].
  intros [= _ <-]. reflexivity.
Qed.

Lemma handleParsingArrayEntry_agree JSON_parse table p b p' :
  (forall x v, decodeTable table x = Some v -> JSON_parse x = Some v) ->
  Streaming.handleParsingArrayEntry (decodeTable table) p = Some (b, p') ->
  ~ In console_error (events p') ->
  Streaming.handleParsingArrayEntry JSON_parse p = Some (b, p').
Proof.
  intros Agree. unfold Streaming.handleParsingArrayEntry, bind, Streaming.getState,
    Streaming.liftLexer, Streaming.setState, Streaming.getLexer, Streaming.emit,
    ret, getPosition, getBuffer.
  destruct (state p); try (intros H _; exact H).
  destruct (Streaming.nextSignificantToken false (lexer p)) as [[[t|] l1]|];
    try (intros H _; exact H).
  machine_simpl. destruct t; try (intros H _; exact H).
  destruct (bracketCount - 1 =? 0)%Z; machine_simpl; try (intros H _; exact H).
  destruct (decodeTable table (slice (buffer l1) startPosition (position l1)))
    as [v|] eqn:D.
  - rewrite (Agree _ _ D). intros H _; exact H.
  - intros [= _ <-] Hev. exfalso. apply Hev. cbn [events].
    apply in_or_app. right. left. reflexivity.
Qed.

Lemma processNextStep_agree JSON_parse table p b p' :
  (forall x v, decodeTable table x = Some v -> JSON_parse x = Some v) ->
  Streaming.processNextStep (decodeTable table) p = Some (b, p') ->
  ~ In console_error (events p') ->
  Streaming.processNextStep JSON_parse p = Some (b, p').
Proof.
  intros Agree. unfold Streaming.processNextStep, bind.
  destruct (Streaming.liftLexer (Streaming.nextSignificantToken true) p)
    as [[[t|] p1]|]; try (intros H _; exact H).
  unfold Streaming.getState.
  destruct (state p1); try (intros H _; exact H).
  apply handleParsingArrayEntry_agree. exact Agree.
Qed.

Lemma drain_events JSON_parse : forall fuel p p',
  Streaming.drain JSON_parse fuel p = Some (tt, p') ->
  In console_error (events p) -> In console_error (events p').
Proof.
  induction fuel as [|fuel IH]; intros p p'; [discriminate|].
  cbn [Streaming.drain]. unfold bind, Streaming.getLexer.
  destruct (Streaming.processNextStep JSON_parse p) as [[b p1]|] eqn:H;
    [|discriminate].
  assert (Hev : In console_error (events p) -> In console_error (events p1)).
  { pose proof H as X. apply processNextStep_events in X.
    destruct X as [->|[[v ->]| ->]]; [trivial|intros; apply in_or_app; auto..]. }
  destruct (b && negb (getPosition (lexer p1) =? getPosition (lexer p))).
  - intros D Hin. eapply IH; [exact D|auto].
  - intros [= <-]. exact Hev.
Qed.

Lemma drain_agree JSON_parse table :
  (forall x v, decodeTable table x = Some v -> JSON_parse x = Some v) ->
  forall fuel p p',
    Streaming.drain (decodeTable table) fuel p = Some (tt, p') ->
    ~ In console_error (events p') ->
    Streaming.drain JSON_parse fuel p = Some (tt, p').
Proof.
  intros Agree. induction fuel as [|fuel IH]; intros p p'; [discriminate|].
  cbn [Streaming.drain]. unfold bind, Streaming.getLexer.
  destruct (Streaming.processNextStep (decodeTable table) p) as [[b p1]|] eqn:H;
    [|discriminate].
  intros D Hev.
  assert (H1 : ~ In console_error (events p1)).
  { destruct (b && negb (getPosition (lexer p1) =? getPosition (lexer p))).
    - intros Hin. apply Hev. eapply drain_events; eassumption.
    - injection D as <-. exact Hev. }
  rewrite (@processNextStep_agree _ _ _ _ _ Agree H H1).
  destruct (b && negb (getPosition (lexer p1) =? getPosition (lexer p)));
    [apply IH; assumption|exact D].
Qed.

Lemma parseStream_events JSON_parse : forall chunks p p',
  Streaming.parseStream JSON_parse chunks p = Some (tt, p') ->
  In console_error (events p) -> In console_error (events p').
Proof.
  induction chunks as [|chunk chunks IH]; intros p p'.
  - intros [= <-]. trivial.
  - cbn [Streaming.parseStream]. destruct chunk as [|c chunk]; [apply IH|].
    unfold bind.
    destruct (Streaming.parseChunk JSON_parse (c :: chunk) p) as [[[] p1]|] eqn:H;
      [|discriminate].
    intros D Hin. eapply IH; [exact D|].
    unfold Streaming.parseChunk in H. eapply drain_events; [exact H|exact Hin].
Qed.

Lemma parseStream_agree JSON_parse table :
  (forall x v, decodeTable table x = Some v -> JSON_parse x = Some v) ->
  forall chunks p p',
    Streaming.parseStream (decodeTable table) chunks p = Some (tt, p') ->
    ~ In console_error (events p') ->
    Streaming.parseStream JSON_parse chunks p = Some (tt, p').
Proof.
  intros Agree. induction chunks as [|chunk chunks IH]; intros p p'.
  - intros H _. exact H.
  - cbn [Streaming.parseStream]. destruct chunk as [|c chunk]; [apply IH|].
    unfold bind.
    destruct (Streaming.parseChunk (decodeTable table) (c :: chunk) p)
      as [[[] p1]|] eqn:H; [|discriminate].
    intros D Hev.
    assert (H1 : ~ In console_error (events p1)).
    { intros Hin. apply Hev. eapply parseStream_events; eassumption. }
    unfold Streaming.parseChunk in *.
    rewrite (@drain_agree _ _ Agree _ _ _ H H1). apply IH; assumption.
Qed.

(** A run with a table of decodes that logs no decode failure is the run
    of every [JSON.parse] that agrees with the table. *)
Lemma run_agree JSON_parse table chunks p' :
  (forall x v, decodeTable table x = Some v -> JSON_parse x = Some v) ->
  Streaming.run (decodeTable table) chunks = Some p' ->
  ~ In console_error (events p') ->
  Streaming.run JSON_parse chunks = Some p'.
Proof.
  intros Agree. unfold Streaming.run.
  destruct (Streaming.parseStream (decodeTable table) chunks newParser)
    as [[[] q]|] eqn:H; [|discriminate].
  intros [= <-] Hev.
  rewrite (@parseStream_agree _ _ Agree _ _ _ H Hev). reflexivity.
Qed.

Lemma decodeTable_two a va b vb x v :
  decodeTable [(a, va); (b, vb)] x = Some v ->
  (x = a /\ v = va) \/ (x = b /\ v = vb).
Proof.
  unfold decodeTable. cbn [find fst snd].
  destruct (jsstring_eqb a x) eqn:E1.
  - apply jsstring_eqb_eq in E1. intros [= <-]. auto.
  - destruct (jsstring_eqb b x) eqn:E2; [|discriminate].
    apply jsstring_eqb_eq in E2. intros [= <-]. auto.
Qed.

(** C2.  Given that [JSON.parse] decodes the texts of the two elements to
    the two objects, the document with the results Alice and Bob, fed
    whole or in fragments of three code units, makes the machine call
    [onNewEntry] exactly twice, first with Alice and then with Bob, log
    nothing else and end in the final state, the cursor on the closing
    brace of the document. *)
Theorem C2_two_results_whole_or_in_threes
    (JSON_parse : jsstring -> option JSONValue) :
  JSON_parse (json "{'id':1,'name':'Alice'}") = Some alice ->
  JSON_parse (json "{'id':2,'name':'Bob'}") = Some bob ->
  Streaming.run JSON_parse [two_results]
  = Some (mkParser (mkLexer two_results 58) DONE [onNewEntry alice; onNewEntry bob])
  /\ Streaming.run JSON_parse (fragments 3 two_results)
     = Some (mkParser (mkLexer two_results 58) DONE
                      [onNewEntry alice; onNewEntry bob]).
Proof.
  intros HA HB.
  assert (Agree : forall x v,
             decodeTable [(json "{'id':1,'name':'Alice'}", alice);
                          (json "{'id':2,'name':'Bob'}", bob)] x = Some v ->
             JSON_parse x = Some v).
  { intros x v D. apply decodeTable_two in D as [[-> ->]|[-> ->]]; assumption. }
  split.
  - apply (@run_agree JSON_parse _ _ _ Agree); [vm_compute; reflexivity|].
    simpl. intros [H|[H|H]]; [discriminate H|discriminate H|exact H].
  - apply (@run_agree JSON_parse _ _ _ Agree); [vm_compute; reflexivity|].
    simpl. intros [H|[H|H]]; [discriminate H|discriminate H|exact H].
Qed.

Lemma C2_witness :
  Streaming.run JSON.JSON_parse [two_results]
  = Some (mkParser (mkLexer two_results 58) DONE [onNewEntry alice; onNewEntry bob])
  /\ Streaming.run JSON.JSON_parse (fragments 3 two_results)
     = Some (mkParser (mkLexer two_results 58) DONE
                      [onNewEntry alice; onNewEntry bob]).
Proof.
  apply (@C2_two_results_whole_or_in_threes JSON.JSON_parse);
    vm_compute; reflexivity.
Defined.

Example fragments_of_two_results :
  concat (fragments 3 two_results) = two_results
  /\ map (@length _) (fragments 3 two_results) = repeat 3 19 ++ [2].
Proof. split; vm_compute; reflexivity. Qed.

(** C6.  A key that is not a string is skipped like any other key: the
    document that maps the number 1 to the number 2 reaches the final state,
    and the same pair in front of [results] does not stop the element after
    it from being emitted. *)
Theorem C6_non_string_key_is_skipped :
  option_map state (runModel [json "{1:2}"]) = Some DONE
  /\ option_map (fun p => (state p, entries p))
       (runModel [json "{1:2,'results':[{'x':1}]}"])
     = Some (DONE, [JObject [(js "x", JNumber (numberOfZ 1))]]).
Proof. split; vm_compute; reflexivity. Qed.

(* ================================================================== *)
(** * Further properties of the tokenizer *)
(* ================================================================== *)

(** ** Whitespace is skipped once *)

Lemma skipWhitespaceLoop_stop buf : forall fuel pos c,
  length buf - pos <= fuel ->
  nth_error buf (skipWhitespaceLoop fuel buf pos) = Some c -> isSpace c = false.
Proof.
  induction fuel as [|fuel IH]; intros pos c Hf; simpl.
  - rewrite nth_error_past by lia. discriminate.
  - destruct (nth_error buf pos) as [c0|] eqn:E.
    + destruct (isSpace c0) eqn:Sp.
      * apply IH. lia.
      * rewrite E. intros [= <-]. exact Sp.
    + rewrite E. discriminate.
Qed.

Lemma skipWhitespace_idem l : skipWhitespace (skipWhitespace l) = skipWhitespace l.
Proof.
  apply skipWhitespace_stays. intros c. simpl.
  apply skipWhitespaceLoop_stop. unfold remaining. lia.
Qed.

Lemma nextToken_skipWhitespace l : nextToken (skipWhitespace l) = nextToken l.
Proof. unfold nextToken. cbv zeta. rewrite skipWhitespace_idem. reflexivity. Qed.


(** X1.  A call of [nextToken] never changes the buffer, never moves the
    cursor back and never moves it past the end of the buffer; when it
    returns a token the cursor has moved strictly forward. *)
Theorem X1_cursor_stays_inside_the_buffer l token l' :
  position l <= length (buffer l) ->
  nextToken l = (token, l') ->
  buffer l' = buffer l /\
  position l <= position l' /\
  position l' <= length (buffer l') /\
  (token <> None -> position l < position l').
Proof.
  intros Hp H. pose proof (nextToken_follows _ H) as [B P].
  split; [exact B|]. split; [lia|]. split; [rewrite B; lia|].
  destruct token as [t|]; [|congruence].
  intros _. apply nextToken_success in H as (_ & P' & _). exact P'.
Qed.

Lemma X1_witness :
  let l := mkLexer (js " 12,") 0 in
  let l' := mkLexer (js " 12,") 3 in
  buffer l' = buffer l /\
  position l <= position l' /\
  position l' <= length (buffer l') /\
  (Some (number_token (numberOfZ 12)) <> None -> position l < position l').
Proof.
  intros l l'.
  apply (@X1_cursor_stays_inside_the_buffer l (Some (number_token (numberOfZ 12))) l');
    [simpl; lia|vm_compute; reflexivity].
Defined.

(** ** Text appended to the buffer *)

Lemma slice_app (buf chunk : jsstring) from to :
  to <= length buf -> slice (buf ++ chunk) from to = slice buf from to.
Proof.
  intros H. unfold slice. rewrite skipn_app, firstn_app, length_skipn.
  replace (to - from - (length buf - from)) with 0 by lia.
  rewrite firstn_O, app_nil_r. reflexivity.
Qed.

Lemma nth_error_app_some (buf chunk : jsstring) pos c :
  nth_error buf pos = Some c -> nth_error (buf ++ chunk) pos = Some c.
Proof.
  intros H. rewrite nth_error_app1; [exact H|]. eapply nth_error_within; eassumption.
Qed.

Lemma skipWhitespaceLoop_app buf chunk : forall f1 f2 pos,
  skipWhitespaceLoop f1 buf pos < length buf ->
  length buf - pos <= f1 ->
  length (buf ++ chunk) - pos <= f2 ->
  skipWhitespaceLoop f2 (buf ++ chunk) pos = skipWhitespaceLoop f1 buf pos.
Proof.
  induction f1 as [|f1 IH]; intros f2 pos; simpl; [lia|].
  destruct (nth_error buf pos) as [c|] eqn:E.
  - intros Hp H1 H2. pose proof (@nth_error_within _ _ _ E) as W.
    destruct f2 as [|f2]; [rewrite length_app in H2; lia|].
    simpl. rewrite (@nth_error_app_some buf chunk _ _ E).
    destruct (isSpace c); [|reflexivity].
    apply IH; [exact Hp|lia|rewrite length_app in *; lia].
  - intros Hp. apply nth_error_None in E. lia.
Qed.

Lemma skipWhitespace_addChunk l chunk c :
  nth_error (buffer (skipWhitespace l)) (position (skipWhitespace l)) = Some c ->
  skipWhitespace (addChunk l chunk) = addChunk (skipWhitespace l) chunk.
Proof.
  intros H. apply nth_error_within in H. simpl in H.
  unfold skipWhitespace, addChunk, setPosition. simpl. f_equal.
  apply skipWhitespaceLoop_app; [exact H|unfold remaining; lia|].
  unfold remaining. simpl. lia.
Qed.

Lemma readStringLoop_app buf chunk : forall f1 f2 pos result r p,
  readStringLoop f1 buf pos result = Some (r, p) ->
  length (buf ++ chunk) - pos <= f2 ->
  readStringLoop f2 (buf ++ chunk) pos result = Some (r, p).
Proof.
  induction f1 as [|f1 IH]; intros f2 pos result r p; simpl; [discriminate|].
  destruct (nth_error buf pos) as [c|] eqn:E; [|discriminate].
  intros H H2. pose proof (@nth_error_within _ _ _ E) as W.
  destruct f2 as [|f2]; [rewrite length_app in H2; lia|].
  assert (F : length (buf ++ chunk) - (pos + 1) <= f2
              /\ length (buf ++ chunk) - (pos + 2) <= f2
              /\ length (buf ++ chunk) - (pos + 5 + 2) <= f2) by lia.
  destruct F as (F1 & F2 & F7).
  simpl. rewrite (@nth_error_app_some buf chunk _ _ E).
  destruct (N.eqb c c_backslash).
  - destruct (nth_error buf (pos + 1)) as [esc|] eqn:E1; [|discriminate].
    rewrite (@nth_error_app_some buf chunk _ _ E1).
    repeat match goal with
           | H : context [if N.eqb ?a ?b then _ else _] |- _ =>
               destruct (N.eqb a b); [apply IH; assumption|]
           end.
    match type of H with
    | context [if N.eqb ?a ?b then _ else _] =>
        destruct (N.eqb a b); [|apply IH; assumption]
    end.
    destruct (length buf <=? pos + 5) eqn:L; [discriminate|].
    apply Nat.leb_gt in L.
    replace (length (buf ++ chunk) <=? pos + 5) with false
      by (symmetry; apply Nat.leb_gt; rewrite length_app; lia).
    rewrite slice_app by lia.
    destruct (isHex4 _); [apply IH; assumption|discriminate].
  - destruct (N.eqb c c_quote); [exact H|apply IH; assumption].
Qed.

Lemma readString_addChunk l chunk t l' :
  readString l = (Some t, l') ->
  readString (addChunk l chunk) = (Some t, addChunk l' chunk).
Proof.
  unfold readString.
  destruct (readStringLoop _ _ _ _) as [[r p]|] eqn:E; [|discriminate].
  intros [= <- <-]. simpl.
  rewrite (@readStringLoop_app _ chunk _ (remaining (addChunk l chunk)) _ _ _ _ E);
    [reflexivity|].
  unfold remaining. simpl. lia.
Qed.

Lemma readNumberLoop_app buf chunk : forall f1 f2 pos hd dec ex p h,
  readNumberLoop f1 buf pos hd dec ex = (p, h) ->
  p < length buf ->
  length buf - pos <= f1 ->
  length (buf ++ chunk) - pos <= f2 ->
  readNumberLoop f2 (buf ++ chunk) pos hd dec ex = (p, h).
Proof.
  induction f1 as [|f1 IH]; intros f2 pos hd dec ex p h; simpl.
  - intros [= <- <-]. lia.
  - destruct (nth_error buf pos) as [c|] eqn:E.
    2:{ intros [= <- <-] Hp. apply nth_error_None in E. lia. }
    intros H Hp H1 H2. pose proof (@nth_error_within _ _ _ E) as W.
    destruct f2 as [|f2]; [rewrite length_app in H2; lia|].
    simpl. rewrite (@nth_error_app_some buf chunk _ _ E).
    rewrite length_app in H2.
    destruct (isDigit c);
      [apply IH; [assumption|assumption|lia|rewrite length_app; lia]|].
    match type of H with
    | context [if ?b then _ else _] =>
        destruct b;
          [apply IH; [assumption|assumption|lia|rewrite length_app; lia]|]
    end.
    match type of H with
    | context [if ?b then _ else _] => destruct b; [|exact H]
    end.
    destruct (nth_error buf (pos + 1)) as [s|] eqn:E1.
    + rewrite (@nth_error_app_some buf chunk _ _ E1).
      apply IH; [assumption|assumption| |rewrite length_app];
        match goal with
        | |- context [if ?b then _ else _] => destruct b
        end; lia.
    + apply nth_error_None in E1. apply readNumberLoop_bounds in H. lia.
Qed.

Lemma readNumber_addChunk l chunk t l' :
  readNumber l = (Some t, l') ->
  readNumber (addChunk l chunk) = (Some t, addChunk l' chunk).
Proof.
  unfold readNumber.
  destruct (readNumberLoop _ _ _ _ _ _) as [p hd] eqn:E.
  pose proof (@readNumberLoop_bounds _ _ _ _ _ _ _ _ E) as B.
  destruct (p =? length (buffer l)) eqn:L; [discriminate|].
  apply Nat.eqb_neq in L.
  destruct hd; simpl; [|discriminate].
  assert (Hp : p < length (buffer l)) by (destruct B as [[_ B]|B]; [discriminate|lia]).
  rewrite (@readNumberLoop_app _ chunk _ (remaining (addChunk l chunk))
             _ _ _ _ _ _ E);
    [|exact Hp|unfold remaining; lia|unfold remaining; simpl; lia].
  replace (p =? length (buffer l ++ chunk)) with false
    by (symmetry; apply Nat.eqb_neq; rewrite length_app; lia).
  simpl. rewrite slice_app by lia.
  destruct (Number _); [|discriminate].
  intros [= <- <-]. reflexivity.
Qed.

Lemma startsWith_addChunk l chunk s :
  startsWith l s = true -> startsWith (addChunk l chunk) s = true.
Proof.
  destruct s as [|x s]; [intros _; unfold startsWith, slice; simpl;
                         rewrite Nat.add_0_r, Nat.sub_diag; reflexivity|].
  intros H. pose proof H as B. apply startsWith_bounds in B; [|discriminate].
  unfold startsWith in *. simpl buffer. simpl position.
  rewrite slice_app by exact B. exact H.
Qed.

Lemma startsWith_head l x s c :
  startsWith l (x :: s) = true ->
  nth_error (buffer l) (position l) = Some c -> c = x.
Proof.
  unfold startsWith, slice. intros H E.
  apply jsstring_eqb_eq in H.
  apply nth_error_split in E as (a & b & Hb & Ha).
  rewrite Hb, <- Ha in H.
  rewrite skipn_app, Nat.sub_diag, skipn_all in H. simpl in H.
  replace (length a + S (length s) - length a) with (S (length s)) in H by lia.
  simpl in H. congruence.
Qed.

Lemma nextToken_addChunk l chunk t l' :
  nextToken l = (Some t, l') ->
  nextToken (addChunk l chunk) = (Some t, addChunk l' chunk).
Proof.
  rewrite <- (nextToken_skipWhitespace l), <- (nextToken_skipWhitespace (addChunk l chunk)).
  destruct (nth_error (buffer (skipWhitespace l)) (position (skipWhitespace l)))
    as [c|] eqn:E.
  2:{ unfold nextToken. cbv zeta. rewrite skipWhitespace_idem, E. discriminate. }
  rewrite (@skipWhitespace_addChunk l chunk c E).
  assert (Sp : isSpace c = false).
  { revert E. simpl. apply skipWhitespaceLoop_stop. unfold remaining. lia. }
  remember (skipWhitespace l) as l1 eqn:Hl1. clear Hl1 l.
  assert (S1 : skipWhitespace l1 = l1).
  { apply skipWhitespace_stays. intros c0 H0. congruence. }
  assert (E' : nth_error (buffer (addChunk l1 chunk)) (position (addChunk l1 chunk))
               = Some c) by (apply nth_error_app_some; exact E).
  assert (S2 : skipWhitespace (addChunk l1 chunk) = addChunk l1 chunk).
  { apply skipWhitespace_stays. intros c0 H0. congruence. }
  unfold nextToken. cbv zeta. rewrite S1, S2, E, E'.
  repeat match goal with
         | |- context [if N.eqb c ?d then _ else _] =>
             destruct (N.eqb c d); [intros [= <- <-]; reflexivity|]
         end.
  destruct (N.eqb c c_quote); [apply readString_addChunk|].
  destruct (N.eqb c (ch "-") || isDigit c); [apply readNumber_addChunk|].
  destruct (startsWith l1 (js "true")) eqn:T1.
  { rewrite (@startsWith_addChunk _ chunk _ T1). intros [= <- <-]. reflexivity. }
  destruct (startsWith l1 (js "false")) eqn:T2.
  { rewrite (@startsWith_addChunk _ chunk _ T2).
    destruct (startsWith (addChunk l1 chunk) (js "true")) eqn:T1'.
    - pose proof (@startsWith_head _ _ _ _ T1' E') as A.
      pose proof (@startsWith_head _ _ _ _ T2 E) as B. rewrite A in B. discriminate B.
    - intros [= <- <-]. reflexivity. }
  destruct (startsWith l1 (js "null")) eqn:T3; [|discriminate].
  rewrite (@startsWith_addChunk _ chunk _ T3).
  destruct (startsWith (addChunk l1 chunk) (js "true")) eqn:T1'.
  { pose proof (@startsWith_head _ _ _ _ T1' E') as A.
    pose proof (@startsWith_head _ _ _ _ T3 E) as B. rewrite A in B. discriminate B. }
  destruct (startsWith (addChunk l1 chunk) (js "false")) eqn:T2'.
  { pose proof (@startsWith_head _ _ _ _ T2' E') as A.
    pose proof (@startsWith_head _ _ _ _ T3 E) as B. rewrite A in B. discriminate B. }
  intros [= <- <-]. reflexivity.
Qed.


(** X2.  A token that [nextToken] has returned is final: on the buffer
    with any further chunk appended, the same call returns the same token
    and leaves the cursor at the same position. *)
Theorem X2_token_is_not_changed_by_later_text l token l' chunk :
  nextToken l = (Some token, l') ->
  nextToken (addChunk l chunk) = (Some token, addChunk l' chunk).
Proof. apply nextToken_addChunk. Qed.

Lemma X2_witness :
  nextToken (addChunk (mkLexer (js "12,") 0) (js "3]"))
  = (Some (number_token (numberOfZ 12)), addChunk (mkLexer (js "12,") 2) (js "3]")).
Proof.
  apply X2_token_is_not_changed_by_later_text. vm_compute. reflexivity.
Defined.

(** ** A failed attempt and the text that arrives after it *)

Lemma skipWhitespaceLoop_resume buf chunk : forall f1 f2 f3 pos,
  length buf - pos <= f1 ->
  length (buf ++ chunk) - pos <= f3 ->
  length (buf ++ chunk) - skipWhitespaceLoop f1 buf pos <= f2 ->
  skipWhitespaceLoop f2 (buf ++ chunk) (skipWhitespaceLoop f1 buf pos)
  = skipWhitespaceLoop f3 (buf ++ chunk) pos.
Proof.
  induction f1 as [|f1 IH]; intros f2 f3 pos H1 H3; simpl.
  - intros H2. apply skipWhitespaceLoop_fuel; assumption.
  - destruct (nth_error buf pos) as [c|] eqn:E;
      [|intros H2; apply skipWhitespaceLoop_fuel; assumption].
    destruct (isSpace c) eqn:Sp;
      [|intros H2; apply skipWhitespaceLoop_fuel; assumption].
    intros H2. pose proof (@nth_error_within _ _ _ E) as W.
    destruct f3 as [|f3]; [rewrite length_app in H3; lia|].
    simpl. rewrite (@nth_error_app_some buf chunk _ _ E), Sp.
    apply IH; [lia|lia|exact H2].
Qed.

Lemma skipWhitespace_resume l chunk :
  skipWhitespace (addChunk (skipWhitespace l) chunk)
  = skipWhitespace (addChunk l chunk).
Proof.
  unfold skipWhitespace, addChunk, setPosition, remaining.
  cbn [buffer position]. f_equal.
  apply skipWhitespaceLoop_resume; lia.
Qed.


(** X3.  A call of [nextToken] that returns [null] leaves no trace but
    the skipped whitespace: calling again at once returns [null] again
    with the lexer unchanged, and once a chunk has been added the next
    call returns what it would have returned had the failed call never
    been made. *)
Theorem X3_failed_attempt_leaves_no_trace l l' chunk :
  nextToken l = (None, l') ->
  nextToken l' = (None, l') /\
  nextToken (addChunk l' chunk) = nextToken (addChunk l chunk).
Proof.
  intros H. pose proof (nextToken_failure _ H) as ->. split.
  - rewrite nextToken_skipWhitespace. exact H.
  - rewrite <- (nextToken_skipWhitespace (addChunk (skipWhitespace l) chunk)),
            <- (nextToken_skipWhitespace (addChunk l chunk)).
    rewrite skipWhitespace_resume. reflexivity.
Qed.

Lemma X3_witness :
  let l := mkLexer (json " 'ab") 0 in
  let l' := mkLexer (json " 'ab") 1 in
  nextToken l' = (None, l') /\
  nextToken (addChunk l' (json "c'")) = nextToken (addChunk l (json "c'")).
Proof.
  intros l l'.
  apply (@X3_failed_attempt_leaves_no_trace l l' (json "c'")).
  vm_compute. reflexivity.
Defined.

(** ** The text in front of the cursor is not read *)

Lemma nth_error_shift (a s : jsstring) i :
  nth_error (a ++ s) (length a + i) = nth_error s i.
Proof. rewrite nth_error_app2 by lia. f_equal. lia. Qed.

Lemma slice_shift (a s : jsstring) i j :
  slice (a ++ s) (length a + i) (length a + j) = slice s i j.
Proof.
  unfold slice. rewrite skipn_app, skipn_all2 by lia. simpl.
  f_equal; [lia|f_equal; lia].
Qed.

Lemma skipWhitespaceLoop_shift a s : forall fuel i,
  skipWhitespaceLoop fuel (a ++ s) (length a + i)
  = length a + skipWhitespaceLoop fuel s i.
Proof.
  induction fuel as [|fuel IH]; intros i; simpl; [reflexivity|].
  rewrite nth_error_shift. destruct (nth_error s i) as [c|]; [|reflexivity].
  destruct (isSpace c); [|reflexivity].
  rewrite <- Nat.add_assoc. apply IH.
Qed.

Lemma readStringLoop_shift a s : forall fuel i result,
  readStringLoop fuel (a ++ s) (length a + i) result
  = match readStringLoop fuel s i result with
    | Some (value, p) => Some (value, length a + p)
    | None => None
    end.
Proof.
  induction fuel as [|fuel IH]; intros i result; simpl; [reflexivity|].
  rewrite nth_error_shift. destruct (nth_error s i) as [c|]; [|reflexivity].
  replace (length a + i + 1) with (length a + (i + 1)) by lia.
  replace (length a + i + 2) with (length a + (i + 2)) by lia.
  replace (length a + i + 5 + 2) with (length a + (i + 5 + 2)) by lia.
  replace (length a + i + 6) with (length a + (i + 6)) by lia.
  replace (length (a ++ s) <=? length a + i + 5) with (length s <=? i + 5)
    by (rewrite length_app; destruct (Nat.leb_spec (length s) (i + 5));
        symmetry; [apply Nat.leb_le|apply Nat.leb_gt]; lia).
  rewrite nth_error_shift, slice_shift.
  destruct (nth_error s (i + 1)) as [esc|];
    repeat match goal with
           | |- context [if ?b then _ else _] => destruct b
           end; try reflexivity; apply IH.
Qed.

Lemma readNumberLoop_shift a s : forall fuel i hd dec ex,
  readNumberLoop fuel (a ++ s) (length a + i) hd dec ex
  = (length a + fst (readNumberLoop fuel s i hd dec ex),
     snd (readNumberLoop fuel s i hd dec ex)).
Proof.
  induction fuel as [|fuel IH]; intros i hd dec ex; simpl; [reflexivity|].
  rewrite nth_error_shift. destruct (nth_error s i) as [c|]; [|reflexivity].
  replace (length a + i + 1) with (length a + (i + 1)) by lia.
  rewrite nth_error_shift.
  destruct (isDigit c); [apply IH|].
  match goal with
  | |- context [if ?b then _ else _] => destruct b; [apply IH|]
  end.
  match goal with
  | |- context [if ?b then _ else _] => destruct b; [|reflexivity]
  end.
  destruct (nth_error s (i + 1)) as [g|]; [|apply IH].
  match goal with
  | |- context [if ?b then _ else _] => destruct b; [|apply IH]
  end.
  replace (length a + (i + 1) + 1) with (length a + (i + 1 + 1)) by lia.
  apply IH.
Qed.

Lemma remaining_shift a l : remaining (shiftLexer a l) = remaining l.
Proof. unfold remaining, shiftLexer. simpl. rewrite length_app. lia. Qed.

Lemma skipWhitespace_shift a l :
  skipWhitespace (shiftLexer a l) = shiftLexer a (skipWhitespace l).
Proof.
  unfold skipWhitespace. rewrite remaining_shift.
  unfold shiftLexer, setPosition. simpl. f_equal.
  apply skipWhitespaceLoop_shift.
Qed.

Lemma readString_shift a l :
  readString (shiftLexer a l)
  = (fst (readString l), shiftLexer a (snd (readString l))).
Proof.
  unfold readString. rewrite remaining_shift.
  unfold shiftLexer. cbn [buffer position].
  rewrite <- Nat.add_assoc, readStringLoop_shift.
  destruct (readStringLoop _ _ _ _) as [[v p]|]; reflexivity.
Qed.

Lemma readNumber_shift a l :
  readNumber (shiftLexer a l)
  = (fst (readNumber l), shiftLexer a (snd (readNumber l))).
Proof.
  unfold readNumber. rewrite remaining_shift.
  unfold shiftLexer. cbn [buffer position].
  rewrite readNumberLoop_shift.
  destruct (readNumberLoop _ _ _ _ _ _) as [p hd]. cbn [fst snd].
  replace (length a + p =? length (a ++ buffer l)) with (p =? length (buffer l))
    by (rewrite length_app; destruct (Nat.eqb_spec p (length (buffer l)));
        symmetry; [apply Nat.eqb_eq|apply Nat.eqb_neq]; lia).
  destruct (p =? length (buffer l)); [reflexivity|].
  destruct hd; [|reflexivity]. cbn [negb].
  rewrite slice_shift. destruct (Number _); reflexivity.
Qed.

Lemma startsWith_shift a l s :
  startsWith (shiftLexer a l) s = startsWith l s.
Proof.
  unfold startsWith, shiftLexer. cbn [buffer position].
  rewrite <- Nat.add_assoc, slice_shift. reflexivity.
Qed.

Lemma nextToken_shift a l :
  nextToken (shiftLexer a l)
  = (fst (nextToken l), shiftLexer a (snd (nextToken l))).
Proof.
  unfold nextToken. cbv zeta. rewrite skipWhitespace_shift.
  remember (skipWhitespace l) as l1 eqn:Hl1. clear Hl1 l.
  unfold shiftLexer at 1 2. cbn [buffer position]. rewrite nth_error_shift.
  destruct (nth_error (buffer l1) (position l1)) as [c|]; [|reflexivity].
  fold (shiftLexer a l1).
  rewrite readString_shift, readNumber_shift, !startsWith_shift.
  repeat match goal with
         | |- context [if ?b then _ else _] => destruct b
         end; try reflexivity;
    cbn [fst snd]; unfold shiftLexer, setPosition; cbn [buffer position];
    f_equal; f_equal; lia.
Qed.

Lemma nextToken_front front s :
  nextToken (mkLexer (front ++ s) (length front))
  = (fst (nextToken (mkLexer s 0)),
     mkLexer (front ++ s)
             (length front + position (snd (nextToken (mkLexer s 0))))).
Proof.
  replace (mkLexer (front ++ s) (length front))
    with (shiftLexer front (mkLexer s 0))
    by (unfold shiftLexer; simpl; rewrite Nat.add_0_r; reflexivity).
  rewrite nextToken_shift. f_equal. unfold shiftLexer. f_equal.
  destruct (nextToken (mkLexer s 0)) as [o l'] eqn:E.
  apply nextToken_follows in E as [B _]. simpl. rewrite B. reflexivity.
Qed.


(** X4.  What [nextToken] returns, and how far it moves the cursor,
    depends only on the text from the cursor on: with any text [front]
    before the cursor the token is the one read from the rest alone, and
    the cursor moves by as much. *)
Theorem X4_token_depends_on_the_text_from_the_cursor (front s : jsstring) :
  nextToken (mkLexer (front ++ s) (length front))
  = (fst (nextToken (mkLexer s 0)),
     mkLexer (front ++ s)
             (length front + position (snd (nextToken (mkLexer s 0))))).
Proof. apply nextToken_front. Qed.

(** ** Whitespace in front of a token *)

Lemma skipWhitespaceLoop_over : forall ws a b f1 f2,
  Forall (fun c => isSpace c = true) ws ->
  length (ws ++ b) <= f1 -> length b <= f2 ->
  skipWhitespaceLoop f1 (a ++ ws ++ b) (length a)
  = skipWhitespaceLoop f2 (a ++ ws ++ b) (length a + length ws).
Proof.
  induction ws as [|w ws IH]; intros a b f1 f2 Hws H1 H2.
  - cbn [app length]. rewrite Nat.add_0_r.
    apply skipWhitespaceLoop_fuel; rewrite length_app; simpl in *; lia.
  - inversion Hws as [|? ? Hw Hws']; subst.
    destruct f1 as [|f1]; [simpl in H1; lia|].
    cbn [skipWhitespaceLoop app]. rewrite nth_error_middle, Hw.
    replace (a ++ w :: ws ++ b) with ((a ++ [w]) ++ ws ++ b)
      by (rewrite <- app_assoc; reflexivity).
    replace (length a + 1) with (length (a ++ [w])) by list_length.
    rewrite (IH (a ++ [w]) b f1 f2); [|assumption|simpl in H1; lia|assumption].
    f_equal. list_length.
Qed.


(** X5.  Whitespace at the cursor (any code units that [\s] matches) does
    not change the token: the call returns what it returns on the text
    after the whitespace, with the cursor further by the length of the
    whitespace. *)
Theorem X5_whitespace_before_a_token_is_skipped (front ws s : jsstring) :
  Forall (fun c => isSpace c = true) ws ->
  nextToken (mkLexer (front ++ ws ++ s) (length front))
  = (fst (nextToken (mkLexer s 0)),
     mkLexer (front ++ ws ++ s)
             (length front + length ws + position (snd (nextToken (mkLexer s 0))))).
Proof.
  intros Hws. rewrite nextToken_front.
  assert (S1 : skipWhitespace (mkLexer (ws ++ s) 0)
               = skipWhitespace (mkLexer (ws ++ s) (length ws))).
  { unfold skipWhitespace, setPosition, remaining. cbn [buffer position]. f_equal.
    apply (@skipWhitespaceLoop_over ws [] s); [assumption|lia|].
    rewrite length_app. lia. }
  rewrite <- (nextToken_skipWhitespace (mkLexer (ws ++ s) 0)), S1,
    nextToken_skipWhitespace, nextToken_front.
  cbn [fst snd position]. f_equal. f_equal. lia.
Qed.

Lemma X5_witness :
  nextToken (mkLexer (js "[" ++ js "  " ++ js "true]") (length (js "[")))
  = (fst (nextToken (mkLexer (js "true]") 0)),
     mkLexer (js "[" ++ js "  " ++ js "true]")
             (length (js "[") + length (js "  ")
              + position (snd (nextToken (mkLexer (js "true]") 0))))).
Proof.
  apply X5_whitespace_before_a_token_is_skipped.
  repeat constructor.
Defined.

(** ** The loop of [readString] on the text after the opening quote *)

Lemma past_past n m r : past n (past m r) = past (n + m) r.
Proof. destruct r as [[v p]|]; simpl; [|reflexivity]. f_equal. f_equal. lia. Qed.

Lemma readStringLoop_stringRun s : forall fuel i result,
  length s - i <= fuel ->
  readStringLoop fuel s i result = past i (stringRun (skipn i s) result).
Proof.
  induction fuel as [|fuel IH]; intros i result Hf.
  - rewrite skipn_all2 by lia. reflexivity.
  - cbn [readStringLoop].
    pose proof (nth_error_skipn i s 0) as N0.
    pose proof (nth_error_skipn i s 1) as N1.
    pose proof (skipn_skipn 1 i s) as K1.
    pose proof (skipn_skipn 2 i s) as K2.
    pose proof (skipn_skipn 7 i s) as K7.
    pose proof (length_skipn i s) as L.
    assert (SL : slice s (i + 2) (i + 6) = firstn 4 (skipn 2 (skipn i s))).
    { unfold slice. rewrite skipn_skipn. f_equal; [lia|f_equal; lia]. }
    rewrite Nat.add_0_r in N0.
    rewrite !(Nat.add_comm _ i) in *.
    rewrite <- N0, <- N1, SL.
    replace (i + 5 + 2) with (i + 7) by lia.
    replace (length s <=? i + 5) with (length (skipn i s) <=? 5)
      by (rewrite L; destruct (Nat.leb_spec (length s) (i + 5));
          [apply Nat.leb_le|apply Nat.leb_gt]; lia).
    clear N0 N1 L SL.
    destruct (skipn i s) as [|c s1]; [reflexivity|].
    cbn [nth_error stringRun].
    destruct (N.eqb c c_backslash).
    + destruct s1 as [|esc s2]; [reflexivity|]. cbn [nth_error skipn] in *.
      unfold escapeOf.
      repeat match goal with
             | |- context [if N.eqb esc ?d then _ else _] =>
                 let H := fresh in
                 destruct (N.eqb esc d) eqn:H;
                 [apply N.eqb_eq in H; subst esc; cbn;
                  rewrite IH, <- K2, past_past by lia; reflexivity|]
             end.
      destruct (N.eqb esc (ch "u"));
        [|rewrite IH, <- K2, past_past by lia; reflexivity].
      destruct s2 as [|h1 [|h2 [|h3 [|h4 s3]]]]; try reflexivity.
      cbn [length Nat.leb skipn firstn] in *.
      destruct (isHex4 [h1; h2; h3; h4]); [|reflexivity].
      rewrite IH, <- K7 by lia.
      destruct s3 as [|x s4]; [reflexivity|]. rewrite past_past. reflexivity.
    + destruct (N.eqb c c_quote); [simpl; f_equal; f_equal; lia|].
      cbn [skipn] in *. rewrite IH, <- K1, past_past by lia. reflexivity.
Qed.

Lemma nextToken_stringRun front s :
  nextToken (mkLexer (front ++ c_quote :: s) (length front))
  = match stringRun s [] with
    | Some (value, n) =>
        (Some (string_token value),
         mkLexer (front ++ c_quote :: s) (length front + 1 + n))
    | None => (None, mkLexer (front ++ c_quote :: s) (length front))
    end.
Proof.
  rewrite nextToken_quote by apply nth_error_middle.
  unfold readString, remaining. cbn [buffer position].
  rewrite readStringLoop_stringRun by lia.
  replace (skipn (length front + 1) (front ++ c_quote :: s)) with s.
  - destruct (stringRun s []) as [[v n]|]; reflexivity.
  - replace (front ++ c_quote :: s) with ((front ++ [c_quote]) ++ s)
      by (rewrite <- app_assoc; reflexivity).
    rewrite skipn_app, skipn_all2 by (rewrite length_app; simpl; lia).
    rewrite length_app. simpl.
    replace (length front + 1 - (length front + 1)) with 0 by lia. reflexivity.
Qed.

Lemma stringRun_plain_run : forall pre b result,
  Forall (fun x => x <> c_quote /\ x <> c_backslash) pre ->
  stringRun (pre ++ b) result = past (length pre) (stringRun b (result ++ pre)).
Proof.
  induction pre as [|x pre IH]; intros b result Hp.
  - rewrite app_nil_r. simpl. destruct (stringRun b result) as [[v p]|]; reflexivity.
  - inversion Hp as [|? ? [Hq Hb] Hp']; subst.
    apply N.eqb_neq in Hq, Hb.
    cbn [app stringRun]. rewrite Hq, Hb.
    rewrite IH by assumption. rewrite past_past, <- app_assoc. reflexivity.
Qed.

Lemma stringRun_no_quote : forall n s result,
  length s <= n -> ~ In c_quote s -> stringRun s result = None.
Proof.
  induction n as [|n IH]; intros s result Hn Hq.
  - destruct s; [reflexivity|simpl in Hn; lia].
  - destruct s as [|c s1]; [reflexivity|]. cbn [stringRun].
    simpl in Hn, Hq.
    destruct (N.eqb c c_backslash).
    + destruct s1 as [|esc s2]; [reflexivity|]. simpl in Hn, Hq.
      destruct (N.eqb esc (ch "u")).
      * destruct s2 as [|h1 [|h2 [|h3 [|h4 s3]]]]; try reflexivity.
        destruct (isHex4 _); [|reflexivity].
        destruct s3 as [|x s4]; [reflexivity|].
        rewrite IH; [reflexivity|simpl in Hn; lia|simpl in Hq; tauto].
      * rewrite IH; [reflexivity|lia|tauto].
    + destruct (N.eqb c c_quote) eqn:Q.
      * apply N.eqb_eq in Q. exfalso. apply Hq. left. exact Q.
      * rewrite IH; [reflexivity|lia|tauto].
Qed.

Lemma hex4_inv (hex : jsstring) :
  length hex = 4 -> exists h1 h2 h3 h4, hex = [h1; h2; h3; h4].
Proof.
  destruct hex as [|h1 [|h2 [|h3 [|h4 [|]]]]]; try discriminate.
  intros _. do 4 eexists. reflexivity.
Qed.


(** X6.  A string with no double quote and no backslash between its
    quotes is read as one string token whose value is the text between the
    quotes, with the cursor after the closing quote, whatever follows. *)
Theorem X6_plain_string_is_read_as_its_text (front text rest : jsstring) :
  Forall (fun x => x <> c_quote /\ x <> c_backslash) text ->
  nextToken (mkLexer (front ++ c_quote :: text ++ c_quote :: rest) (length front))
  = (Some (string_token text),
     mkLexer (front ++ c_quote :: text ++ c_quote :: rest)
             (length front + length text + 2)).
Proof.
  intros Hp. rewrite nextToken_stringRun, stringRun_plain_run by assumption.
  cbn. f_equal. f_equal. lia.
Qed.

Lemma X6_witness :
  nextToken (mkLexer (js "{" ++ c_quote :: js "a}b" ++ c_quote :: js ":1")
                     (length (js "{")))
  = (Some (string_token (js "a}b")),
     mkLexer (js "{" ++ c_quote :: js "a}b" ++ c_quote :: js ":1")
             (length (js "{") + length (js "a}b") + 2)).
Proof.
  apply X6_plain_string_is_read_as_its_text.
  repeat constructor; discriminate.
Defined.


(** X7.  An opening double quote with no double quote after it in the
    buffer yields no token, and the cursor stays on the opening quote. *)
Theorem X7_string_without_closing_quote_yields_no_token (front s : jsstring) :
  ~ In c_quote s ->
  nextToken (mkLexer (front ++ c_quote :: s) (length front))
  = (None, mkLexer (front ++ c_quote :: s) (length front)).
Proof.
  intros Hq. rewrite nextToken_stringRun.
  rewrite (@stringRun_no_quote (length s)); [reflexivity|lia|exact Hq].
Qed.

Lemma X7_witness :
  nextToken (mkLexer (js "[" ++ c_quote :: js "ab,") (length (js "[")))
  = (None, mkLexer (js "[" ++ c_quote :: js "ab,") (length (js "["))).
Proof.
  apply X7_string_without_closing_quote_yields_no_token.
  cbn. intros [H|[H|[H|[]]]]; discriminate H.
Defined.


(** X8.  In a string, backslash, u and four hexadecimal digits are read
    as the code unit the digits denote, and the code unit that follows the
    four digits is dropped, whatever it is (a double quote included): the
    cursor moves by seven code units for the six of the escape. *)
Theorem X8_unicode_escape_takes_the_next_code_unit
    (front pre hex post rest : jsstring) (x : char) :
  Forall (fun c => c <> c_quote /\ c <> c_backslash) pre ->
  Forall (fun c => c <> c_quote /\ c <> c_backslash) post ->
  isHex4 hex = true ->
  let buf := front ++ c_quote :: pre ++ c_backslash :: ch "u" :: hex
                   ++ x :: post ++ c_quote :: rest in
  nextToken (mkLexer buf (length front))
  = (Some (string_token (pre ++ parseHex hex :: post)),
     mkLexer buf (length front + length pre + length post + 9)).
Proof.
  intros Hpre Hpost Hhex buf. unfold buf.
  rewrite nextToken_stringRun, stringRun_plain_run by assumption.
  assert (L : length hex = 4).
  { unfold isHex4 in Hhex. apply andb_true_iff in Hhex as [L _].
    apply Nat.eqb_eq. exact L. }
  destruct (hex4_inv _ L) as (h1 & h2 & h3 & h4 & ->).
  cbn [app stringRun].
  change (N.eqb c_backslash c_backslash) with true.
  change (N.eqb (ch "u") (ch "u")) with true. cbv iota.
  rewrite Hhex, stringRun_plain_run by assumption.
  cbn [stringRun].
  change (N.eqb c_quote c_backslash) with false.
  change (N.eqb c_quote c_quote) with true. cbv iota.
  cbn [past app]. rewrite <- app_assoc. cbn [app].
  f_equal. f_equal. lia.
Qed.

Lemma X8_witness :
  let buf := [] ++ c_quote :: js "a" ++ c_backslash :: ch "u" :: js "0041"
                ++ c_quote :: js "b" ++ c_quote :: js "," in
  nextToken (mkLexer buf (length (@nil char)))
  = (Some (string_token (js "a" ++ parseHex (js "0041") :: js "b")),
     mkLexer buf (length (@nil char) + length (js "a") + length (js "b") + 9)).
Proof.
  apply X8_unicode_escape_takes_the_next_code_unit;
    [repeat constructor; discriminate..|reflexivity].
Defined.


(** X9.  In a string, backslash and u followed by four code units that
    are not all hexadecimal digits make the string yield no token, whatever
    follows: no later chunk changes that. *)
Theorem X9_unicode_escape_without_four_hex_digits_yields_no_token
    (front pre hex rest : jsstring) :
  Forall (fun c => c <> c_quote /\ c <> c_backslash) pre ->
  length hex = 4 ->
  isHex4 hex = false ->
  let buf := front ++ c_quote :: pre ++ c_backslash :: ch "u" :: hex ++ rest in
  nextToken (mkLexer buf (length front)) = (None, mkLexer buf (length front)).
Proof.
  intros Hpre L Hhex buf. unfold buf.
  rewrite nextToken_stringRun, stringRun_plain_run by assumption.
  destruct (hex4_inv _ L) as (h1 & h2 & h3 & h4 & ->).
  cbn [app stringRun].
  change (N.eqb c_backslash c_backslash) with true.
  change (N.eqb (ch "u") (ch "u")) with true. cbv iota.
  rewrite Hhex. reflexivity.
Qed.

Lemma X9_witness :
  let buf := [] ++ c_quote :: js "a" ++ c_backslash :: ch "u" :: js "00g0"
                ++ c_quote :: js "," in
  nextToken (mkLexer buf (length (@nil char)))
  = (None, mkLexer buf (length (@nil char))).
Proof.
  apply X9_unicode_escape_without_four_hex_digits_yields_no_token;
    [repeat constructor; discriminate|reflexivity|reflexivity].
Defined.

(** ** The character after a backslash *)

Lemma stringRun_unicode_refused (hex tail result : jsstring) :
  length hex = 4 ->
  isHex4 hex = false ->
  stringRun (c_backslash :: ch "u" :: hex ++ tail) result = None.
Proof.
  intros L Hhex.
  destruct (hex4_inv _ L) as (h1 & h2 & h3 & h4 & ->).
  cbn [app stringRun].
  change (N.eqb c_backslash c_backslash) with true.
  change (N.eqb (ch "u") (ch "u")) with true. cbv iota.
  rewrite Hhex. reflexivity.
Qed.

(** C10 (amended).  For every code unit [c] other than n, the double
    quote, the backslash, b, f, r, t and u, a string that holds the two
    code units backslash and [c] among plain characters is read as one
    string token in which the pair has become the single code unit [c].
    No character other than u after a backslash makes the lexer refuse the
    string: for every [c'] other than u the string is a token.  The
    character u does: when the four code units after it are not all
    hexadecimal digits the string yields no token, whatever follows.  The
    text of a string with the escape backslash-x, which [JSON.parse]
    rejects, is a string token for the lexer. *)
Theorem C10_other_escapes_decode_to_the_escaped_character
    (front pre post rest : jsstring) (c : char) :
  ~ In c [ch "n"; c_quote; c_backslash; ch "b"; ch "f"; ch "r"; ch "t"; ch "u"] ->
  Forall (fun x => x <> c_quote /\ x <> c_backslash) pre ->
  Forall (fun x => x <> c_quote /\ x <> c_backslash) post ->
  let text c' := front ++ c_quote :: pre ++ c_backslash :: c' :: post ++ c_quote :: rest in
  nextToken (mkLexer (text c) (length front))
  = (Some (string_token (pre ++ c :: post)),
     mkLexer (text c) (length front + length pre + length post + 4))
  /\ (forall c', c' <> ch "u" ->
        nextToken (mkLexer (text c') (length front))
        = (Some (string_token (pre ++ escapeOf c' :: post)),
           mkLexer (text c') (length front + length pre + length post + 4)))
  /\ JSON.JSON_parse [c_quote; c_backslash; ch "x"; c_quote] = None
  /\ (forall hex tail : jsstring,
        length hex = 4 ->
        isHex4 hex = false ->
        let refused :=
          front ++ c_quote :: pre ++ c_backslash :: ch "u" :: hex ++ tail in
        nextToken (mkLexer refused (length front))
        = (None, mkLexer refused (length front))).
Proof.
  intros Hc Hpre Hpost text.
  destruct (escapeOf_other Hc) as [Hsame Hu].
  split; [|split; [|split]].
  - rewrite <- Hsame at 2.
    apply nextToken_string_with_escape; assumption.
  - intros c' Hc'. apply nextToken_string_with_escape; assumption.
  - reflexivity.
  - intros hex tail L Hhex refused. unfold refused.
    rewrite nextToken_stringRun, stringRun_plain_run by assumption.
    rewrite stringRun_unicode_refused by assumption. reflexivity.
Qed.

Lemma C10_witness :
  let text c' := c_quote :: js "a" ++ c_backslash :: c' :: js "b" ++ c_quote :: js "," in
  nextToken (mkLexer (text (ch "/")) 0)
  = (Some (string_token (js "a/b")), mkLexer (text (ch "/")) 6)
  /\ (forall c', c' <> ch "u" ->
        nextToken (mkLexer (text c') 0)
        = (Some (string_token (js "a" ++ escapeOf c' :: js "b")),
           mkLexer (text c') 6))
  /\ JSON.JSON_parse [c_quote; c_backslash; ch "x"; c_quote] = None
  /\ (forall hex tail : jsstring,
        length hex = 4 ->
        isHex4 hex = false ->
        let refused :=
          c_quote :: js "a" ++ c_backslash :: ch "u" :: hex ++ tail in
        nextToken (mkLexer refused 0) = (None, mkLexer refused 0)).
Proof.
  apply (@C10_other_escapes_decode_to_the_escaped_character
           [] (js "a") (js "b") (js ",") (ch "/")).
  - simpl. intros H.
    repeat (destruct H as [H|H]; [discriminate H|]). exact H.
  - repeat constructor; discriminate.
  - repeat constructor; discriminate.
Defined.

(** C10, as stated, fails at u: the string with backslash, u and the four
    code units 00g0 yields no token, where the same text with x for u is a
    string token; and the string with backslash, u and 0041, which
    [JSON.parse] reads as the one letter A, yields no token either when a
    comma ends the buffer, its closing quote having been taken with the
    escape. *)
Lemma C10_counterexample :
  nextToken (mkLexer (json "'a\u00g0',") 0)
  = (None, mkLexer (json "'a\u00g0',") 0)
  /\ nextToken (mkLexer (json "'a\x00g0',") 0)
     = (Some (string_token (js "ax00g0")), mkLexer (json "'a\x00g0',") 9)
  /\ nextToken (mkLexer (json "'\u0041',") 0)
     = (None, mkLexer (json "'\u0041',") 0)
  /\ JSON.JSON_parse (json "'\u0041'") = Some (JString (js "A")).
Proof. repeat split; vm_compute; reflexivity. Qed.

(** ** Every run the loop of [readNumber] accepts is a number *)

Lemma numberRun_length s hd dec ex : fst (numberRun s hd dec ex) <= length s.
Proof.
  pose proof (@readNumberLoop_numberRun (length s) s [] hd dec ex (le_n _)) as H.
  cbn [app length Nat.add] in H.
  apply readNumberLoop_bounds in H. lia.
Qed.

Lemma firstn_nonempty (s : jsstring) n :
  0 < n -> n <= length s -> firstn n s <> [].
Proof.
  intros H1 H2 E. apply (f_equal (@length _)) in E.
  rewrite length_firstn in E. simpl in E. lia.
Qed.

(** After the exponent marker the loop takes digits only. *)
Lemma numberRun_after_exponent : forall s hd dec n h,
  numberRun s hd dec true = (n, h) ->
  allDigits (firstn n s) /\ (h = true -> hd = true \/ 0 < n).
Proof.
  induction s as [|c s IH]; intros hd dec n h; cbn [numberRun].
  - intros [= <- <-]. split; [constructor|auto].
  - destruct (isDigit c) eqn:D.
    + destruct (numberRun s true dec true) as [n' h'] eqn:R.
      intros [= <- <-]. apply IH in R as [A _].
      split; [constructor; assumption|intros _; right; lia].
    + rewrite !andb_false_r. cbn [andb].
      intros [= <- <-]. split; [constructor|auto].
Qed.

Lemma numberRun_exponent_inv e s dec n :
  e = ch "e" \/ e = ch "E" ->
  numberRun (e :: s) true dec false = (n, true) ->
  isExponent (firstn n (e :: s)) /\ firstn n (e :: s) <> [].
Proof.
  intros He. rewrite numberRun_exponent_step by assumption.
  destruct s as [|g s']; [discriminate|].
  destruct (N.eqb g (ch "+") || N.eqb g (ch "-")) eqn:G.
  - pose proof (numberRun_length s' false dec true) as L.
    destruct (numberRun s' false dec true) as [n' h'] eqn:R.
    intros [= <- ->]. apply numberRun_after_exponent in R as [A P].
    destruct (P eq_refl) as [P'|P']; [discriminate|].
    split; [|discriminate]. right. exists e, [g], (firstn n' s').
    split; [assumption|]. split.
    + apply orb_true_iff in G as [G|G]; apply N.eqb_eq in G; subst; auto.
    + split; [|reflexivity]. split; [|exact A].
      apply firstn_nonempty; [exact P'|exact L].
  - pose proof (numberRun_length (g :: s') false dec true) as L.
    destruct (numberRun (g :: s') false dec true) as [n' h'] eqn:R.
    intros [= <- ->]. apply numberRun_after_exponent in R as [A P].
    destruct (P eq_refl) as [P'|P']; [discriminate|].
    split; [|discriminate]. right. exists e, [], (firstn n' (g :: s')).
    split; [assumption|]. split; [auto|].
    split; [|reflexivity]. split; [|exact A].
    apply firstn_nonempty; [exact P'|exact L].
Qed.

Lemma exponent_marker c (b1 b2 : bool) :
  (N.eqb c (ch "e") || N.eqb c (ch "E")) && b1 && b2 = true ->
  c = ch "e" \/ c = ch "E".
Proof.
  intros H. apply andb_true_iff in H as [H _]. apply andb_true_iff in H as [H _].
  apply orb_true_iff in H as [H|H]; apply N.eqb_eq in H; auto.
Qed.

(** After the decimal point: digits, then an exponent or nothing. *)
Lemma numberRun_after_point : forall s n,
  numberRun s true true false = (n, true) ->
  exists fp tail,
    firstn n s = fp ++ tail /\ allDigits fp /\ isExponent tail.
Proof.
  induction s as [|c s IH]; intros n.
  - intros [= <-]. exists [], []. repeat split; [constructor|left; reflexivity].
  - cbn [numberRun]. destruct (isDigit c) eqn:D.
    + destruct (numberRun s true true false) as [n' h'] eqn:R.
      intros [= <- ->]. destruct (IH _ eq_refl) as (fp & tail & F & A & E).
      exists (c :: fp), tail. cbn [firstn app]. rewrite F.
      repeat split; [constructor; assumption|exact E].
    + rewrite andb_false_r. cbn [negb andb].
      destruct ((N.eqb c (ch "e") || N.eqb c (ch "E")) && true && true) eqn:X.
      * apply exponent_marker in X.
        change (match s with
                | [] => (1, false)
                | g :: s'' =>
                    if N.eqb g (ch "+") || N.eqb g (ch "-")
                    then let '(n, h) := numberRun s'' false true true in (S (S n), h)
                    else let '(n, h) := numberRun s false true true in (S n, h)
                end = (n, true) ->
                exists fp tail,
                  firstn n (c :: s) = fp ++ tail /\ allDigits fp /\ isExponent tail).
        rewrite <- (numberRun_exponent_step s true X).
        intros R. apply numberRun_exponent_inv in R as [E _]; [|exact X].
        exists [], (firstn n (c :: s)). repeat split; [constructor|exact E].
      * intros [= <-]. exists [], [].
        repeat split; [constructor|left; reflexivity].
Qed.

(** After a first digit: digits, then a point and what follows it, or an
    exponent, or nothing. *)
Lemma numberRun_after_digit : forall s n,
  numberRun s true false false = (n, true) ->
  exists ip rest,
    firstn n s = ip ++ rest /\ allDigits ip /\
    (isExponent rest \/
     exists fp tail, rest = ch "." :: fp ++ tail /\ allDigits fp /\ isExponent tail).
Proof.
  induction s as [|c s IH]; intros n.
  - intros [= <-]. exists [], []. repeat split; [constructor|left; left; reflexivity].
  - cbn [numberRun]. destruct (isDigit c) eqn:D.
    + destruct (numberRun s true false false) as [n' h'] eqn:R.
      intros [= <- ->]. destruct (IH _ eq_refl) as (ip & rest & F & A & E).
      exists (c :: ip), rest. cbn [firstn app]. rewrite F.
      repeat split; [constructor; assumption|exact E].
    + cbn [negb]. rewrite !andb_true_r.
      destruct (N.eqb c (ch ".")) eqn:P.
      * apply N.eqb_eq in P. subst c.
        destruct (numberRun s true true false) as [n' h'] eqn:R.
        intros [= <- ->]. apply numberRun_after_point in R as (fp & tail & F & A & E).
        exists [], (ch "." :: fp ++ tail). cbn [firstn app]. rewrite F.
        repeat split; [constructor|]. right. exists fp, tail. auto.
      * destruct (N.eqb c (ch "e") || N.eqb c (ch "E")) eqn:X.
        -- assert (X' : c = ch "e" \/ c = ch "E")
             by (apply orb_true_iff in X as [X|X]; apply N.eqb_eq in X; auto).
           change (match s with
                   | [] => (1, false)
                   | g :: s'' =>
                       if N.eqb g (ch "+") || N.eqb g (ch "-")
                       then let '(n, h) := numberRun s'' false false true in (S (S n), h)
                       else let '(n, h) := numberRun s false false true in (S n, h)
                   end = (n, true) ->
                   exists ip rest,
                     firstn n (c :: s) = ip ++ rest /\ allDigits ip /\
                     (isExponent rest \/
                      exists fp tail,
                        rest = ch "." :: fp ++ tail /\ allDigits fp /\ isExponent tail)).
           rewrite <- (numberRun_exponent_step s false X').
           intros R. apply numberRun_exponent_inv in R as [E _]; [|exact X'].
           exists [], (firstn n (c :: s)). repeat split; [constructor|left; exact E].
        -- intros [= <-]. exists [], [].
           repeat split; [constructor|left; left; reflexivity].
Qed.

Lemma Number_decimal int fp tail :
  isDigits int -> allDigits fp -> isExponent tail ->
  exists value, Number (int ++ ch "." :: fp ++ tail) = Some value.
Proof.
  intros [Hne Hi] Hf He.
  destruct int as [|i int]; [congruence|].
  inversion Hi as [|? ? Hi1 _]; subst.
  unfold Number, takeSign. cbn [app].
  rewrite !(@isDigit_not i) by (assumption || reflexivity).
  change (i :: int ++ ch "." :: fp ++ tail)
    with ((i :: int) ++ ch "." :: fp ++ tail).
  rewrite (@takeDigits_app (i :: int) (ch "." :: fp ++ tail) Hi)
    by (simpl; intros c [= <-]; reflexivity).
  rewrite N.eqb_refl.
  rewrite (@takeDigits_app fp tail Hf (fun c => @exponent_head tail c He)).
  cbn [app]. apply exponentPart_defined. exact He.
Qed.


(** X10.  With a digit at the cursor, [nextToken] returns a number token
    exactly when the loop of [readNumber] stops before the end of the
    buffer with [hasDigit] set; the value is then [Number] of the text the
    loop has taken, which is never [NaN] (the [isNaN] test cannot fire).
    Otherwise there is no token and the cursor stays on the digit. *)
Theorem X10_digits_at_the_cursor_are_a_number_or_nothing
    (front s : jsstring) (c : char) (n : nat) (hasDigit : bool) :
  nth_error s 0 = Some c ->
  isDigit c = true ->
  numberRun s false false false = (n, hasDigit) ->
  if (n <? length s) && hasDigit
  then exists value,
         Number (firstn n s) = Some value /\
         nextToken (mkLexer (front ++ s) (length front))
         = (Some (number_token value), mkLexer (front ++ s) (length front + n))
  else nextToken (mkLexer (front ++ s) (length front))
       = (None, mkLexer (front ++ s) (length front)).
Proof.
  intros E D R.
  rewrite (@nextToken_digit _ c);
    [|cbn [buffer position]; rewrite <- (Nat.add_0_r (length front)), nth_error_shift;
      exact E|exact D].
  rewrite readNumber_numberRun, R.
  pose proof (numberRun_length s false false false) as L. rewrite R in L.
  cbn [fst] in L.
  destruct (Nat.eqb_spec n (length s)) as [->|Hn].
  { rewrite Nat.ltb_irrefl. reflexivity. }
  replace (n <? length s) with true by (symmetry; apply Nat.ltb_lt; lia).
  destruct hasDigit; cbn [andb negb]; [|reflexivity].
  assert (V : exists value, Number (firstn n s) = Some value).
  { destruct s as [|c0 s']; [discriminate E|]. injection E as ->.
    cbn [numberRun] in R. rewrite D in R.
    destruct (numberRun s' true false false) as [n' h'] eqn:R'.
    injection R as <- ->.
    apply numberRun_after_digit in R' as (ip & rest & F & A & X).
    cbn [firstn]. rewrite F.
    assert (I : isDigits (c :: ip)) by (split; [discriminate|constructor; assumption]).
    change (c :: ip ++ rest) with ((c :: ip) ++ rest).
    destruct X as [X|(fp & tail & -> & Af & X)].
    - exact (@Number_unsigned_literal (c :: ip) [] rest I (or_introl eq_refl) X).
    - apply Number_decimal; assumption. }
  destruct V as [value V]. rewrite V. exists value. auto.
Qed.

Lemma X10_witness :
  exists value,
    Number (firstn 4 (js "1.e5,")) = Some value /\
    nextToken (mkLexer (js "[" ++ js "1.e5,") (length (js "[")))
    = (Some (number_token value),
       mkLexer (js "[" ++ js "1.e5,") (length (js "[") + 4)).
Proof.
  exact (@X10_digits_at_the_cursor_are_a_number_or_nothing
           (js "[") (js "1.e5,") (ch "1") 4 true eq_refl eq_refl eq_refl).
Defined.

(** ** Literal names and code units that start no token *)


(** X11.  The names true, false and null are read as a token as soon as
    all their code units are in the buffer, whatever follows them (no
    delimiter is looked for); a proper prefix of a name that ends the
    buffer yields no token and leaves the cursor where it is. *)
Theorem X11_literal_name_is_a_token_whatever_follows
    (word : jsstring) (value : option bool) (front rest : jsstring) :
  In (word, value) literals ->
  nextToken (mkLexer (front ++ word ++ rest) (length front))
  = (Some (value_token value),
     mkLexer (front ++ word ++ rest) (length front + length word))
  /\ (forall n, 0 < n < length word ->
        nextToken (mkLexer (front ++ firstn n word) (length front))
        = (None, mkLexer (front ++ firstn n word) (length front))).
Proof.
  intros Hin. split.
  - rewrite nextToken_front.
    destruct Hin as [[= <- <-]|[[= <- <-]|[[= <- <-]|[]]]];
      vm_compute; reflexivity.
  - intros n Hn. rewrite nextToken_front.
    destruct Hin as [[= <- <-]|[[= <- <-]|[[= <- <-]|[]]]];
      cbn [length js map list_ascii_of_string] in Hn;
      destruct n as [|[|[|[|[|n]]]]]; try lia;
      vm_compute; rewrite Nat.add_0_r; reflexivity.
Qed.

Lemma X11_witness :
  nextToken (mkLexer (js "[" ++ js "null" ++ js "x") (length (js "[")))
  = (Some (value_token None),
     mkLexer (js "[" ++ js "null" ++ js "x") (length (js "[") + length (js "null")))
  /\ (forall n, 0 < n < length (js "null") ->
        nextToken (mkLexer (js "[" ++ firstn n (js "null")) (length (js "[")))
        = (None, mkLexer (js "[" ++ firstn n (js "null")) (length (js "[")))).
Proof.
  apply X11_literal_name_is_a_token_whatever_follows.
  right. right. left. reflexivity.
Defined.


(** X12.  A code unit at the cursor that is neither whitespace nor the
    first code unit of any token makes every call return [null] with the
    cursor on it, whatever follows: the lexer does not get past it. *)
Theorem X12_code_unit_that_starts_no_token_stops_the_lexer
    (c : char) (front rest : jsstring) :
  isSpace c = false ->
  startsToken c = false ->
  nextToken (mkLexer (front ++ c :: rest) (length front))
  = (None, mkLexer (front ++ c :: rest) (length front)).
Proof.
  intros Sp St. unfold startsToken in St.
  apply orb_false_iff in St as [St Dg].
  cbn [existsb] in St.
  repeat match type of St with
         | (_ || _) = false => apply orb_false_iff in St as [? St]
         end.
  set (l := mkLexer (front ++ c :: rest) (length front)).
  assert (E : nth_error (buffer l) (position l) = Some c)
    by apply nth_error_middle.
  unfold nextToken. cbv zeta.
  rewrite skipWhitespace_stays by (intros c0 Hc0; congruence).
  rewrite E.
  repeat match goal with
         | H : N.eqb c ?d = false |- context [N.eqb c ?d] => rewrite H
         end.
  rewrite Dg. cbn [orb].
  destruct (startsWith l (js "true")) eqn:T1.
  { pose proof (@startsWith_head _ _ _ _ T1 E). subst c. discriminate. }
  destruct (startsWith l (js "false")) eqn:T2.
  { pose proof (@startsWith_head _ _ _ _ T2 E). subst c. discriminate. }
  destruct (startsWith l (js "null")) eqn:T3.
  { pose proof (@startsWith_head _ _ _ _ T3 E). subst c. discriminate. }
  reflexivity.
Qed.

Lemma X12_witness :
  nextToken (mkLexer (js "[1," ++ ch "x" :: js ",2]") (length (js "[1,")))
  = (None, mkLexer (js "[1," ++ ch "x" :: js ",2]") (length (js "[1,"))).
Proof.
  apply X12_code_unit_that_starts_no_token_stops_the_lexer; reflexivity.
Defined.

(* ================================================================== *)
(** * Further properties of the one-shot parser *)
(* ================================================================== *)

Lemma nextToken_begin_object l :
  nth_error (buffer l) (position l) = Some (ch "{") ->
  nextToken l = (Some begin_object, setPosition l (position l + 1)).
Proof.
  intros E. unfold nextToken. cbv zeta.
  rewrite skipWhitespace_stays
    by (intros c Hc; rewrite E in Hc; injection Hc as <-; reflexivity).
  rewrite E. reflexivity.
Qed.

Lemma nextToken_begin_array l :
  nth_error (buffer l) (position l) = Some (ch "[") ->
  nextToken l = (Some begin_array, setPosition l (position l + 1)).
Proof.
  intros E. unfold nextToken. cbv zeta.
  rewrite skipWhitespace_stays
    by (intros c Hc; rewrite E in Hc; injection Hc as <-; reflexivity).
  rewrite E. reflexivity.
Qed.

Lemma nextToken_end_array l :
  nth_error (buffer l) (position l) = Some (ch "]") ->
  nextToken l = (Some end_array, setPosition l (position l + 1)).
Proof.
  intros E. unfold nextToken. cbv zeta.
  rewrite skipWhitespace_stays
    by (intros c Hc; rewrite E in Hc; injection Hc as <-; reflexivity).
  rewrite E. reflexivity.
Qed.

Lemma Parser_consume l :
  Parser.nextSignificantToken false l = Some (nextToken l).
Proof.
  unfold Parser.nextSignificantToken. destruct (nextToken l). reflexivity.
Qed.

Lemma Parser_peek l t l' :
  nextToken l = (Some t, l') ->
  Parser.nextSignificantToken true l
  = Some (Some t, setPosition l' (position l' - 1)).
Proof.
  intros E. unfold Parser.nextSignificantToken. rewrite E. reflexivity.
Qed.


(** X13.  [parse] ends on every input, with a value or with the error:
    the recursive descent needs at most [3 * n + 1] nested calls on a
    buffer of [n] code units. *)
Theorem X13_Parser_parse_returns_or_throws (input : jsstring) :
  exists outcome, Parser.parseFresh input = Some outcome.
Proof. apply Parser_parse_total. Qed.


(** X14.  When the input starts with a string, a number or a literal
    name that the lexer reads as a token, [parse] returns its value, and it
    returns the same value with any text added after the input: what
    follows the first value is never looked at. *)
Theorem X14_Parser_returns_a_leading_scalar_whatever_follows
    (input extra : jsstring) (t : Token) (l' : Lexer) (v : JSONValue) :
  nextToken (mkLexer input 0) = (Some t, l') ->
  scalarValue t = Some v ->
  Parser.parseFresh (input ++ extra) = Some (Parser.Returns v).
Proof.
  intros E Hv.
  apply (@nextToken_addChunk _ extra) in E.
  unfold Parser.parseFresh, Parser.parse.
  replace (addChunk newLexer (input ++ extra))
    with (addChunk (mkLexer input 0) extra) by reflexivity.
  rewrite descentFuel_S. cbn [Parser.parseValue]. unfold bind.
  rewrite Parser_consume, E.
  destruct t as [| | | | | |value|value|[b|]]; try discriminate Hv;
    injection Hv as <-; reflexivity.
Qed.

Lemma X14_witness :
  Parser.parseFresh (json "'ab'" ++ js " }}}") = Some (Parser.Returns (JString (js "ab"))).
Proof.
  apply (@X14_Parser_returns_a_leading_scalar_whatever_follows
           (json "'ab'") (js " }}}") (string_token (js "ab"))
           (mkLexer (json "'ab'") 4));
    reflexivity.
Defined.


(** X15.  [parse] throws on every object whose first key is a plain
    string and that holds no double quote after that key: the peek of
    [parseObject] puts the cursor back by one code unit, onto the closing
    quote of the key, so that the key is read again from there. *)
Theorem X15_Parser_object_with_a_string_key_throws (key rest : jsstring) :
  Forall (fun c => c <> c_quote /\ c <> c_backslash) key ->
  ~ In c_quote rest ->
  Parser.parseFresh (ch "{" :: c_quote :: key ++ c_quote :: rest)
  = Some (Parser.Throws (js "Invalid JSON")).
Proof.
  intros Hkey Hrest.
  set (input := ch "{" :: c_quote :: key ++ c_quote :: rest).
  unfold Parser.parseFresh, Parser.parse.
  replace (addChunk newLexer input) with (mkLexer input 0) by reflexivity.
  destruct (descentFuel (mkLexer input 0)) as [|[|[|fuel]]] eqn:F;
    try (unfold descentFuel, remaining, input in F; simpl in F; lia).
  (* the opening brace *)
  cbn [Parser.parseValue]. unfold bind; cbv beta.
  rewrite Parser_consume, nextToken_begin_object by reflexivity.
  unfold setPosition; cbn [position buffer Nat.add].
  (* the peek reads the key and steps back onto its closing quote *)
  cbn [Parser.parseObject]. unfold bind; cbv beta.
  assert (K : nextToken (mkLexer input 1)
              = (Some (string_token key), mkLexer input (length key + 3))).
  { change (mkLexer input 1)
      with (mkLexer ([ch "{"] ++ c_quote :: key ++ c_quote :: rest)
                    (length [ch "{"])).
    rewrite nextToken_stringRun, stringRun_plain_run by assumption.
    cbn. f_equal. f_equal. lia. }
  rewrite (Parser_peek _ K). unfold setPosition; cbn [position buffer].
  (* the key is read again, from that quote *)
  cbn [Parser.parseObjectLoop]. unfold bind; cbv beta.
  assert (Q : nextToken (mkLexer input (length key + 3 - 1))
              = (None, mkLexer input (length key + 3 - 1))).
  { replace (length key + 3 - 1) with (length (ch "{" :: c_quote :: key))
      by (simpl; lia).
    replace input with ((ch "{" :: c_quote :: key) ++ c_quote :: rest)
      by reflexivity.
    rewrite nextToken_stringRun.
    rewrite (@stringRun_no_quote (length rest)); [reflexivity|lia|exact Hrest]. }
  rewrite Parser_consume, Q. reflexivity.
Qed.

Lemma X15_witness :
  Parser.parseFresh (ch "{" :: c_quote :: js "a" ++ c_quote :: js ":1}")
  = Some (Parser.Throws (js "Invalid JSON")).
Proof.
  apply X15_Parser_object_with_a_string_key_throws.
  - repeat constructor; discriminate.
  - cbn. intros [H|[H|[H|[]]]]; discriminate H.
Defined.


(** X16.  An array whose only element is written with the digits [ds]
    and [d] is returned as the array that holds the number written by the
    last digit [d] alone: the peek of [parseArray] puts the cursor back by
    one code unit, into the number. *)
Theorem X16_Parser_reads_the_first_number_of_an_array_from_its_last_digit
    (ds rest : jsstring) (d : char) :
  Forall (fun c => isDigit c = true) ds ->
  isDigit d = true ->
  exists value,
    Number [d] = Some value /\
    Parser.parseFresh (ch "[" :: ds ++ d :: ch "]" :: rest)
    = Some (Parser.Returns (JArray [JNumber value])).
Proof.
  intros Hds Hd.
  set (input := ch "[" :: ds ++ d :: ch "]" :: rest).
  assert (Hend : endsNumber (ch "]")) by (repeat split; discriminate).
  (* the number the peek reads *)
  assert (D1 : isDigits (ds ++ [d])).
  { split; [destruct ds; discriminate|].
    apply Forall_app. split; [assumption|]. constructor; [assumption|constructor]. }
  destruct (@nextToken_unsigned_number [ch "["] (ds ++ [d]) [] [] rest (ch "]")
              D1 (or_introl eq_refl) (or_introl eq_refl) Hend)
    as (whole & _ & T1).
  (* the number read once the cursor has been moved back *)
  assert (D2 : isDigits [d]).
  { split; [discriminate|]. constructor; [assumption|constructor]. }
  destruct (@nextToken_unsigned_number (ch "[" :: ds) [d] [] [] rest (ch "]")
              D2 (or_introl eq_refl) (or_introl eq_refl) Hend)
    as (value & Hvalue & T2).
  exists value. split; [exact Hvalue|].
  assert (B1 : [ch "["] ++ ((ds ++ [d]) ++ [] ++ []) ++ ch "]" :: rest = input).
  { unfold input. rewrite !app_nil_r, <- app_assoc. reflexivity. }
  assert (B2 : (ch "[" :: ds) ++ ([d] ++ [] ++ []) ++ ch "]" :: rest = input)
    by reflexivity.
  rewrite B1 in T1. rewrite B2 in T2.
  rewrite !app_nil_r in T1. rewrite length_app in T1.
  cbn [length app Nat.add] in T1, T2.
  unfold Parser.parseFresh, Parser.parse.
  replace (addChunk newLexer input) with (mkLexer input 0) by reflexivity.
  destruct (descentFuel (mkLexer input 0)) as [|[|[|[|fuel]]]] eqn:F;
    try (unfold descentFuel, remaining, input in F; simpl in F; lia).
  cbn [Parser.parseValue]. unfold bind; cbv beta.
  rewrite Parser_consume, nextToken_begin_array by reflexivity.
  unfold setPosition; cbn [position buffer Nat.add].
  cbn [Parser.parseArray]. unfold bind; cbv beta.
  rewrite (Parser_peek _ T1). unfold setPosition; cbn [position buffer].
  replace (S (length ds + 1) - 1) with (S (length ds)) by lia.
  cbn [Parser.parseArrayLoop]. unfold bind; cbv beta.
  cbn [Parser.parseValue]. unfold bind; cbv beta.
  rewrite Parser_consume, T2.
  unfold ret at 1. cbv beta iota.
  rewrite Parser_consume, nextToken_end_array.
  - reflexivity.
  - cbn [buffer position]. unfold input.
    replace (ch "[" :: ds ++ d :: ch "]" :: rest)
      with ((ch "[" :: ds ++ [d]) ++ ch "]" :: rest)
      by (simpl; rewrite <- app_assoc; reflexivity).
    replace (S (length ds + 1)) with (length (ch "[" :: ds ++ [d]))
      by (simpl; rewrite length_app; simpl; lia).
    apply nth_error_middle.
Qed.

Lemma X16_witness :
  exists value,
    Number [ch "2"] = Some value /\
    Parser.parseFresh (ch "[" :: js "1" ++ ch "2" :: ch "]" :: [])
    = Some (Parser.Returns (JArray [JNumber value])).
Proof.
  apply X16_Parser_reads_the_first_number_of_an_array_from_its_last_digit;
    [repeat constructor|reflexivity].
Defined.

(* ================================================================== *)
(** * Further properties of the state machine *)
(* ================================================================== *)

Section MoreMachine.

Variable JSON_parse : jsstring -> option JSONValue.

Lemma drain_declined fuel p p1 :
  Streaming.processNextStep JSON_parse p = Some (false, p1) ->
  Streaming.drain JSON_parse (S fuel) p = Some (tt, p1).
Proof.
  intros H. cbn [Streaming.drain]. unfold bind, Streaming.getLexer.
  rewrite H. reflexivity.
Qed.

Lemma parseChunk_grow chunk p :
  Streaming.parseChunk JSON_parse chunk p
  = Streaming.drain JSON_parse (S (remaining (lexer (grow p chunk)))) (grow p chunk).
Proof. reflexivity. Qed.

(** ** What a stream can do to a parser *)

Lemma drain_appends : forall fuel p p',
  Streaming.drain JSON_parse fuel p = Some (tt, p') ->
  follows (lexer p) (lexer p') /\ exists more, events p' = events p ++ more.
Proof.
  induction fuel as [|fuel IH]; intros p p'; [discriminate|].
  cbn [Streaming.drain]. unfold bind, Streaming.getLexer.
  destruct (Streaming.processNextStep JSON_parse p) as [[b p1]|] eqn:H;
    [|discriminate].
  assert (F1 : follows (lexer p) (lexer p1))
    by (eapply processNextStep_follows; eassumption).
  assert (E1 : exists more, events p1 = events p ++ more).
  { destruct (processNextStep_events _ _ H) as [->|[[v ->]| ->]];
      [exists []; rewrite app_nil_r; reflexivity|eexists; reflexivity..]. }
  destruct (b && negb (getPosition (lexer p1) =? getPosition (lexer p))).
  - intros D. apply IH in D as (F2 & more2 & E2).
    split; [eapply follows_trans; eassumption|].
    destruct E1 as (more1 & E1). exists (more1 ++ more2).
    rewrite E2, E1, app_assoc. reflexivity.
  - intros [= <-]. auto.
Qed.


(** X17.  Feeding chunks only ever adds: the events after the stream are
    the events before it followed by new ones, the buffer is the old buffer
    followed by all the chunks (nothing is ever dropped from it), and the
    cursor has not moved back. *)
Theorem X17_parseStream_only_appends : forall chunks p,
  exists p' more,
    Streaming.parseStream JSON_parse chunks p = Some (tt, p') /\
    events p' = events p ++ more /\
    buffer (lexer p') = buffer (lexer p) ++ concat chunks /\
    position (lexer p) <= position (lexer p').
Proof.
  induction chunks as [|chunk chunks IH]; intros p.
  - exists p, []. cbn. rewrite !app_nil_r. auto.
  - cbn [Streaming.parseStream concat]. destruct chunk as [|c chunk].
    { destruct (IH p) as (p' & more & H & Ev & B & P).
      exists p', more. auto. }
    unfold bind.
    destruct (parseChunk_runs JSON_parse (c :: chunk) p) as (p1 & H1 & B1).
    rewrite H1. pose proof H1 as D. rewrite parseChunk_grow in D.
    apply drain_appends in D as ([_ P1] & more1 & E1).
    cbn [grow lexer events addChunk position] in P1, E1.
    destruct (IH p1) as (p' & more & H & Ev & B & P).
    exists p', (more1 ++ more). split; [exact H|].
    split; [rewrite Ev, E1, app_assoc; reflexivity|].
    split; [rewrite B, B1, app_assoc; reflexivity|lia].
Qed.

(** ** The final state *)

Lemma step_when_done p :
  state p = DONE ->
  exists p1, Streaming.processNextStep JSON_parse p = Some (false, p1) /\
             state p1 = DONE /\ events p1 = events p /\
             buffer (lexer p1) = buffer (lexer p).
Proof.
  intros St. destruct (processNextStep_spec JSON_parse p) as (b & p1 & H & Spec).
  destruct (nextToken (lexer p)) as [[t|] l1] eqn:E.
  - unfold stepOutcome in Spec. rewrite St in Spec. destruct Spec as [-> ->].
    exists p. auto.
  - destruct Spec as [-> ->]. eexists. split; [exact H|]. cbn. auto.
Qed.


(** X18.  Once the machine is in its final state it stays there: further
    chunks are added to the buffer, but the state remains final and no
    event is added. *)
Theorem X18_finished_parser_ignores_further_chunks : forall chunks p,
  state p = DONE ->
  exists p',
    Streaming.parseStream JSON_parse chunks p = Some (tt, p') /\
    state p' = DONE /\ events p' = events p /\
    buffer (lexer p') = buffer (lexer p) ++ concat chunks.
Proof.
  induction chunks as [|chunk chunks IH]; intros p St.
  - exists p. cbn. rewrite app_nil_r. auto.
  - cbn [Streaming.parseStream concat]. destruct chunk as [|c chunk].
    { destruct (IH p St) as (p' & H & St' & Ev & B). exists p'. auto. }
    unfold bind. rewrite parseChunk_grow.
    destruct (step_when_done (grow p (c :: chunk)) St) as (p1 & H1 & St1 & Ev1 & B1).
    rewrite (drain_declined _ _ H1).
    destruct (IH p1 St1) as (p' & H & St' & Ev & B).
    exists p'. split; [exact H|]. split; [exact St'|].
    split; [rewrite Ev, Ev1; reflexivity|].
    rewrite B, B1. unfold grow, addChunk. cbn [lexer buffer].
    rewrite <- app_assoc. reflexivity.
Qed.

(** ** A token the state does not accept *)

Lemma step_unexpected p t l1 :
  nextToken (lexer p) = (Some t, l1) ->
  expects (state p) t = false ->
  Streaming.processNextStep JSON_parse p = Some (false, p).
Proof.
  intros E X. destruct (processNextStep_spec JSON_parse p) as (b & p1 & H & Spec).
  rewrite E in Spec. unfold stepOutcome in Spec.
  destruct (state p); destruct t; try discriminate X;
    destruct Spec as [-> ->]; exact H.
Qed.


(** X19.  There is no error state: when the token at the cursor is one
    the current state does not accept, every later chunk is only added to
    the buffer; the state, the events and the cursor never change again. *)
Theorem X19_unexpected_token_stops_the_machine_for_good : forall chunks p t l1,
  nextToken (lexer p) = (Some t, l1) ->
  expects (state p) t = false ->
  Streaming.parseStream JSON_parse chunks p
  = Some (tt, mkParser (mkLexer (buffer (lexer p) ++ concat chunks)
                                (position (lexer p)))
                       (state p) (events p)).
Proof.
  induction chunks as [|chunk chunks IH]; intros p t l1 E X.
  - cbn. rewrite app_nil_r. destruct p as [[buf pos] st ev]. reflexivity.
  - cbn [Streaming.parseStream concat]. destruct chunk as [|c chunk].
    { exact (IH p t l1 E X). }
    unfold bind. rewrite parseChunk_grow.
    pose proof (@nextToken_addChunk _ (c :: chunk) _ _ E) as E'.
    rewrite (drain_declined _ _
               (@step_unexpected (grow p (c :: chunk)) t _ E' X)).
    rewrite (IH (grow p (c :: chunk)) t _ E' X).
    unfold grow, addChunk. cbn [lexer buffer position state events].
    rewrite <- app_assoc. reflexivity.
Qed.

End MoreMachine.

Lemma X18_witness :
  exists p',
    Streaming.parseStream JSON.JSON_parse [js "x"]
      (mkParser (mkLexer (json "{'results':[]}") 13) DONE []) = Some (tt, p') /\
    state p' = DONE /\
    events p' = events (mkParser (mkLexer (json "{'results':[]}") 13) DONE []) /\
    buffer (lexer p')
    = buffer (lexer (mkParser (mkLexer (json "{'results':[]}") 13) DONE []))
      ++ concat [js "x"].
Proof.
  apply (@X18_finished_parser_ignores_further_chunks JSON.JSON_parse [js "x"]
           (mkParser (mkLexer (json "{'results':[]}") 13) DONE [])).
  reflexivity.
Defined.

Lemma X19_witness :
  let p := mkParser (mkLexer (js "[") 0) EXPECT_OBJECT_START [] in
  Streaming.parseStream JSON.JSON_parse [js "1]"] p
  = Some (tt, mkParser (mkLexer (buffer (lexer p) ++ concat [js "1]"])
                                (position (lexer p)))
                       (state p) (events p)).
Proof.
  intros p.
  apply (@X19_unexpected_token_stops_the_machine_for_good JSON.JSON_parse
           [js "1]"] p begin_array (mkLexer (js "[") 1));
    reflexivity.
Defined.

(** ** Work that has been done is not undone by later text *)

Lemma consume_addChunk l chunk t l1 :
  Streaming.nextSignificantToken false l = Some (Some t, l1) ->
  Streaming.nextSignificantToken false (addChunk l chunk)
  = Some (Some t, addChunk l1 chunk).
Proof.
  rewrite !nextSignificantToken_consume. intros [= H].
  rewrite (@nextToken_addChunk _ chunk _ _ H). reflexivity.
Qed.

Lemma expectToken_addChunk type l chunk l1 :
  Streaming.expectToken type l = Some (true, l1) ->
  Streaming.expectToken type (addChunk l chunk) = Some (true, addChunk l1 chunk).
Proof.
  unfold Streaming.expectToken, bind, ret.
  destruct (Streaming.nextSignificantToken false l) as [[[t|] l2]|] eqn:E;
    try discriminate.
  rewrite (@consume_addChunk _ chunk _ _ E).
  intros [= -> <-]. reflexivity.
Qed.

(** A larger budget does not change the result of a descent. *)
Lemma descent_more_fuel k : forall fuel,
  (forall d l r, Streaming.parseValue fuel d l = Some r ->
     Streaming.parseValue (fuel + k) d l = Some r) /\
  (forall d l r, Streaming.parseObject fuel d l = Some r ->
     Streaming.parseObject (fuel + k) d l = Some r) /\
  (forall d obj l r, Streaming.parseObjectLoop fuel d obj l = Some r ->
     Streaming.parseObjectLoop (fuel + k) d obj l = Some r) /\
  (forall d l r, Streaming.parseArray fuel d l = Some r ->
     Streaming.parseArray (fuel + k) d l = Some r) /\
  (forall d arr l r, Streaming.parseArrayLoop fuel d arr l = Some r ->
     Streaming.parseArrayLoop (fuel + k) d arr l = Some r).
Proof.
  induction fuel as [|fuel (IHv & IHo & IHol & IHa & IHal)].
  { repeat split; intros; discriminate. }
  repeat split.
  - intros d l r. cbn [Nat.add Streaming.parseValue]. unfold bind.
    destruct (Streaming.nextSignificantToken false l) as [[[t|] l1]|];
      try (intros H; exact H).
    destruct t; try (intros H; exact H); [apply IHo|apply IHa].
  - intros d l r. cbn [Nat.add Streaming.parseObject]. unfold bind.
    destruct (Streaming.nextSignificantToken true l) as [[[t|] l1]|];
      try (intros H; exact H).
    destruct t; try (intros H; exact H); apply IHol.
  - intros d obj l r. cbn [Nat.add Streaming.parseObjectLoop]. unfold bind.
    destruct (Streaming.nextSignificantToken false l) as [[[t|] l1]|];
      try (intros H; exact H).
    destruct t; try (intros H; exact H).
    destruct (Streaming.expectToken ty_name_separator l1) as [[[|] l2]|];
      try (intros H; exact H). cbn [negb].
    destruct (Streaming.parseValue fuel d l2) as [[v l3]|] eqn:V; [|discriminate].
    rewrite (IHv _ _ _ V).
    destruct v as [v|]; [|intros H; exact H].
    destruct (Streaming.nextSignificantToken false l3) as [[[t|] l4]|];
      try (intros H; exact H).
    destruct t; try (intros H; exact H); apply IHol.
  - intros d l r. cbn [Nat.add Streaming.parseArray]. unfold bind.
    destruct (Streaming.nextSignificantToken true l) as [[[t|] l1]|];
      try (intros H; exact H).
    destruct t; try (intros H; exact H); apply IHal.
  - intros d arr l r. cbn [Nat.add Streaming.parseArrayLoop]. unfold bind.
    destruct (Streaming.parseValue fuel d l) as [[v l3]|] eqn:V; [|discriminate].
    rewrite (IHv _ _ _ V).
    destruct v as [v|]; [|intros H; exact H].
    destruct (Streaming.nextSignificantToken false l3) as [[[t|] l4]|];
      try (intros H; exact H).
    destruct t; try (intros H; exact H); apply IHal.
Qed.

(** A descent that returns a value returns it on every longer buffer. *)
Lemma descent_addChunk chunk : forall fuel,
  (forall d l v l', Streaming.parseValue fuel d l = Some (Some v, l') ->
     Streaming.parseValue fuel d (addChunk l chunk)
     = Some (Some v, addChunk l' chunk)) /\
  (forall d l v l', Streaming.parseObject fuel d l = Some (Some v, l') ->
     Streaming.parseObject fuel d (addChunk l chunk)
     = Some (Some v, addChunk l' chunk)) /\
  (forall d obj l v l', Streaming.parseObjectLoop fuel d obj l = Some (Some v, l') ->
     Streaming.parseObjectLoop fuel d obj (addChunk l chunk)
     = Some (Some v, addChunk l' chunk)) /\
  (forall d l v l', Streaming.parseArray fuel d l = Some (Some v, l') ->
     Streaming.parseArray fuel d (addChunk l chunk)
     = Some (Some v, addChunk l' chunk)) /\
  (forall d arr l v l', Streaming.parseArrayLoop fuel d arr l = Some (Some v, l') ->
     Streaming.parseArrayLoop fuel d arr (addChunk l chunk)
     = Some (Some v, addChunk l' chunk)).
Proof.
  induction fuel as [|fuel (IHv & IHo & IHol & IHa & IHal)].
  { repeat split; intros; discriminate. }
  repeat split.
  - intros d l v l'. cbn [Streaming.parseValue]. unfold bind, ret.
    destruct (Streaming.nextSignificantToken false l) as [[[t|] l1]|] eqn:E;
      try discriminate.
    rewrite (@consume_addChunk _ chunk _ _ E).
    destruct t; try discriminate; try (intros [= <- <-]; reflexivity);
      [apply IHo|apply IHa].
  - intros d l v l'. cbn [Streaming.parseObject]. unfold bind, ret.
    rewrite !nextSignificantToken_peek.
    destruct (nextToken l) as [[t|] l2] eqn:N; cbn [fst]; [|discriminate].
    rewrite (@nextToken_addChunk _ chunk _ _ N). cbn [fst].
    destruct t; try apply IHol.
    rewrite !nextSignificantToken_consume, N, (@nextToken_addChunk _ chunk _ _ N).
    intros [= <- <-]. reflexivity.
  - intros d obj l v l'. cbn [Streaming.parseObjectLoop]. unfold bind, ret.
    destruct (Streaming.nextSignificantToken false l) as [[[t|] l1]|] eqn:E;
      try discriminate.
    rewrite (@consume_addChunk _ chunk _ _ E).
    destruct t; try discriminate.
    destruct (Streaming.expectToken ty_name_separator l1) as [[[|] l2]|] eqn:C;
      try discriminate.
    rewrite (@expectToken_addChunk _ _ chunk _ C). cbn [negb].
    destruct (Streaming.parseValue fuel d l2) as [[[w|] l3]|] eqn:V;
      try discriminate.
    rewrite (IHv _ _ _ _ V).
    destruct (Streaming.nextSignificantToken false l3) as [[[t|] l4]|] eqn:E4;
      try discriminate.
    rewrite (@consume_addChunk _ chunk _ _ E4).
    destruct t; try discriminate; try (intros [= <- <-]; reflexivity).
    apply IHol.
  - intros d l v l'. cbn [Streaming.parseArray]. unfold bind, ret.
    rewrite !nextSignificantToken_peek.
    destruct (nextToken l) as [[t|] l2] eqn:N; cbn [fst]; [|discriminate].
    rewrite (@nextToken_addChunk _ chunk _ _ N). cbn [fst].
    destruct t; try apply IHal.
    rewrite !nextSignificantToken_consume, N, (@nextToken_addChunk _ chunk _ _ N).
    intros [= <- <-]. reflexivity.
  - intros d arr l v l'. cbn [Streaming.parseArrayLoop]. unfold bind, ret.
    destruct (Streaming.parseValue fuel d l) as [[[w|] l3]|] eqn:V;
      try discriminate.
    rewrite (IHv _ _ _ _ V).
    destruct (Streaming.nextSignificantToken false l3) as [[[t|] l4]|] eqn:E4;
      try discriminate.
    rewrite (@consume_addChunk _ chunk _ _ E4).
    destruct t; try discriminate; try (intros [= <- <-]; reflexivity).
    apply IHal.
Qed.

Lemma skipValue_addChunk l chunk l' :
  Streaming.skipValue l = Some (true, l') ->
  Streaming.skipValue (addChunk l chunk) = Some (true, addChunk l' chunk).
Proof.
  unfold Streaming.skipValue, bind, ret.
  destruct (Streaming.parseValue (descentFuel l) true l) as [[[v|] l1]|] eqn:V;
    try discriminate.
  intros [= <-].
  assert (P : position l < length (buffer l)).
  { pose proof V as V'. rewrite descentFuel_S in V'.
    cbn [Streaming.parseValue] in V'. unfold bind, ret in V'.
    destruct (Streaming.nextSignificantToken false l) as [[[t|] l2]|] eqn:E;
      try discriminate.
    apply nextSignificantToken_token in E as (_ & P1 & P2). lia. }
  apply (proj1 (descent_addChunk chunk (descentFuel l))) in V.
  apply (proj1 (descent_more_fuel (3 * length chunk) (descentFuel l))) in V.
  replace (descentFuel (addChunk l chunk))
    with (descentFuel l + 3 * length chunk).
  - rewrite V. reflexivity.
  - unfold descentFuel, remaining, addChunk. cbn [buffer position].
    rewrite length_app. lia.
Qed.

Lemma handleScanningForResults_grow token p t l1 p' chunk :
  nextToken (lexer p) = (Some t, l1) ->
  Streaming.handleScanningForResults token p = Some (true, p') ->
  Streaming.handleScanningForResults token (grow p chunk)
  = Some (true, grow p' chunk).
Proof.
  intros E.
  unfold Streaming.handleScanningForResults, bind, Streaming.liftLexer,
    Streaming.setState, ret, grow.
  machine_simpl.
  rewrite !nextSignificantToken_consume, E, (@nextToken_addChunk _ chunk _ _ E).
  machine_simpl.
  destruct (Streaming.isResultsKey token); machine_simpl.
  { intros [= <-]. reflexivity. }
  destruct (Streaming.expectToken ty_name_separator l1) as [[[|] l2]|] eqn:C;
    machine_simpl; try discriminate.
  rewrite (@expectToken_addChunk _ _ chunk _ C). machine_simpl.
  destruct (Streaming.skipValue l2) as [[[|] l3]|] eqn:K;
    machine_simpl; try discriminate.
  rewrite (@skipValue_addChunk _ chunk _ K). machine_simpl.
  destruct (Streaming.nextSignificantToken false l3) as [[[s|] l4]|] eqn:E4;
    machine_simpl; try discriminate.
  rewrite (@consume_addChunk _ chunk _ _ E4). machine_simpl.
  destruct s; machine_simpl; try discriminate; intros [= <-]; reflexivity.
Qed.

Lemma processNextStep_grow
    (JSON_parse : jsstring -> option JSONValue) p p' chunk :
  Streaming.processNextStep JSON_parse p = Some (true, p') ->
  Streaming.processNextStep JSON_parse (grow p chunk) = Some (true, grow p' chunk).
Proof.
  destruct p as [l st ev].
  unfold Streaming.processNextStep, bind, Streaming.liftLexer, grow.
  machine_simpl. rewrite !nextSignificantToken_peek.
  destruct (nextToken l) as [[t|] l1] eqn:E; machine_simpl; [|discriminate].
  pose proof (@nextToken_addChunk _ chunk _ _ E) as E'.
  pose proof (nextToken_success _ E) as (B1 & _ & P1).
  rewrite E'. machine_simpl. unfold Streaming.getState. machine_simpl.
  destruct st.
  - destruct t; cbn [Streaming.handleExpectObjectStart];
      unfold bind, Streaming.liftLexer, Streaming.setState, ret;
      machine_simpl; rewrite ?nextSignificantToken_consume, ?E, ?E'; machine_simpl;
      try discriminate; intros [= <-]; reflexivity.
  - intros H.
    apply (@handleScanningForResults_grow t (mkParser l SCANNING_FOR_RESULTS ev)
             t l1 p' chunk E H).
  - destruct t; cbn [Streaming.handleExpectColon];
      unfold bind, Streaming.liftLexer, Streaming.setState, ret;
      machine_simpl; rewrite ?nextSignificantToken_consume, ?E, ?E'; machine_simpl;
      try discriminate; intros [= <-]; reflexivity.
  - destruct t; cbn [Streaming.handleExpectArrayStart];
      unfold bind, Streaming.liftLexer, Streaming.setState, ret;
      machine_simpl; rewrite ?nextSignificantToken_consume, ?E, ?E'; machine_simpl;
      try discriminate; intros [= <-]; reflexivity.
  - destruct t; cbn [Streaming.handleParsingResultsArray];
      unfold bind, Streaming.liftLexer, Streaming.setState, Streaming.getLexer,
        ret, getPosition;
      machine_simpl; rewrite ?nextSignificantToken_consume, ?E, ?E'; machine_simpl;
      try discriminate; intros [= <-]; reflexivity.
  - unfold Streaming.handleParsingArrayEntry, bind, Streaming.getState,
      Streaming.liftLexer, Streaming.setState, Streaming.getLexer,
      Streaming.emit, ret, getPosition, getBuffer.
    machine_simpl. rewrite !nextSignificantToken_consume, E, E'. machine_simpl.
    destruct t; machine_simpl; try (intros [= <-]; reflexivity).
    destruct (bracketCount - 1 =? 0)%Z; machine_simpl;
      [|intros [= <-]; reflexivity].
    cbn [addChunk buffer position]. rewrite slice_app by (rewrite B1; exact P1).
    destruct (JSON_parse (slice (buffer l1) startPosition (position l1)));
      machine_simpl; [|discriminate].
    intros [= <-]. reflexivity.
  - discriminate.
Qed.


(** X20.  A step that reports progress is final: on the parser with any
    further chunk appended to its buffer, the same step reports progress
    again and ends in the same state, with the same events and the same
    cursor. *)
Theorem X20_step_that_makes_progress_is_not_changed_by_later_text
    (JSON_parse : jsstring -> option JSONValue) p p' chunk :
  Streaming.processNextStep JSON_parse p = Some (true, p') ->
  Streaming.processNextStep JSON_parse (grow p chunk) = Some (true, grow p' chunk).
Proof. apply processNextStep_grow. Qed.

Lemma X20_witness :
  let p := mkParser (mkLexer (js " {") 0) EXPECT_OBJECT_START [] in
  let p' := mkParser (mkLexer (js " {") 2) SCANNING_FOR_RESULTS [] in
  Streaming.processNextStep JSON.JSON_parse (grow p (json "'results'"))
  = Some (true, grow p' (json "'results'")).
Proof.
  intros p p'.
  apply (@X20_step_that_makes_progress_is_not_changed_by_later_text
           JSON.JSON_parse p p' (json "'results'")).
  vm_compute. reflexivity.
Defined.

(** ** The text of an element *)

Lemma readNumber_token l t l' :
  readNumber l = (Some t, l') -> exists value, t = number_token value.
Proof.
  unfold readNumber.
  destruct (readNumberLoop _ _ _ _ _ _) as [p hd].
  destruct (p =? length (buffer l)); [discriminate|].
  destruct hd; cbn [negb]; [|discriminate].
  destruct (Number _); [|discriminate].
  intros [= <- _]. eauto.
Qed.

Lemma nextToken_end_object_inv l l' :
  nextToken l = (Some end_object, l') ->
  nth_error (buffer l') (position l' - 1) = Some (ch "}").
Proof.
  nextToken_cases l1 E; try discriminate;
    try (intros H; apply readString_token in H as [v H]; discriminate H);
    try (intros H; apply readNumber_token in H as [v H]; discriminate H).
  intros [= <-]. cbn [setPosition buffer position].
  replace (position l1 + 1 - 1) with (position l1) by lia.
  match goal with
  | H : N.eqb _ (ch "}") = true |- _ => apply N.eqb_eq in H; rewrite H in E
  end.
  exact E.
Qed.

Section Element.

Variable JSON_parse : jsstring -> option JSONValue.

Lemma startsAtBrace_grow p chunk : startsAtBrace p -> startsAtBrace (grow p chunk).
Proof.
  unfold startsAtBrace, grow. cbn [state lexer].
  destruct (state p); trivial.
  intros (l1 & E & P).
  apply (@nextToken_addChunk _ chunk) in E.
  eexists. split; [exact E|]. exact P.
Qed.

Lemma startsAtBrace_step p progress p' :
  startsAtBrace p ->
  Streaming.processNextStep JSON_parse p = Some (progress, p') ->
  startsAtBrace p'.
Proof.
  intros Inv H.
  pose proof (processNextStep_follows _ _ H) as [B F].
  destruct (processNextStep_spec JSON_parse p) as (b & q & H' & Spec).
  rewrite H in H'. injection H' as <- <-.
  destruct (nextToken (lexer p)) as [[token|] l1] eqn:E.
  2:{ destruct Spec as [_ ->]. unfold startsAtBrace in *. cbn [state lexer] in *.
      destruct (state p); trivial. destruct Inv as (l2 & E2 & P2).
      exists l2. split; [exact E2|].
      pose proof (skipWhitespace_follows (lexer p)) as [_ W]. cbn in W |- *. lia. }
  pose proof (nextToken_success _ E) as (B1 & P1 & P1').
  unfold stepOutcome in Spec. unfold startsAtBrace in *.
  destruct (state p) eqn:St; try destruct token;
    repeat match goal with
           | H : context [if ?c then _ else _] |- _ => destruct c
           | H : context [match JSON_parse ?x with _ => _ end] |- _ =>
               destruct (JSON_parse x)
           end;
    try (destruct Spec as (_ & _ & [S|[S|S]]); rewrite S; exact I);
    try (destruct Spec as [_ ->]; rewrite ?St; cbn [state lexer]; try exact I;
         try (destruct Inv as (l2 & E2 & P2); exists l2; rewrite B1;
              split; [exact E2|lia]); fail).
  (* the opening brace of an element *)
  destruct Spec as [_ ->]. cbn [state lexer]. exists l1.
  rewrite B1. destruct (lexer p) as [buf pos]. cbn [buffer position] in *.
  split; [exact E|lia].
Qed.

Lemma reachable_startsAtBrace p : reachable JSON_parse p -> startsAtBrace p.
Proof.
  induction 1 as [|p chunk R IH|p progress p' R IH H].
  - exact I.
  - exact (@startsAtBrace_grow p chunk IH).
  - eapply startsAtBrace_step; eassumption.
Qed.


(** X21.  Every entry handed to the consumer is what [JSON.parse] made
    of a slice of the buffer: the slice runs from the recorded start to the
    cursor after the step, it begins (after whitespace) with an opening
    brace, which the cursor has passed, and it ends with a closing
    brace. *)
Theorem X21_emitted_entry_is_the_decode_of_a_braced_slice p progress p' v :
  reachable JSON_parse p ->
  Streaming.processNextStep JSON_parse p = Some (progress, p') ->
  events p' = events p ++ [onNewEntry v] ->
  exists startPosition l1,
    state p = PARSING_ARRAY_ENTRY 1 startPosition /\
    JSON_parse (slice (buffer (lexer p')) startPosition (position (lexer p')))
    = Some v /\
    nextToken (mkLexer (buffer (lexer p')) startPosition) = (Some begin_object, l1) /\
    position l1 < position (lexer p') /\
    nth_error (buffer (lexer p')) (position (lexer p') - 1) = Some (ch "}").
Proof.
  intros R H Hv.
  pose proof (reachable_startsAtBrace R) as Inv.
  destruct (processNextStep_spec JSON_parse p) as (b & q & H' & Spec).
  rewrite H in H'. injection H' as <- <-.
  destruct (nextToken (lexer p)) as [[token|] l1] eqn:E.
  2:{ destruct Spec as [_ ->]. cbn [events] in Hv. symmetry in Hv.
      apply events_grow in Hv. contradiction. }
  pose proof (nextToken_success _ E) as (B1 & P1 & P1').
  unfold stepOutcome in Spec. unfold startsAtBrace in Inv.
  destruct (state p) eqn:St; try destruct token;
    repeat match goal with
           | H : context [if ?c then _ else _] |- _ => destruct c eqn:?
           | H : context [match JSON_parse ?x with _ => _ end] |- _ =>
               destruct (JSON_parse x) eqn:?
           end;
    try (destruct Spec as [_ ->]; cbn [events] in Hv;
         first [ symmetry in Hv; apply events_grow in Hv; contradiction
               | apply app_inj_tail in Hv as [_ Hv]; discriminate Hv
               | idtac ]);
    try (destruct Spec as (_ & Ev & _); rewrite Ev in Hv; symmetry in Hv;
         apply events_grow in Hv; contradiction).
  apply app_inj_tail in Hv as [_ [= <-]].
  destruct Inv as (l2 & E2 & P2).
  exists startPosition, l2. cbn [lexer].
  match goal with
  | H : (_ =? 0)%Z = true |- _ => apply Z.eqb_eq in H
  end.
  split; [f_equal; lia|]. split; [assumption|].
  rewrite B1. split; [exact E2|]. split; [lia|].
  rewrite <- B1. apply (nextToken_end_object_inv _ E).
Qed.


(** X22.  While an element is being collected, a plain string at the
    cursor is taken as a whole and leaves the recorded depth as it is,
    whatever braces the string holds. *)
Theorem X22_string_inside_an_element_does_not_change_the_depth
    (front text rest : jsstring) bracketCount startPosition ev :
  Forall (fun c => c <> c_quote /\ c <> c_backslash) text ->
  let buf := front ++ c_quote :: text ++ c_quote :: rest in
  Streaming.processNextStep JSON_parse
    (mkParser (mkLexer buf (length front))
              (PARSING_ARRAY_ENTRY bracketCount startPosition) ev)
  = Some (true,
          mkParser (mkLexer buf (length front + length text + 2))
                   (PARSING_ARRAY_ENTRY bracketCount startPosition) ev).
Proof.
  intros Hp buf.
  assert (E : nextToken (mkLexer buf (length front))
              = (Some (string_token text),
                 mkLexer buf (length front + length text + 2))).
  { unfold buf. rewrite nextToken_stringRun, stringRun_plain_run by assumption.
    cbn. f_equal. f_equal. lia. }
  destruct (processNextStep_spec JSON_parse
              (mkParser (mkLexer buf (length front))
                        (PARSING_ARRAY_ENTRY bracketCount startPosition) ev))
    as (b & q & H & Spec).
  cbn [lexer] in Spec. rewrite E in Spec.
  unfold stepOutcome in Spec. cbn [state events] in Spec.
  destruct Spec as [-> ->]. exact H.
Qed.

End Element.

Lemma X21_witness :
  let p := mkParser (mkLexer (json "{'results':[{'a':1}") 18)
                    (PARSING_ARRAY_ENTRY 1 12) [] in
  let p' := mkParser (mkLexer (json "{'results':[{'a':1}") 19)
                     PARSING_RESULTS_ARRAY
                     [onNewEntry (JObject [(js "a", JNumber (numberOfZ 1))])] in
  exists startPosition l1,
    state p = PARSING_ARRAY_ENTRY 1 startPosition /\
    JSON.JSON_parse (slice (buffer (lexer p')) startPosition (position (lexer p')))
    = Some (JObject [(js "a", JNumber (numberOfZ 1))]) /\
    nextToken (mkLexer (buffer (lexer p')) startPosition) = (Some begin_object, l1) /\
    position l1 < position (lexer p') /\
    nth_error (buffer (lexer p')) (position (lexer p') - 1) = Some (ch "}").
Proof.
  intros p p'.
  apply (@X21_emitted_entry_is_the_decode_of_a_braced_slice
           JSON.JSON_parse p true p' (JObject [(js "a", JNumber (numberOfZ 1))])).
  - apply (@reachable_step JSON.JSON_parse
             (mkParser (mkLexer (json "{'results':[{'a':1}") 17)
                       (PARSING_ARRAY_ENTRY 1 12) []) true p).
    + apply (@reachable_chunk JSON.JSON_parse
               (mkParser (mkLexer (json "{'results':[{'a':1") 17)
                         (PARSING_ARRAY_ENTRY 1 12) []) (js "}")).
      apply (@run_reachable JSON.JSON_parse [json "{'results':[{'a':1"]).
      vm_compute. reflexivity.
    + vm_compute. reflexivity.
  - vm_compute. reflexivity.
  - vm_compute. reflexivity.
Defined.

Lemma X22_witness :
  let buf := js "{" ++ c_quote :: js "}{" ++ c_quote :: js "}" in
  Streaming.processNextStep JSON.JSON_parse
    (mkParser (mkLexer buf (length (js "{"))) (PARSING_ARRAY_ENTRY 1 0) [])
  = Some (true,
          mkParser (mkLexer buf (length (js "{") + length (js "}{") + 2))
                   (PARSING_ARRAY_ENTRY 1 0) []).
Proof.
  apply (@X22_string_inside_an_element_does_not_change_the_depth
           JSON.JSON_parse (js "{") (js "}{") (js "}") 1 0 []).
  repeat constructor; discriminate.
Defined.

(** ** The order of the states *)

Section Rank.

Variable JSON_parse : jsstring -> option JSONValue.

Lemma step_rank p progress p' :
  Streaming.processNextStep JSON_parse p = Some (progress, p') ->
  stateRank (state p) <= stateRank (state p') <= S (stateRank (state p))
  \/ (state p = SCANNING_FOR_RESULTS /\ state p' = DONE).
Proof.
  intros H. destruct (processNextStep_spec JSON_parse p) as (b & q & H' & Spec).
  rewrite H in H'. injection H' as <- <-.
  destruct (nextToken (lexer p)) as [[token|] l1] eqn:E;
    [|destruct Spec as [_ ->]; cbn [state]; left; lia].
  unfold stepOutcome in Spec.
  destruct (state p) eqn:St; try destruct token;
    repeat match goal with
           | H : context [if ?c then _ else _] |- _ => destruct c
           | H : context [match JSON_parse ?x with _ => _ end] |- _ =>
               destruct (JSON_parse x)
           end;
    try (destruct Spec as [_ ->]; rewrite ?St; cbn [state stateRank]; left; lia).
  all: destruct Spec as (_ & _ & [S|[S|S]]); rewrite S; cbn [stateRank];
    first [left; lia|right; auto].
Qed.

Lemma drain_rank : forall fuel p p',
  Streaming.drain JSON_parse fuel p = Some (tt, p') ->
  stateRank (state p) <= stateRank (state p').
Proof.
  induction fuel as [|fuel IH]; intros p p'; [discriminate|].
  cbn [Streaming.drain]. unfold bind, Streaming.getLexer.
  destruct (Streaming.processNextStep JSON_parse p) as [[b p1]|] eqn:H;
    [|discriminate].
  assert (R1 : stateRank (state p) <= stateRank (state p1)).
  { destruct (@step_rank p b p1 H) as [R|[S1 S2]]; [lia|rewrite S1, S2; simpl; lia]. }
  destruct (b && negb (getPosition (lexer p1) =? getPosition (lexer p))).
  - intros D. apply IH in D. lia.
  - intros [= <-]. exact R1.
Qed.


(** X24.  The machine never goes back: in the order expect-object,
    scan-keys, expect-colon, expect-array, in-the-array (between or inside
    elements), done, the state after a stream is the state before it or a
    later one.  So the keys are never scanned again once [results] has been
    found, and nothing follows the final state. *)
Theorem X24_machine_never_goes_back : forall chunks p p',
  Streaming.parseStream JSON_parse chunks p = Some (tt, p') ->
  stateRank (state p) <= stateRank (state p').
Proof.
  induction chunks as [|c chunks IH]; intros p p'.
  - intros [= <-]. lia.
  - cbn [Streaming.parseStream]. destruct c as [|x c]; [apply IH|].
    unfold bind.
    destruct (Streaming.parseChunk JSON_parse (x :: c) p) as [[[] p1]|] eqn:H;
      [|discriminate].
    intros D. apply IH in D. rewrite parseChunk_grow in H.
    apply drain_rank in H. cbn [grow state] in H. lia.
Qed.

End Rank.

Lemma X24_witness :
  stateRank (state newParser)
  <= stateRank (state (mkParser (mkLexer (json "{'results':[") 12)
                                PARSING_RESULTS_ARRAY [])).
Proof.
  apply (@X24_machine_never_goes_back JSON.JSON_parse [json "{'results':["]
           newParser
           (mkParser (mkLexer (json "{'results':[") 12) PARSING_RESULTS_ARRAY [])).
  vm_compute. reflexivity.
Defined.

(* ================================================================== *)
(** * Chunks cut outside the scan for the key *)
(* ================================================================== *)

(** ** Parsers that differ by skipped whitespace *)

Lemma sameState_refl buf st : sameState buf st st.
Proof. destruct st; simpl; auto. Qed.

Lemma sameState_trans buf st1 st2 st3 :
  sameState buf st1 st2 -> sameState buf st2 st3 -> sameState buf st1 st3.
Proof.
  destruct st1, st2; simpl; try contradiction; try discriminate;
    destruct st3; simpl; try contradiction; try discriminate; auto.
  intros [-> E1] [-> E2]. split; congruence.
Qed.

Lemma alike_refl p : alike p p.
Proof. repeat split. apply sameState_refl. Qed.

Lemma alike_buffer p q : alike p q -> buffer (lexer p) = buffer (lexer q).
Proof.
  intros (_ & W & _). apply (f_equal buffer) in W. exact W.
Qed.

Lemma alike_trans p q r : alike p q -> alike q r -> alike p r.
Proof.
  intros A1 A2. pose proof (alike_buffer A1) as B.
  destruct A1 as (E1 & W1 & S1), A2 as (E2 & W2 & S2).
  repeat split; try congruence.
  rewrite <- B in S2. eapply sameState_trans; eassumption.
Qed.

Lemma nextToken_alike l1 l2 :
  skipWhitespace l1 = skipWhitespace l2 -> nextToken l1 = nextToken l2.
Proof.
  intros W. rewrite <- (nextToken_skipWhitespace l1), <- (nextToken_skipWhitespace l2), W.
  reflexivity.
Qed.

Lemma sameState_grow buf chunk st1 st2 :
  sameState buf st1 st2 -> sameState (buf ++ chunk) st1 st2.
Proof.
  destruct st1, st2; simpl; auto.
  intros [-> W]. split; [reflexivity|].
  change (mkLexer (buf ++ chunk) startPosition)
    with (addChunk (mkLexer buf startPosition) chunk).
  change (mkLexer (buf ++ chunk) startPosition0)
    with (addChunk (mkLexer buf startPosition0) chunk).
  rewrite <- (skipWhitespace_resume (mkLexer buf startPosition)),
          <- (skipWhitespace_resume (mkLexer buf startPosition0)), W.
  reflexivity.
Qed.

Lemma alike_grow p q chunk : alike p q -> alike (grow p chunk) (grow q chunk).
Proof.
  intros (E & W & S). unfold grow. repeat split; cbn [events lexer state].
  - exact E.
  - rewrite <- (skipWhitespace_resume (lexer p)),
            <- (skipWhitespace_resume (lexer q)), W. reflexivity.
  - cbn [addChunk buffer]. apply sameState_grow. exact S.
Qed.

(** ** The step on parsers that are alike *)

Lemma nextToken_begin_object_inv l l' :
  nextToken l = (Some begin_object, l') ->
  position l' = position (skipWhitespace l) + 1.
Proof.
  nextToken_cases l1 E; try discriminate;
    try (intros H; apply readString_token in H as [v H]; discriminate H);
    try (intros H; apply readNumber_token in H as [v H]; discriminate H).
  intros [= <-]. reflexivity.
Qed.

Lemma handleScanningForResults_alike token p q :
  nextToken (lexer p) = nextToken (lexer q) ->
  state p = state q -> events p = events q ->
  Streaming.handleScanningForResults token p
  = Streaming.handleScanningForResults token q.
Proof.
  intros N St Ev.
  unfold Streaming.handleScanningForResults, bind, Streaming.liftLexer,
    Streaming.setState, ret.
  rewrite !nextSignificantToken_consume, N, St, Ev. reflexivity.
Qed.

Section Alike.

Variable JSON_parse : jsstring -> option JSONValue.

Lemma step_alike p q b p' :
  alike p q ->
  startsAtBrace p ->
  decodesAlike JSON_parse (buffer (lexer p)) ->
  Streaming.processNextStep JSON_parse p = Some (b, p') ->
  exists q', Streaming.processNextStep JSON_parse q = Some (b, q') /\ alike p' q'.
Proof.
  intros A Inv Dec.
  pose proof (alike_buffer A) as B.
  destruct A as (Ev & W & St).
  pose proof (nextToken_alike W) as N.
  destruct p as [lp stp evp], q as [lq stq evq].
  cbn [lexer state events] in *. subst evq.
  unfold Streaming.processNextStep, bind, Streaming.liftLexer.
  machine_simpl. rewrite !nextSignificantToken_peek, <- N.
  destruct (nextToken lp) as [[t|] l1] eqn:E; machine_simpl.
  2:{ intros [= <- <-]. eexists. split; [reflexivity|].
      repeat split; cbn [events lexer state].
      - rewrite !skipWhitespace_idem. exact W.
      - exact St. }
  pose proof (nextToken_success _ E) as (B1 & P1 & P1').
  unfold Streaming.getState. machine_simpl.
  assert (R0 : alike (mkParser lp stp evp) (mkParser lq stq evp))
    by (repeat split; assumption).
  destruct stp; destruct stq; try contradiction; try discriminate St.
  - (* EXPECT_OBJECT_START *)
    destruct t; cbn [Streaming.handleExpectObjectStart];
      unfold bind, Streaming.liftLexer, Streaming.setState, ret;
      machine_simpl; rewrite ?nextSignificantToken_consume, <- ?N, ?E; machine_simpl;
      intros [= <- <-]; eexists; (split; [reflexivity|]);
      first [exact R0|apply alike_refl].
  - (* SCANNING_FOR_RESULTS *)
    intros H. exists p'. split; [|apply alike_refl].
    rewrite <- H. symmetry.
    apply handleScanningForResults_alike; cbn [lexer state events];
      [rewrite E; exact N|reflexivity|reflexivity].
  - (* EXPECT_COLON_AFTER_RESULTS *)
    destruct t; cbn [Streaming.handleExpectColon];
      unfold bind, Streaming.liftLexer, Streaming.setState, ret;
      machine_simpl; rewrite ?nextSignificantToken_consume, <- ?N, ?E; machine_simpl;
      intros [= <- <-]; eexists; (split; [reflexivity|]);
      first [exact R0|apply alike_refl].
  - (* EXPECT_ARRAY_START *)
    destruct t; cbn [Streaming.handleExpectArrayStart];
      unfold bind, Streaming.liftLexer, Streaming.setState, ret;
      machine_simpl; rewrite ?nextSignificantToken_consume, <- ?N, ?E; machine_simpl;
      intros [= <- <-]; eexists; (split; [reflexivity|]);
      first [exact R0|apply alike_refl].
  - (* PARSING_RESULTS_ARRAY *)
    destruct t; cbn [Streaming.handleParsingResultsArray];
      unfold bind, Streaming.liftLexer, Streaming.setState, Streaming.getLexer,
        ret, getPosition;
      machine_simpl; rewrite ?nextSignificantToken_consume, <- ?N, ?E; machine_simpl;
      intros [= <- <-]; eexists; (split; [reflexivity|]);
      try first [exact R0|apply alike_refl].
    (* the opening brace of an element *)
    repeat split; cbn [events lexer state sameState].
    rewrite B1.
    replace (mkLexer (buffer lp) (position lp)) with lp by (destruct lp; reflexivity).
    rewrite B.
    replace (mkLexer (buffer lq) (position lq)) with lq by (destruct lq; reflexivity).
    exact W.
  - (* PARSING_ARRAY_ENTRY *)
    destruct St as [<- WS].
    unfold Streaming.handleParsingArrayEntry, bind, Streaming.getState,
      Streaming.liftLexer, Streaming.setState, Streaming.getLexer,
      Streaming.emit, ret, getPosition, getBuffer.
    machine_simpl. rewrite !nextSignificantToken_consume, <- N, E. machine_simpl.
    assert (S' : forall bc, sameState (buffer l1)
                   (PARSING_ARRAY_ENTRY bc startPosition)
                   (PARSING_ARRAY_ENTRY bc startPosition0))
      by (intros bc; split; [reflexivity|rewrite B1; exact WS]).
    destruct t; machine_simpl;
      try (intros [= <- <-]; eexists; (split; [reflexivity|]);
           split; [reflexivity|split; [reflexivity|apply S']]).
    destruct (bracketCount - 1 =? 0)%Z; machine_simpl;
      [|intros [= <- <-]; eexists; (split; [reflexivity|]);
        split; [reflexivity|split; [reflexivity|apply S']]].
    assert (D : JSON_parse (slice (buffer l1) startPosition (position l1))
                = JSON_parse (slice (buffer l1) startPosition0 (position l1))).
    { rewrite B1. apply Dec; [exact WS|].
      unfold startsAtBrace in Inv. cbn [state lexer] in Inv.
      destruct Inv as (l2 & E2 & P2).
      apply nextToken_begin_object_inv in E2. lia. }
    rewrite <- D.
    destruct (JSON_parse (slice (buffer l1) startPosition (position l1)));
      machine_simpl; intros [= <- <-]; eexists; (split; [reflexivity|]).
    + apply alike_refl.
    + split; [reflexivity|split; [reflexivity|apply S']].
  - (* DONE *)
    intros [= <- <-]. eexists. split; [reflexivity|]. exact R0.
Qed.

(** ** The loop of [parseChunk] as a relation *)

Lemma progress_moves_the_cursor p p' :
  Streaming.processNextStep JSON_parse p = Some (true, p') ->
  position (lexer p) < position (lexer p').
Proof.
  intros H. destruct (processNextStep_spec JSON_parse p) as (b & q & H' & Spec).
  rewrite H in H'. injection H' as <- <-.
  destruct (nextToken (lexer p)) as [[token|] l1] eqn:E;
    [|destruct Spec as [[=] _]].
  apply nextToken_success in E as (_ & P & _).
  unfold stepOutcome in Spec.
  destruct (state p); try destruct token;
    repeat match goal with
           | H : context [if ?c then _ else _] |- _ => destruct c
           | H : context [match JSON_parse ?x with _ => _ end] |- _ =>
               destruct (JSON_parse x)
           end;
    try (destruct Spec as [[=] _]; fail);
    try (destruct Spec as [_ ->]; exact P);
    destruct Spec as ((_ & A & _) & _); exact A.
Qed.

Lemma drain_drains : forall fuel p p',
  Streaming.drain JSON_parse fuel p = Some (tt, p') -> drains JSON_parse p p'.
Proof.
  induction fuel as [|fuel IH]; intros p p'; [discriminate|].
  cbn [Streaming.drain]. unfold bind, Streaming.getLexer.
  destruct (Streaming.processNextStep JSON_parse p) as [[[|] p1]|] eqn:H;
    [|intros [= <-]; apply drains_stop; exact H|discriminate].
  pose proof (progress_moves_the_cursor _ H) as P.
  unfold getPosition.
  replace (position (lexer p1) =? position (lexer p)) with false
    by (symmetry; apply Nat.eqb_neq; lia).
  cbn [andb negb]. intros D. eapply drains_step; [exact H|apply IH; exact D].
Qed.

Lemma drains_functional p a b :
  drains JSON_parse p a -> drains JSON_parse p b -> a = b.
Proof.
  intros Da. revert b.
  induction Da as [p a H|p p1 a H Da IH]; intros b Db;
    destruct Db as [p b H'|p p2 b H' Db]; rewrite H in H'; try discriminate H'.
  - injection H' as <-. reflexivity.
  - injection H' as <-. apply IH. exact Db.
Qed.

Lemma drains_parseChunk chunk p p' :
  drains JSON_parse (grow p chunk) p' ->
  Streaming.parseChunk JSON_parse chunk p = Some (tt, p').
Proof.
  intros D. destruct (parseChunk_runs JSON_parse chunk p) as (p'' & H & _).
  rewrite H. pose proof H as H'. rewrite parseChunk_grow in H'.
  apply drain_drains in H'.
  rewrite (drains_functional H' D). reflexivity.
Qed.

Lemma drains_alike p q p' :
  alike p q ->
  reachable JSON_parse p ->
  decodesAlike JSON_parse (buffer (lexer p)) ->
  drains JSON_parse p p' ->
  exists q', drains JSON_parse q q' /\ alike p' q'.
Proof.
  intros A R Dec D. revert q A.
  induction D as [p p' H|p p1 p' H D IH]; intros q A.
  - destruct (step_alike A (reachable_startsAtBrace R) Dec H) as (q' & H' & A').
    exists q'. split; [apply drains_stop; exact H'|exact A'].
  - destruct (step_alike A (reachable_startsAtBrace R) Dec H) as (q1 & H' & A').
    assert (R1 : reachable JSON_parse p1) by (eapply reachable_step; eassumption).
    assert (Dec1 : decodesAlike JSON_parse (buffer (lexer p1))).
    { apply processNextStep_follows in H as [B _]. rewrite B. exact Dec. }
    destruct (IH R1 Dec1 q1 A') as (q' & D' & A'').
    exists q'. split; [eapply drains_step; eassumption|exact A''].
Qed.

(** ** A step that reports no progress *)

Lemma declined_step_leaves_no_trace p p' :
  Streaming.processNextStep JSON_parse p = Some (false, p') ->
  state p' <> SCANNING_FOR_RESULTS ->
  ~ In console_error (events p') ->
  alike p' p.
Proof.
  intros H St Ev.
  destruct (processNextStep_spec JSON_parse p) as (b & q & H' & Spec).
  rewrite H in H'. injection H' as <- <-.
  destruct (nextToken (lexer p)) as [[token|] l1] eqn:E.
  2:{ destruct Spec as [_ ->]. repeat split; cbn [events lexer state].
      - apply skipWhitespace_idem.
      - apply sameState_refl. }
  destruct (state p) eqn:Sp.
  7:{ unfold stepOutcome in Spec. rewrite Sp in Spec. destruct Spec as [_ ->].
      apply alike_refl. }
  2:{ exfalso. apply St.
      rewrite (@processNextStep_scanning JSON_parse p _ _ Sp E) in H.
      apply handleScanningForResults_declines in H. congruence. }
  all: unfold stepOutcome in Spec; rewrite Sp in Spec;
    destruct token;
    repeat match goal with
           | H : context [if ?c then _ else _] |- _ => destruct c
           | H : context [match JSON_parse ?x with _ => _ end] |- _ =>
               destruct (JSON_parse x)
           end;
    try (destruct Spec as [[=] _]; fail);
    try (destruct Spec as [_ ->]; apply alike_refl).
  destruct Spec as [_ ->]. exfalso. apply Ev. cbn [events].
  apply in_or_app. right. left. reflexivity.
Qed.

(** ** What a drain has done is done again on the longer buffer *)

Lemma drains_grow x y chunk z :
  reachable JSON_parse x ->
  decodesAlike JSON_parse (buffer (lexer x) ++ chunk) ->
  drains JSON_parse x y ->
  state y <> SCANNING_FOR_RESULTS ->
  ~ In console_error (events y) ->
  drains JSON_parse (grow y chunk) z ->
  exists z', drains JSON_parse (grow x chunk) z' /\ alike z z'.
Proof.
  intros R Dec D St Ev Dz. revert R Dec.
  induction D as [x y H|x x1 y H D IH]; intros R Dec.
  - pose proof (@declined_step_leaves_no_trace x y H St Ev) as A.
    apply (alike_grow chunk) in A.
    apply (drains_alike A); [| |exact Dz].
    + apply reachable_chunk. eapply reachable_step; eassumption.
    + cbn [grow lexer addChunk buffer].
      apply processNextStep_follows in H as [B _]. rewrite B. exact Dec.
  - destruct IH as (z' & D' & A'); [assumption..| | |].
    + eapply reachable_step; eassumption.
    + apply processNextStep_follows in H as [B _]. rewrite B. exact Dec.
    + exists z'. split; [|exact A'].
      eapply drains_step; [|exact D'].
      apply processNextStep_grow. exact H.
Qed.

End Alike.

(** ** Slices that start in the same run of whitespace *)

Lemma slice_split (buf : jsstring) a b c :
  a <= b -> b <= c -> slice buf a c = slice buf a b ++ slice buf b c.
Proof.
  intros H1 H2. unfold slice.
  replace (skipn b buf) with (skipn (b - a) (skipn a buf))
    by (rewrite skipn_skipn; f_equal; lia).
  remember (skipn a buf) as X eqn:HX. clear HX.
  replace (c - a) with ((b - a) + (c - b)) by lia.
  generalize (b - a) as n. generalize (c - b) as m. clear.
  intros m n. revert X. induction n as [|n IH]; intros X.
  - reflexivity.
  - destruct X as [|x X]; [simpl; rewrite firstn_nil; reflexivity|].
    cbn [Nat.add firstn skipn app]. rewrite IH. reflexivity.
Qed.

Lemma nth_error_slice (buf : jsstring) a b k x :
  nth_error (slice buf a b) k = Some x ->
  a <= a + k < b /\ nth_error buf (a + k) = Some x.
Proof.
  unfold slice. rewrite nth_error_firstn.
  destruct (Nat.ltb_spec k (b - a)) as [Hk|Hk]; [|discriminate].
  rewrite nth_error_skipn. intros Hx. split; [lia|exact Hx].
Qed.

Lemma slice_whitespace text buf s :
  incl buf text ->
  Forall (fun c => isSpace c = true /\ In c text)
         (slice buf s (position (skipWhitespace (mkLexer buf s)))).
Proof.
  intros Hin. apply Forall_forall. intros x Hx.
  apply In_nth_error in Hx as [k Hk].
  apply nth_error_slice in Hk as [Hr Hk].
  cbn [skipWhitespace setPosition position buffer] in Hr.
  destruct (@skipWhitespaceLoop_run buf _ s (s + k) Hr) as (c & Hc & Sp).
  rewrite Hk in Hc. injection Hc as <-.
  split; [exact Sp|]. apply Hin. eapply nth_error_In. exact Hk.
Qed.

Lemma decodesAlike_incl (JSON_parse : jsstring -> option JSONValue) text buf :
  (forall ws x, Forall (fun c => isSpace c = true /\ In c text) ws ->
     JSON_parse (ws ++ x) = JSON_parse x) ->
  incl buf text ->
  decodesAlike JSON_parse buf.
Proof.
  intros H Hin s1 s2 pos W P.
  assert (L : forall s, position (skipWhitespace (mkLexer buf s)) <= pos ->
                JSON_parse (slice buf s pos)
                = JSON_parse (slice buf (position (skipWhitespace (mkLexer buf s))) pos)).
  { intros s Hs.
    rewrite (@slice_split buf s (position (skipWhitespace (mkLexer buf s))) pos);
      [|destruct (skipWhitespace_follows (mkLexer buf s)) as [_ F];
        cbn [position] in F |- *; lia
       |exact Hs].
    apply H. apply slice_whitespace. exact Hin. }
  rewrite (L s1 P), (L s2) by (rewrite <- W; exact P).
  rewrite W. reflexivity.
Qed.

(** ** The run on the chunks and the run on the whole text *)

Lemma parseStream_app JSON_parse : forall a b p,
  Streaming.parseStream JSON_parse (a ++ b) p
  = match Streaming.parseStream JSON_parse a p with
    | Some (_, p1) => Streaming.parseStream JSON_parse b p1
    | None => None
    end.
Proof.
  induction a as [|c a IH]; intros b p.
  - reflexivity.
  - cbn [app Streaming.parseStream]. destruct c as [|x c]; [apply IH|].
    unfold bind. destruct (Streaming.parseChunk JSON_parse (x :: c) p) as [[[] p1]|];
      [apply IH|reflexivity].
Qed.

Lemma parseStream_buffer JSON_parse : forall chunks p p',
  Streaming.parseStream JSON_parse chunks p = Some (tt, p') ->
  buffer (lexer p') = buffer (lexer p) ++ concat chunks.
Proof.
  induction chunks as [|c chunks IH]; intros p p'.
  - intros [= <-]. cbn. rewrite app_nil_r. reflexivity.
  - cbn [Streaming.parseStream concat]. destruct c as [|x c]; [apply IH|].
    unfold bind.
    destruct (parseChunk_runs JSON_parse (x :: c) p) as (p1 & H1 & B1).
    rewrite H1. intros H. apply IH in H. rewrite H, B1, <- app_assoc. reflexivity.
Qed.

Lemma run_single_empty JSON_parse :
  Streaming.run JSON_parse [[]] = Some newParser.
Proof. reflexivity. Qed.

Lemma cuts_outside_key_scanning JSON_parse text :
  (forall ws x, Forall (fun c => isSpace c = true /\ In c text) ws ->
     JSON_parse (ws ++ x) = JSON_parse x) ->
  forall chunks,
    incl (concat chunks) text ->
    (forall k q, k < length chunks ->
       Streaming.run JSON_parse [concat (firstn k chunks)] = Some q ->
       state q <> SCANNING_FOR_RESULTS /\ ~ In console_error (events q)) ->
    exists p q,
      Streaming.run JSON_parse chunks = Some p /\
      Streaming.run JSON_parse [concat chunks] = Some q /\
      alike p q.
Proof.
  intros Hws chunks. induction chunks as [|c chunks IH] using rev_ind.
  { intros _ _. exists newParser, newParser. repeat split. }
  intros Hin Hcut.
  rewrite concat_app in Hin. cbn [concat] in Hin. rewrite app_nil_r in Hin.
  destruct IH as (p1 & q1 & Hp1 & Hq1 & A1).
  { intros x Hx. apply Hin. apply in_or_app. left. exact Hx. }
  { intros k q Hk. specialize (Hcut k q).
    rewrite length_app, firstn_app in Hcut.
    replace (k - length chunks) with 0 in Hcut by lia.
    rewrite firstn_O, app_nil_r in Hcut. apply Hcut. lia. }
  destruct (Hcut (length chunks) q1) as [St1 Ev1].
  { rewrite length_app. simpl. lia. }
  { rewrite firstn_app, Nat.sub_diag, firstn_O, app_nil_r, firstn_all. exact Hq1. }
  rewrite concat_app. cbn [concat]. rewrite app_nil_r.
  unfold Streaming.run in Hp1 |- *. rewrite parseStream_app.
  destruct (Streaming.parseStream JSON_parse chunks newParser) as [[[] p1']|] eqn:Hp;
    [|discriminate]. cbn [option_map snd] in Hp1. injection Hp1 as ->.
  destruct c as [|x c].
  { exists p1, q1. rewrite app_nil_r. cbn [Streaming.parseStream].
    split; [reflexivity|]. split; [exact Hq1|exact A1]. }
  (* the last chunk on the parser fed with the chunks before it *)
  assert (R1 : reachable JSON_parse p1)
    by (eapply parseStream_reachable; [apply reachable_new|exact Hp]).
  assert (B1 : buffer (lexer p1) = concat chunks).
  { apply parseStream_buffer in Hp. exact Hp. }
  cbn [Streaming.parseStream]. unfold bind.
  destruct (parseChunk_runs JSON_parse (x :: c) p1) as (p2 & Hp2 & _).
  rewrite Hp2. unfold ret. cbn [option_map snd].
  pose proof Hp2 as D2. rewrite parseChunk_grow in D2. apply drain_drains in D2.
  assert (Dec : decodesAlike JSON_parse (concat chunks ++ x :: c))
    by (apply (@decodesAlike_incl JSON_parse text _ Hws); exact Hin).
  destruct (@drains_alike JSON_parse (grow p1 (x :: c)) (grow q1 (x :: c)) p2)
    as (z & Dz & Az).
  { apply alike_grow. exact A1. }
  { apply reachable_chunk. exact R1. }
  { cbn [grow lexer addChunk buffer]. rewrite B1. exact Dec. }
  { exact D2. }
  exists p2.
  (* the whole text *)
  destruct (concat chunks) as [|t0 T] eqn:HT.
  - rewrite run_single_empty in Hq1. injection Hq1 as <-.
    exists z. split; [reflexivity|]. split; [|exact Az].
    cbn [app Streaming.parseStream]. unfold bind.
    rewrite (drains_parseChunk Dz). reflexivity.
  - unfold Streaming.run in Hq1. cbn [Streaming.parseStream] in Hq1.
    unfold bind in Hq1.
    destruct (Streaming.parseChunk JSON_parse (t0 :: T) newParser)
      as [[[] q1']|] eqn:Hq; [|discriminate Hq1].
    cbn in Hq1. injection Hq1 as ->.
    rewrite parseChunk_grow in Hq. apply drain_drains in Hq.
    destruct (@drains_grow JSON_parse (grow newParser (t0 :: T)) q1 (x :: c) z)
      as (z' & Dz' & Az'); try assumption.
    { apply (@reachable_chunk JSON_parse newParser (t0 :: T)). apply reachable_new. }
    exists z'. split; [reflexivity|]. split; [|eapply alike_trans; eassumption].
    cbn [app Streaming.parseStream]. unfold bind.
    rewrite (@drains_parseChunk JSON_parse (t0 :: T ++ x :: c) newParser z');
      [reflexivity|exact Dz'].
Qed.


(** X23.  Where the text is cut does not matter as long as no cut falls
    while the machine scans the keys.  Suppose that for every cut the run
    on the text before it ends in a state other than the scan for the key
    and has logged no decode failure, and that [JSON.parse] ignores leading
    whitespace of the kinds that occur in the text.  Then the run on the
    chunks and the run on the whole text end with the same events (the same
    entries in the same order), the same buffer, and the same cursor and
    state up to whitespace that [nextToken] skips. *)
Theorem X23_cuts_outside_key_scanning_do_not_change_the_run
    (JSON_parse : jsstring -> option JSONValue) (chunks : list jsstring) :
  (forall ws x,
     Forall (fun c => isSpace c = true /\ In c (concat chunks)) ws ->
     JSON_parse (ws ++ x) = JSON_parse x) ->
  (forall k q, k < length chunks ->
     Streaming.run JSON_parse [concat (firstn k chunks)] = Some q ->
     state q <> SCANNING_FOR_RESULTS /\ ~ In console_error (events q)) ->
  exists p q,
    Streaming.run JSON_parse chunks = Some p /\
    Streaming.run JSON_parse [concat chunks] = Some q /\
    events p = events q /\
    buffer (lexer p) = buffer (lexer q) /\
    skipWhitespace (lexer p) = skipWhitespace (lexer q) /\
    sameState (buffer (lexer p)) (state p) (state q).
Proof.
  intros Hws Hcut.
  destruct (@cuts_outside_key_scanning JSON_parse (concat chunks) Hws chunks
              (incl_refl _) Hcut) as (p & q & Hp & Hq & A).
  exists p, q. split; [exact Hp|]. split; [exact Hq|].
  pose proof (alike_buffer A) as B. destruct A as (E & W & S). auto.
Qed.

Lemma X23_witness :
  exists p q,
    Streaming.run JSON.JSON_parse three_cuts = Some p /\
    Streaming.run JSON.JSON_parse [concat three_cuts] = Some q /\
    events p = events q /\
    buffer (lexer p) = buffer (lexer q) /\
    skipWhitespace (lexer p) = skipWhitespace (lexer q) /\
    sameState (buffer (lexer p)) (state p) (state q).
Proof.
  apply (@X23_cuts_outside_key_scanning_do_not_change_the_run JSON.JSON_parse three_cuts).
  - intros [|w ws] x Hws; [reflexivity|].
    inversion Hws as [|? ? [Sp Hin] _]; subst. exfalso.
    assert (F : forallb (fun c => negb (isSpace c)) (concat three_cuts) = true)
      by (vm_compute; reflexivity).
    rewrite forallb_forall in F. apply F in Hin. rewrite Sp in Hin. discriminate Hin.
  - intros [|[|[|k]]] q Hk H; try (simpl in Hk; lia);
      vm_compute in H; injection H as <-;
      (split; [discriminate|cbn; intuition discriminate]).
Defined.

Example three_cuts_run :
  concat three_cuts = two_results /\
  option_map (fun p => (state p, events p)) (Streaming.run JSON.JSON_parse three_cuts)
  = Some (DONE, [onNewEntry alice; onNewEntry bob]).
Proof. split; vm_compute; reflexivity. Qed.
